(** * univang::CommandLineParser: a shallow embedding and its properties

    The development follows [command_line_parser.hpp].  Text is [string]
    (for [std::string_view] and [std::string] alike), integer values are
    [Z], floating-point values are binary floats ([spec_float]),
    [std::vector<Option>] is a list addressed by index (an [Option*] is an
    index into [options_]), and the caller-owned variables behind the
    [void* value] pointers live in a memory, a finite map from addresses to
    typed variables. *)

From Stdlib Require Import ZArith String Ascii DecimalString SpecFloat.
From stdpp Require Import base option list gmap strings.

Local Open Scope string_scope.
Local Open Scope nat_scope.

(** ** [std::string_view] operations used by the parser *)

Module sv.

Definition empty (s : string) : bool :=
  match s with
  | EmptyString => true
  | String _ _ => false
  end.

Definition size (s : string) : nat := String.length s.

(** [s.substr(n)], also [s.remove_prefix(n)]. *)
Fixpoint drop (n : nat) (s : string) : string :=
  match n, s with
  | O, _ => s
  | S n, String _ s => drop n s
  | S _, EmptyString => EmptyString
  end.

(** [s.substr(0, n)]. *)
Fixpoint take (n : nat) (s : string) : string :=
  match n, s with
  | S n, String c s => String c (take n s)
  | _, _ => EmptyString
  end.

(** [s.find(c)]; [None] is [npos]. *)
Fixpoint find (c : ascii) (s : string) : option nat :=
  match s with
  | EmptyString => None
  | String d s => if Ascii.eqb d c then Some O else S <$> find c s
  end.

(** [s.find_last_of(set)]; [None] is [npos]. *)
Fixpoint find_last_of (set : string) (s : string) : option nat :=
  match s with
  | EmptyString => None
  | String d s =>
      match find_last_of set s with
      | Some k => Some (S k)
      | None => if bool_decide (is_Some (find d set)) then Some O else None
      end
  end.

(** Does [s] begin with the character [c]? *)
Definition starts_with (c : ascii) (s : string) : bool :=
  match s with
  | String d _ => Ascii.eqb d c
  | EmptyString => false
  end.

(** [std::string(n, c)], the padding of the help text. *)
Fixpoint fill (n : nat) (c : ascii) : string :=
  match n with
  | O => EmptyString
  | S n => String c (fill n c)
  end.

(** [hay] contains [needle] as a contiguous run of characters. *)
Fixpoint contains (needle hay : string) : bool :=
  String.prefix needle hay ||
  match hay with
  | EmptyString => false
  | String _ hay => contains needle hay
  end.

End sv.

(** ** [std::from_chars] for the integer types

    The standard library is not part of the repository; the definition
    follows [charconv.from.chars] of the C++ standard for base 10: the
    pattern is an optional minus sign (signed types only) followed by a
    non-empty run of decimal digits, no white space and no plus sign.  If
    nothing matches, [value] is unmodified and [ec] is [invalid_argument];
    if the digits do not fit the type, [value] is unmodified and [ec] is
    [result_out_of_range]; otherwise [value] is set.  [ptr] is the offset
    of the first character that does not match the pattern. *)

Record integral := { is_signed : bool; bits : Z }.

Definition int_ : integral := {| is_signed := true; bits := 32 |}.
Definition unsigned_ : integral := {| is_signed := false; bits := 32 |}.
Definition int64_ : integral := {| is_signed := true; bits := 64 |}.

Definition min_of (k : integral) : Z :=
  if is_signed k then (- 2 ^ (bits k - 1))%Z else 0%Z.
Definition max_of (k : integral) : Z :=
  if is_signed k then (2 ^ (bits k - 1) - 1)%Z else (2 ^ bits k - 1)%Z.

Inductive errc := errc_none | invalid_argument | result_out_of_range.

Record from_chars_result := { ptr : nat; ec : errc }.

Definition digit (c : ascii) : option Z :=
  let n := nat_of_ascii c in
  if bool_decide (48 ≤ n ≤ 57) then Some (Z.of_nat n - 48)%Z else None.

(** The longest run of digits at the front of [s]: its value on top of
    [acc] and its length. *)
Fixpoint digits (s : string) (acc : Z) : Z * nat :=
  match s with
  | EmptyString => (acc, O)
  | String c s' =>
      match digit c with
      | Some d => let r := digits s' (10 * acc + d)%Z in (r.1, S r.2)
      | None => (acc, O)
      end
  end.

Definition from_chars (k : integral) (s : string) (value : Z)
  : from_chars_result * Z :=
  let minus := is_signed k && sv.starts_with "-" s in
  let r := digits (if minus then sv.drop 1 s else s) 0 in
  let parsed := if minus then (- r.1)%Z else r.1 in
  let stop := if minus then S r.2 else r.2 in
  if bool_decide (r.2 = O) then
    ({| ptr := O; ec := invalid_argument |}, value)
  else if bool_decide (min_of k ≤ parsed ≤ max_of k)%Z then
    ({| ptr := stop; ec := errc_none |}, parsed)
  else
    ({| ptr := stop; ec := result_out_of_range |}, value).

(** ** [std::from_chars] for the floating-point types

    Again after [charconv.from.chars], with the default format
    [chars_format::general]: the pattern is that of [strtod] in the "C"
    locale without leading white space, without a plus sign in front
    and without the hexadecimal form.  That is an optional minus sign
    and then either a non-empty run of decimal digits that may contain
    one radix point, with an optional exponent behind it ([e] or [E],
    an optional sign and a non-empty run of digits), or one of [inf],
    [infinity], [nan] and [nan(n-char-sequence)] in any mix of cases.
    The longest front of the text that has this form is converted, to
    the nearest value of the type (to even on a tie).  A number too
    large for the type is out of range; so is, as in libstdc++, a
    number other than zero that rounds to zero.  Errors are reported as
    for the integer types, and [value] is unmodified then. *)

(** The binary format: the precision and the exponent bound of
    IEEE 754. *)
Record floating := { prec : Z; emax : Z }.

Definition float_ : floating := {| prec := 24; emax := 128 |}.
Definition double_ : floating := {| prec := 53; emax := 1024 |}.

(** What the text of a number stands for: [decimal_ m e] is
    [m * 10 ^ e]. *)
Inductive literal :=
| infinity_
| nan_
| decimal_ (m : Z) (e : Z).

Definition lower (c : ascii) : ascii :=
  let n := nat_of_ascii c in
  if bool_decide (65 ≤ n ≤ 90) then ascii_of_nat (n + 32) else c.

(** Does [s] begin with the lower-case [word], in any mix of cases? *)
Fixpoint starts_with_word (word s : string) : bool :=
  match word, s with
  | EmptyString, _ => true
  | String w word, String c s => Ascii.eqb (lower c) w && starts_with_word word s
  | String _ _, EmptyString => false
  end.

(** The characters of an n-char-sequence: digits, letters and the
    underscore. *)
Definition n_char (c : ascii) : bool :=
  let n := nat_of_ascii c in
  bool_decide (48 ≤ n ≤ 57 ∨ 65 ≤ n ≤ 90 ∨ 97 ≤ n ≤ 122 ∨ n = 95).

(** The length of the longest run of such characters at the front. *)
Fixpoint n_chars (s : string) : nat :=
  match s with
  | String c s' => if n_char c then S (n_chars s') else O
  | EmptyString => O
  end.

(** The exponent part at the front of [s]: its value and its length,
    both 0 when there is none. *)
Definition lex_exponent (s : string) : Z * nat :=
  match s with
  | String c s' =>
      if Ascii.eqb (lower c) "e" then
        let neg := sv.starts_with "-" s' in
        let sign := neg || sv.starts_with "+" s' in
        let d := digits (if sign then sv.drop 1 s' else s') 0 in
        if bool_decide (d.2 = O) then (0%Z, O)
        else ((if neg then - d.1 else d.1)%Z,
              (if sign then 2 + d.2 else 1 + d.2)%nat)
      else (0%Z, O)
  | EmptyString => (0%Z, O)
  end.

(** Digits, with or without a radix point among them, and an exponent:
    the number and the length of the text. *)
Definition lex_decimal (s : string) : option (literal * nat) :=
  let i := digits s 0 in
  let point := sv.starts_with "." (sv.drop i.2 s) in
  let f := if point then digits (sv.drop (S i.2) s) i.1 else (i.1, O) in
  if bool_decide (i.2 + f.2 = O) then None
  else
    let n := (if point then S (i.2 + f.2) else i.2)%nat in
    let x := lex_exponent (sv.drop n s) in
    Some (decimal_ f.1 (x.1 - Z.of_nat f.2), (n + x.2)%nat).

(** Infinity and NaN. *)
Definition lex_special (s : string) : option (literal * nat) :=
  if starts_with_word "infinity" s then Some (infinity_, 8)
  else if starts_with_word "inf" s then Some (infinity_, 3)
  else if starts_with_word "nan" s then
    if sv.starts_with "(" (sv.drop 3 s) then
      let n := n_chars (sv.drop 4 s) in
      if sv.starts_with ")" (sv.drop (4 + n) s) then Some (nan_, 5 + n)
      else Some (nan_, 3)
    else Some (nan_, 3)
  else None.

(** [m * 10 ^ e] for [m > 0], with the sign [minus], rounded to the
    format. *)
Definition round_decimal (f : floating) (minus : bool) (m e : Z)
  : spec_float :=
  if (0 <=? e)%Z then
    binary_normalize (prec f) (emax f)
      (if minus then - (m * 10 ^ e) else m * 10 ^ e)%Z 0 minus
  else
    SFdiv (prec f) (emax f)
      (S754_finite minus (Z.to_pos m) 0)
      (S754_finite false (Z.to_pos (10 ^ (- e))) 0).

Definition from_chars_floating (f : floating) (s : string)
    (value : spec_float) : from_chars_result * spec_float :=
  let minus := sv.starts_with "-" s in
  let body := if minus then sv.drop 1 s else s in
  let r :=
    match lex_decimal body with
    | Some r => Some r
    | None => lex_special body
    end in
  match r with
  | None => ({| ptr := O; ec := invalid_argument |}, value)
  | Some (lit, n) =>
      let stop := if minus then S n else n in
      match lit with
      | infinity_ => ({| ptr := stop; ec := errc_none |}, S754_infinity minus)
      | nan_ => ({| ptr := stop; ec := errc_none |}, S754_nan)
      | decimal_ m e =>
          if (m =? 0)%Z then
            ({| ptr := stop; ec := errc_none |}, S754_zero minus)
          else
            match round_decimal f minus m e with
            | S754_finite sx mx ex =>
                ({| ptr := stop; ec := errc_none |}, S754_finite sx mx ex)
            | _ => ({| ptr := stop; ec := result_out_of_range |}, value)
            end
      end
  end.

(** ** The value binder *)

(** The types [T] for which an overload [parse(std::string_view, T&)]
    exists: text, the arithmetic types, which are the integer and the
    floating-point types, and [std::optional] of such a type. *)
Inductive ScalarType :=
| TText
| TIntegral (k : integral)
| TFloating (f : floating)
| TOptional (t : ScalarType).

Fixpoint scalar (t : ScalarType) : Type :=
  match t with
  | TText => string
  | TIntegral _ => Z
  | TFloating _ => spec_float
  | TOptional t => option (scalar t)
  end.

(** [T()], the value an [emplace] or [emplace_back] without arguments
    constructs. *)
Definition value_init (t : ScalarType) : scalar t :=
  match t with
  | TText => EmptyString
  | TIntegral _ => 0%Z
  | TFloating _ => S754_zero false
  | TOptional _ => None
  end.

(** [res.ec == std::errc{} && res.ptr == str.data() + str.size()] *)
Definition consumed (str : string) (res : from_chars_result) : bool :=
  match ec res with
  | errc_none => Nat.eqb (ptr res) (sv.size str)
  | _ => false
  end.

(** The overload set [parse(str, value)]: the result and the new content
    of [value]. *)
Fixpoint parse_scalar (t : ScalarType) (str : string)
  : scalar t → bool * scalar t :=
  match t with
  | TText => λ _, (true, str)
  | TIntegral k => λ value,
      let r := from_chars k str value in (consumed str r.1, r.2)
  | TFloating f => λ value,
      let r := from_chars_floating f str value in (consumed str r.1, r.2)
  | TOptional t => λ _,
      let r := parse_scalar t str (value_init t) in
      (r.1, Some r.2)
  end.

(** A caller-owned variable that an option can be bound to. *)
Inductive Var :=
| VBool (b : bool)
| VScalar (t : ScalarType) (v : scalar t)
| VVector (t : ScalarType) (l : list (scalar t)).

(** The functions a [ParseFn] can point to. *)
Inductive ParseFn :=
| parseFlag
| parseValue (T : ScalarType)
| parseList (T : ScalarType).

#[global] Instance integral_eq_dec : EqDecision integral.
Proof. solve_decision. Defined.
#[global] Instance floating_eq_dec : EqDecision floating.
Proof. solve_decision. Defined.
#[global] Instance ScalarType_eq_dec : EqDecision ScalarType.
Proof. solve_decision. Defined.

(** Calling [fn(value, str)] where [value] points to the variable [x].
    The [static_cast] is only defined when the variable has the type the
    function was instantiated for; [None] is the undefined cast. *)
Definition call (fn : ParseFn) (x : Var) (str : string) : option (bool * Var) :=
  match fn, x with
  | parseFlag, VBool _ => Some (true, VBool true)
  | parseValue T, VScalar t v =>
      if decide (T = t) then
        let r := parse_scalar t str v in Some (r.1, VScalar t r.2)
      else None
  | parseList T, VVector t l =>
      if decide (T = t) then
        let r := parse_scalar t str (value_init t) in
        Some (r.1, VVector t (l ++ [r.2]))
      else None
  | _, _ => None
  end.

(** ** The option table *)

Inductive OptionType := param | flag | list_.

#[global] Instance OptionType_eq_dec : EqDecision OptionType.
Proof. solve_decision. Defined.

Module Option.

Record t := mk {
  type : OptionType;
  parsed : bool;
  required : bool;
  value : nat;
  parse : ParseFn;
  name : string;
  flags : string;
  help : string;
  hint : string;
  position : Z
}.

(** The constructor: [spec] is [[+]name[,flags[,hint]]]. *)
Definition Option (type : OptionType) (value : nat) (parse : ParseFn)
    (spec help : string) (position : Z) : t :=
  let required := negb (sv.empty spec) && sv.starts_with "+" spec in
  let spec := if required then sv.drop 1 spec else spec in
  match sv.find "," spec with
  | None => mk type false required value parse spec "" help "" position
  | Some pos =>
      let name := sv.take pos spec in
      let spec := sv.drop (pos + 1) spec in
      match sv.find "," spec with
      | None => mk type false required value parse name spec help "" position
      | Some pos =>
          mk type false required value parse name (sv.take pos spec) help
            (sv.drop (pos + 1) spec) position
      end
  end.

(** [opt.parsed = true]. *)
Definition set_parsed (o : t) : t :=
  mk (type o) true (required o) (value o) (parse o) (name o) (flags o)
    (help o) (hint o) (position o).

End Option.

(** The caller's variables, by address. *)
Abbreviation Memory := (gmap nat Var).

Record CommandLineParser := {
  program_ : string;
  skipUnknown_ : bool;
  options_ : list Option.t;
  error_ : string
}.

(** A parser as its default member initialisers leave it. *)
Definition CommandLineParser_new : CommandLineParser :=
  {| program_ := ""; skipUnknown_ := false; options_ := []; error_ := "" |}.

Definition with_program (s : string) (p : CommandLineParser) :=
  {| program_ := s; skipUnknown_ := skipUnknown_ p;
     options_ := options_ p; error_ := error_ p |}.
Definition with_skipUnknown (b : bool) (p : CommandLineParser) :=
  {| program_ := program_ p; skipUnknown_ := b;
     options_ := options_ p; error_ := error_ p |}.
Definition with_options (os : list Option.t) (p : CommandLineParser) :=
  {| program_ := program_ p; skipUnknown_ := skipUnknown_ p;
     options_ := os; error_ := error_ p |}.
Definition with_error (e : string) (p : CommandLineParser) :=
  {| program_ := program_ p; skipUnknown_ := skipUnknown_ p;
     options_ := options_ p; error_ := e |}.

(** [options_.emplace_back(...)] *)
Definition addFlag (value : nat) (spec help : string) (p : CommandLineParser) :=
  with_options
    (options_ p ++ [Option.Option flag value parseFlag spec help 0]) p.

Definition add (T : ScalarType) (value : nat) (spec help : string)
    (position : Z) (p : CommandLineParser) :=
  with_options
    (options_ p ++ [Option.Option param value (parseValue T) spec help position]) p.

(** The overload of [add] for [std::vector<T, Alloc>]. *)
Definition add_vector (T : ScalarType) (value : nat) (spec help : string)
    (position : Z) (p : CommandLineParser) :=
  with_options
    (options_ p ++ [Option.Option list_ value (parseList T) spec help position]) p.

Definition setProgram (name : string) (p : CommandLineParser) :=
  with_program name p.
Definition skipUnknown (value : bool) (p : CommandLineParser) :=
  with_skipUnknown value p.
Definition error (p : CommandLineParser) : string := error_ p.

Definition formatArgError (msg arg : string) (p : CommandLineParser) :=
  with_error (error_ p +:+ msg +:+ ": " +:+ arg) p.

(** [option->parsed = true], [option] pointing to [options_[i]]. *)
Definition mark_parsed (i : nat) (p : CommandLineParser) :=
  with_options (alter Option.set_parsed i (options_ p)) p.

(** *** The three overloads of [findOption] *)

(** The loop of [findOption(int position)] from entry [i] on;
    [positionalOpt] is the local of that name. *)
Fixpoint findOption_position_loop (opts : list Option.t) (i : nat)
    (position : Z) (positionalOpt : option nat) : option nat :=
  match opts with
  | [] => positionalOpt
  | opt :: opts =>
      if (Option.position opt =? position)%Z then Some i
      else findOption_position_loop opts (S i) position
             (if (Option.position opt =? -1)%Z then Some i else positionalOpt)
  end.

Definition findOption_position (position : Z) (p : CommandLineParser)
  : option nat :=
  findOption_position_loop (options_ p) 0 position None.

Definition findOption_optChar (optChar : ascii) (p : CommandLineParser)
  : option nat * CommandLineParser :=
  match list_find (λ opt, is_Some (sv.find optChar (Option.flags opt)))
          (options_ p) with
  | Some (i, _) => (Some i, p)
  | None =>
      (None,
       if skipUnknown_ p then p
       else with_error ("unknown option: -" +:+ String optChar "") p)
  end.

Definition findOption_name (name : string) (p : CommandLineParser)
  : option nat * CommandLineParser :=
  match list_find (λ opt, Option.name opt = name) (options_ p) with
  | Some (i, _) => (Some i, p)
  | None =>
      (None,
       if skipUnknown_ p then p
       else with_error ("unknown option: --" +:+ name) p)
  end.

(** ** The parse engine *)

(** The ways a call can leave defined behaviour.  [argv] lists the strings
    [argv[0] .. argv[argc - 1]]; behind them there is no string to read. *)
Inductive Fault :=
| OutOfBounds   (* an element of [argv] that is not one of its strings *)
| BadPointer.   (* a binder called on a variable it was not made for *)

(** [opt.parse(opt.value, str)] for [opt = options_[i]]. *)
Definition invoke (i : nat) (str : string) (p : CommandLineParser)
    (m : Memory) : option (bool * Memory) :=
  match options_ p !! i with
  | None => None
  | Some opt =>
      match m !! Option.value opt with
      | None => None
      | Some x =>
          match call (Option.parse opt) x str with
          | None => None
          | Some r => Some (r.1, <[Option.value opt := r.2]> m)
          end
      end
  end.

Definition parseOption (i : nat) (value : string) (p : CommandLineParser)
    (m : Memory) : option (bool * CommandLineParser * Memory) :=
  match invoke i value p m with
  | None => None
  | Some (true, m) => Some (true, p, m)
  | Some (false, m) =>
      Some (false, formatArgError "invalid option value" value p, m)
  end.

(** The locals of [parse] that change from one argument to the next. *)
Record Locals := {
  position : Z;
  lastOption : option nat;
  lastOptionUnknown : bool
}.

(** What one pass through the body of the [while] loop ends in: the next
    iteration, a [return], or undefined behaviour. *)
Inductive Flow :=
| Continue (p : CommandLineParser) (m : Memory) (l : Locals)
| Return (b : bool) (p : CommandLineParser) (m : Memory)
| Undefined (f : Fault).

(** The [for] loop over the characters of a bundle such as [-xyz]. *)
Fixpoint parse_bundle (name : string) (p : CommandLineParser) (m : Memory)
    (l : Locals) : Flow :=
  match name with
  | EmptyString => Continue p m l
  | String optChar name =>
      let '(option, p) := findOption_optChar optChar p in
      match option with
      | None =>
          if skipUnknown_ p then parse_bundle name p m l
          else Return false p m
      | Some i =>
          match options_ p !! i with
          | None => Undefined BadPointer
          | Some opt =>
              if decide (Option.type opt ≠ flag) then
                Return false
                  (with_error ("option requires value: " +:+ String optChar "") p)
                  m
              else
                let p := mark_parsed i p in
                match invoke i "" p m with
                | None => Undefined BadPointer
                | Some r => parse_bundle name p r.2 l
                end
          end
      end
  end.

(** Bare arguments clear [lastOptionUnknown] or [lastOption]; arguments
    with a dash clear both. *)
Definition with_lastOption (o : option nat) (l : Locals) : Locals :=
  {| position := position l; lastOption := o;
     lastOptionUnknown := lastOptionUnknown l |}.
Definition with_lastOptionUnknown (b : bool) (l : Locals) : Locals :=
  {| position := position l; lastOption := lastOption l;
     lastOptionUnknown := b |}.
Definition with_position (n : Z) (l : Locals) : Locals :=
  {| position := n; lastOption := lastOption l;
     lastOptionUnknown := lastOptionUnknown l |}.

(** The end of the loop body, from [if(!option)] on: [r] is what
    [findOption] returned and the parser it left, [hasValue] and [value]
    the inline value of the argument. *)
Definition parse_resolved (hasPosArg : bool) (argValue : string)
    (hasValue : bool) (value : string) (m : Memory) (l : Locals)
    (r : option nat * CommandLineParser) : Flow :=
  let '(option, p) := r in
  match option with
  | None =>
      if skipUnknown_ p then Continue p m (with_lastOptionUnknown true l)
      else Return false p m
  | Some i =>
      match options_ p !! i with
      | None => Undefined BadPointer
      | Some opt =>
          if decide (Option.type opt = flag) then
            if hasValue then
              Return false
                (formatArgError "option value unexpected" argValue p) m
            else
              let p := mark_parsed i p in
              match invoke i "" p m with
              | None => Undefined BadPointer
              | Some r => Continue p r.2 l
              end
          else if negb hasValue then Continue p m (with_lastOption (Some i) l)
          else
            let p := mark_parsed i p in
            match parseOption i value p m with
            | None => Undefined BadPointer
            | Some (false, p, m) => Return false p m
            | Some (true, p, m) =>
                if bool_decide (Option.type opt = list_) && negb hasPosArg
                then Continue p m (with_lastOption (Some i) l)
                else Continue p m l
            end
      end
  end.

(** The body of the [while] loop for the argument [argValue]. *)
Definition parse_arg (hasPosArg : bool) (argValue : string)
    (p : CommandLineParser) (m : Memory) (l : Locals) : Flow :=
  let arg := argValue in
  if sv.empty arg then Continue p m l
  else if negb (sv.starts_with "-" arg) then
    if lastOptionUnknown l then Continue p m (with_lastOptionUnknown false l)
    else
      match lastOption l with
      | Some i =>
          let p := mark_parsed i p in
          match parseOption i arg p m with
          | None => Undefined BadPointer
          | Some (false, p, m) => Return false p m
          | Some (true, p, m) =>
              match options_ p !! i with
              | None => Undefined BadPointer
              | Some opt =>
                  if bool_decide (Option.type opt ≠ list_) || hasPosArg then
                    Continue p m (with_lastOption None l)
                  else Continue p m l
              end
          end
      | None =>
          let position := (position l + 1)%Z in
          match findOption_position position p with
          | None =>
              Return false
                (formatArgError "positional arg not allowed" argValue p) m
          | Some i =>
              let p := mark_parsed i p in
              match parseOption i arg p m with
              | None => Undefined BadPointer
              | Some (false, p, m) => Return false p m
              | Some (true, p, m) => Continue p m (with_position position l)
              end
          end
      end
  else
    let l := with_lastOptionUnknown false (with_lastOption None l) in
    let arg := sv.drop 1 arg in
    let isName := negb (sv.empty arg) && sv.starts_with "-" arg in
    let arg := if isName then sv.drop 1 arg else arg in
    if sv.empty arg then Continue p m l
    else
      let eqPos := sv.find "=" arg in
      if bool_decide (eqPos = Some O) then
        Return false (formatArgError "missing option name" argValue p) m
      else
        let hasValue := bool_decide (is_Some eqPos) in
        let name := match eqPos with Some k => sv.take k arg | None => arg end in
        let value :=
          match eqPos with Some k => sv.drop (k + 1) arg | None => "" end in
        if isName then
          parse_resolved hasPosArg argValue hasValue value m l
            (findOption_name name p)
        else
          match name with
          | String c EmptyString =>
              parse_resolved hasPosArg argValue hasValue value m l
                (findOption_optChar c p)
          | _ =>
              if hasValue then
                Return false
                  (formatArgError "flag/argument mix disallowed" argValue p) m
              else parse_bundle name p m l
          end.

(** [argv[k]] for an [int] index. *)
Definition argv_at (argv : list string) (k : Z) : option string :=
  if (k <? 0)%Z then None else argv !! Z.to_nat k.

(** The [while] loop.  [argNum] changes only in [argv[argNum++]], at the
    head of the body, so the loop visits the indices [argNum .. argc - 1]
    in turn. *)
Fixpoint parse_loop (hasPosArg : bool) (argv : list string)
    (argNums : list Z) (p : CommandLineParser) (m : Memory) (l : Locals)
  : Flow :=
  match argNums with
  | [] => Continue p m l
  | argNum :: argNums =>
      match argv_at argv argNum with
      | None => Undefined OutOfBounds
      | Some argValue =>
          match parse_arg hasPosArg argValue p m l with
          | Continue p m l => parse_loop hasPosArg argv argNums p m l
          | r => r
          end
      end
  end.

(** What a call of a member function ends in. *)
Inductive Outcome :=
| Returns (b : bool) (p : CommandLineParser) (m : Memory)
| Faults (f : Fault).

Definition has_positional (p : CommandLineParser) : bool :=
  existsb (λ opt, negb (Option.position opt =? 0)%Z) (options_ p).

(** The first statements of [parse]: [program_] becomes [argv[0]] without
    its directories. *)
Definition parse_program (argv0 : string) (p : CommandLineParser) :=
  let p := with_program argv0 p in
  match sv.find_last_of "/\" (program_ p) with
  | Some pathSepPos => with_program (sv.drop (pathSepPos + 1) (program_ p)) p
  | None => p
  end.

(** [position = 0], [lastOption = nullptr], [lastOptionUnknown = false]. *)
Definition locals0 : Locals :=
  {| position := 0; lastOption := None; lastOptionUnknown := false |}.

(** The statements of [parse] after the loop. *)
Definition parse_end (argc : Z) (argv : list string) (r : Flow) : Outcome :=
  match r with
  | Undefined f => Faults f
  | Return b p m => Returns b p m
  | Continue p m l =>
      match lastOption l with
      | None => Returns true p m
      | Some i =>
          match options_ p !! i with
          | None => Faults BadPointer
          | Some opt =>
              if Option.parsed opt then Returns true p m
              else
                match argv_at argv (argc - 1) with
                | None => Faults OutOfBounds
                | Some a =>
                    Returns false
                      (formatArgError "option requires value" a p) m
                end
          end
      end
  end.

Definition parse (argc : Z) (argv : list string) (p : CommandLineParser)
    (m : Memory) : Outcome :=
  match argv_at argv 0 with
  | None => Faults OutOfBounds
  | Some argv0 =>
      let p := parse_program argv0 p in
      let hasPosArg := has_positional p in
      parse_end argc argv
        (parse_loop hasPosArg argv (seqZ 1 (argc - 1)) p m locals0)
  end.

Definition formatOptName (opt : Option.t) (result : string) : nat * string :=
  let sz := sv.size result in
  if sv.empty (Option.name opt) && sv.empty (Option.flags opt) then
    let result :=
      if negb (sv.empty (Option.hint opt)) then result +:+ Option.hint opt
      else result +:+ "arg"
             +:+ NilZero.string_of_int (Z.to_int (Option.position opt)) in
    ((sv.size result - sz)%nat, result)
  else
    let result :=
      if negb (sv.empty (Option.flags opt)) then
        result +:+ "-" +:+ Option.flags opt
      else result in
    let result :=
      if negb (sv.empty (Option.name opt)) then
        let result :=
          if negb (sv.empty (Option.flags opt)) then result +:+ " [ "
          else result in
        let result := result +:+ "--" +:+ Option.name opt in
        if negb (sv.empty (Option.flags opt)) then result +:+ " ]" else result
      else result in
    let result :=
      if decide (Option.type opt ≠ flag) then
        result +:+ " " +:+
          (if sv.empty (Option.hint opt) then "arg" else Option.hint opt)
      else result in
    ((sv.size result - sz)%nat, result).

Definition checkRequired (p : CommandLineParser) : bool * CommandLineParser :=
  match list_find (λ opt, Option.required opt = true ∧ Option.parsed opt = false)
          (options_ p) with
  | None => (true, p)
  | Some (_, opt) =>
      (false, with_error (formatOptName opt "required option missing: ").2 p)
  end.

(** *** The help text *)

Definition nl : string := String "010"%char "".

Definition is_named (opt : Option.t) : bool :=
  negb (sv.empty (Option.name opt)) || negb (sv.empty (Option.flags opt)).

(** The locals of [getHelp] that its first loop updates. *)
Record HelpLocals := {
  result : string;
  hasOptions : bool;
  hasPositionalArgs : bool;
  maxNameLen : nat;
  maxArgLen : nat
}.

Definition help_usage_step (h : HelpLocals) (opt : Option.t) : HelpLocals :=
  let '(nameLen, namebuf) := formatOptName opt "" in
  if is_named opt then
    {| result := result h; hasOptions := true;
       hasPositionalArgs := hasPositionalArgs h;
       maxNameLen :=
         if (maxNameLen h <? sv.size namebuf)%nat then sv.size namebuf
         else maxNameLen h;
       maxArgLen := maxArgLen h |}
  else
    let r := result h +:+ " " in
    let r := if negb (Option.required opt) then r +:+ "[" else r in
    let r := r +:+ namebuf in
    let r := if decide (Option.type opt = list_) then r +:+ "..." else r in
    let r := if negb (Option.required opt) then r +:+ "]" else r in
    {| result := r; hasOptions := hasOptions h; hasPositionalArgs := true;
       maxNameLen := maxNameLen h;
       maxArgLen :=
         if (maxArgLen h <? nameLen)%nat then nameLen else maxArgLen h |}.

(** One line of the "allowed options" or "positional arguments" block. *)
Definition help_line (width : nat) (result : string) (opt : Option.t)
  : string :=
  let result := result +:+ "  " in
  let '(nameLen, result) := formatOptName opt result in
  let result :=
    if (nameLen <? width)%nat then result +:+ sv.fill (width - nameLen) " "
    else result in
  let result :=
    if negb (sv.empty (Option.help opt)) then
      result +:+ " : " +:+ Option.help opt
    else result in
  result +:+ nl.

Definition getHelp (p : CommandLineParser) : string :=
  let h :=
    foldl help_usage_step
      {| result := "usage: " +:+ program_ p +:+ " [options]";
         hasOptions := false; hasPositionalArgs := false;
         maxNameLen := 0; maxArgLen := 0 |}
      (options_ p) in
  let result := result h +:+ nl in
  let maxNameLen := if (30 <? maxNameLen h)%nat then 30%nat else maxNameLen h in
  let maxArgLen := if (30 <? maxArgLen h)%nat then 30%nat else maxArgLen h in
  let result :=
    if hasOptions h then
      foldl (λ result opt,
               if is_named opt then help_line maxNameLen result opt
               else result)
        (result +:+ "allowed options:" +:+ nl) (options_ p)
    else result in
  if hasPositionalArgs h then
    foldl (λ result opt,
             if is_named opt then result
             else help_line maxArgLen result opt)
      (result +:+ "positional arguments:" +:+ nl) (options_ p)
  else result.

(** ** The demo program of [command_line_test.cpp]

    [printHelp], [compression] and [files] are the variables at the
    addresses 0, 1 and 2. *)

Definition test_memory : Memory :=
  <[0%nat := VBool false]>
    (<[1%nat := VScalar (TOptional (TIntegral int_)) None]>
       (<[2%nat := VVector TText []]> ∅)).

Definition test_parser : CommandLineParser :=
  add_vector TText 2 "+,,path" "file path(s)" (-1)
    (add (TOptional (TIntegral int_)) 1 "+compression,c,level" "compression level" 0
       (addFlag 0 "help,h" "print help" CommandLineParser_new)).

(** * Specification vocabulary *)

(** ** Positional lookup *)

(** Entry [j] of [opts] claims the slot itself. *)
Definition exact_at (slot : Z) (opts : list Option.t) (j : nat) : Prop :=
  ∃ opt, opts !! j = Some opt ∧ Option.position opt = slot.

(** Entry [j] of [opts] is a catch-all positional. *)
Definition catch_all_at (opts : list Option.t) (j : nat) : Prop :=
  ∃ opt, opts !! j = Some opt ∧ Option.position opt = (-1)%Z.

(** Two catch-all lists, registered one after the other. *)
Definition two_catch_alls : CommandLineParser :=
  add_vector TText 1 ",,more" "" (-1)
    (add_vector TText 0 ",,files" "" (-1) CommandLineParser_new).

(** ** The value binder on failure *)

(** What [std::from_chars] reports on the token [str] for a numeric
    type; the other types have no numeric conversion. *)
Definition conversion (t : ScalarType) (str : string)
  : option from_chars_result :=
  match t with
  | TIntegral k => Some (from_chars k str 0%Z).1
  | TFloating f => Some (from_chars_floating f str (S754_zero false)).1
  | TText | TOptional _ => None
  end.

(** What a failed [parse(str, value)] leaves in a [value] of type [t]:
    its content before and after the call. *)
Inductive left_in (str : string) : ∀ t : ScalarType, scalar t → scalar t → Prop :=
| left_as_it_was t v r :
    (* no number at the front of [str], or one that is out of range *)
    conversion t str = Some r →
    ec r ≠ errc_none →
    left_in str t v v
| left_number t v v' r :
    (* the conversion stopped at [ptr r], before the end of [str]: the
       number read is the text in front of [ptr r], converted in full *)
    conversion t str = Some r →
    ec r = errc_none →
    ptr r < sv.size str →
    parse_scalar t (sv.take (ptr r) str) v = (true, v') →
    left_in str t v v'
| left_engaged t (o : option (scalar t)) v' :
    (* the optional is engaged, holding what the parse left in a [T()] *)
    left_in str t (value_init t) v' →
    left_in str (TOptional t) o (Some v').

(** The same for the variable that a binder is called on. *)
Inductive left_by_failure (str : string) : Var → Var → Prop :=
| failure_scalar t v v' :
    left_in str t v v' →
    left_by_failure str (VScalar t v) (VScalar t v')
| failure_vector t l v' :
    (* the list has grown by what the parse left in a [T()] *)
    left_in str t (value_init t) v' →
    left_by_failure str (VVector t l) (VVector t (l ++ [v'])).

(** A failure of the binder [fn] on the token [str] leaves the variable
    as it was, whatever it held. *)
Definition leaves_unmutated (fn : ParseFn) (str : string) : Prop :=
  ∀ x x', call fn x str = Some (false, x') → x' = x.

(** The binder [fn] is that of a numeric scalar, and the conversion of
    [str] to its type reports an error. *)
Definition conversion_error (fn : ParseFn) (str : string) : Prop :=
  ∃ t r, fn = parseValue t ∧ conversion t str = Some r ∧ ec r ≠ errc_none.

(** The number in a numeric variable. *)
Definition number_in (x : Var) : option Z :=
  match x with
  | VScalar (TIntegral _) v => Some v
  | _ => None
  end.

(** The length of a list variable. *)
Definition length_in (x : Var) : option nat :=
  match x with
  | VVector _ l => Some (length l)
  | _ => None
  end.

(** ** The state of the loop *)

(** [parse(argc, argv)] on the parser [p] and the memory [m] arrives at
    the head of the loop with [argNum = k], and the parser, the memory
    and the locals are then [p'], [m'] and [l']. *)
Definition reaches (argv : list string) (p : CommandLineParser) (m : Memory)
    (k : Z) (p' : CommandLineParser) (m' : Memory) (l' : Locals) : Prop :=
  ∃ argv0,
    argv_at argv 0 = Some argv0
    ∧ (1 ≤ k)%Z
    ∧ parse_loop (has_positional p) argv (seqZ 1 (k - 1))
        (parse_program argv0 p) m locals0 = Continue p' m' l'.

(** No option and no skipped unknown option is waiting for a value. *)
Definition scanning (l : Locals) : Locals :=
  with_lastOptionUnknown false (with_lastOption None l).

(** A bare argument: not empty and without a leading dash. *)
Definition bare (tok : string) : Prop :=
  sv.empty tok = false ∧ sv.starts_with "-" tok = false.

(** The argument [tok] names option [i] of [p], as [--name] or as [-c],
    and carries no inline value. *)
Inductive names (p : CommandLineParser) : string → nat → Prop :=
| names_long name i :
    name ≠ "" →
    sv.find "=" name = None →
    (findOption_name name p).1 = Some i →
    names p ("--" +:+ name) i
| names_short c i :
    c ≠ "-"%char →
    c ≠ "="%char →
    (findOption_optChar c p).1 = Some i →
    names p (String "-" (String c "")) i.

(** With the locals [l], the argument [tok] hands the text [v] to option
    [i] as its value: to the pending option, to a positional option, or
    inline to the value option it names. *)
Inductive hands_over (p : CommandLineParser) (l : Locals)
  : string → nat → string → Prop :=
| to_pending tok i :
    bare tok →
    lastOptionUnknown l = false →
    lastOption l = Some i →
    hands_over p l tok i tok
| to_positional tok i :
    bare tok →
    lastOptionUnknown l = false →
    lastOption l = None →
    findOption_position (position l + 1) p = Some i →
    hands_over p l tok i tok
| to_named tok i opt v :
    names p tok i →
    options_ p !! i = Some opt →
    Option.type opt ≠ flag →
    hands_over p l (tok +:+ "=" +:+ v) i v.

(** A single [int] option, [--level] or [-l], bound to the variable at
    address 0. *)
Definition level_parser : CommandLineParser :=
  add (TIntegral int_) 0 "level,l" "" 0 CommandLineParser_new.

Definition level_memory : Memory := <[0 := VScalar (TIntegral int_) 0%Z]> ∅.

(** What a test looks at after [parse]: the result, the error text, the
    [parsed] flags and the memory. *)
Definition observe (o : Outcome)
  : option (bool * string * list bool * Memory) :=
  match o with
  | Returns b p m => Some (b, error p, Option.parsed <$> options_ p, m)
  | Faults _ => None
  end.

(** The text [tok] converts to the element [v] of a list of [T]. *)
Definition converts (T : ScalarType) (tok : string) (v : scalar T) : Prop :=
  parse_scalar T tok (value_init T) = (true, v).

(** A catch-all text list and nothing else; the list is at address 0. *)
Definition files_parser : CommandLineParser :=
  add_vector TText 0 ",,path" "" (-1) CommandLineParser_new.

(** A named text list and nothing else; the list is at address 0. *)
Definition names_parser : CommandLineParser :=
  add_vector TText 0 "name,n" "" 0 CommandLineParser_new.

(** A named text list and a catch-all text list, at addresses 0 and 1. *)
Definition names_files_parser : CommandLineParser :=
  add_vector TText 1 ",,path" "" (-1) names_parser.

Definition two_lists : Memory :=
  <[0 := VVector TText []]> (<[1 := VVector TText []]> ∅).

(** An option waits for its value only while no unknown option does. *)
Definition pending_known (l : Locals) : Prop :=
  is_Some (lastOption l) → lastOptionUnknown l = false.

(** ** The program name *)

(** The characters that end a directory in a path. *)
Definition is_separator (c : ascii) : Prop :=
  c = "/"%char ∨ c = "\"%char.

Fixpoint separator_free (s : string) : Prop :=
  match s with
  | EmptyString => True
  | String c s => ¬ is_separator c ∧ separator_free s
  end.

(** [basename_of path base]: [base] is the part of [path] after its
    last separator, or all of [path] if it has none. *)
Inductive basename_of : string → string → Prop :=
| basename_whole path :
    separator_free path → basename_of path path
| basename_after dir c base :
    is_separator c →
    separator_free base →
    basename_of (dir +:+ String c base) base.

(** The help text printed after a call of [parse] that returned. *)
Definition help_after (o : Outcome) : option string :=
  match o with
  | Returns _ p _ => Some (getHelp p)
  | Faults _ => None
  end.

(** ** Bindings made through the public interface *)

(** The binder [fn] was instantiated for the type of the variable [x]. *)
Definition binds (fn : ParseFn) (x : Var) : Prop :=
  match fn, x with
  | parseFlag, VBool _ => True
  | parseValue T, VScalar t _ => T = t
  | parseList T, VVector t _ => T = t
  | _, _ => False
  end.

(** The variables [x] and [x'] have the same type. *)
Definition same_type (x x' : Var) : Prop :=
  match x, x' with
  | VBool _, VBool _ => True
  | VScalar t _, VScalar t' _ => t = t'
  | VVector t _, VVector t' _ => t = t'
  | _, _ => False
  end.

(** Every option points to a live variable of the type its binder was
    made for, which is what [addFlag] and [add] set up. *)
Definition well_bound (p : CommandLineParser) (m : Memory) : Prop :=
  ∀ i opt,
    options_ p !! i = Some opt →
    ∃ x, m !! Option.value opt = Some x ∧ binds (Option.parse opt) x.

(** [lastOption] is null or points into [options_]. *)
Definition valid_locals (p : CommandLineParser) (l : Locals) : Prop :=
  ∀ i, lastOption l = Some i → i < length (options_ p).

(** What the loop keeps true from one argument to the next. *)
Definition loop_invariant (n : nat) (r : Flow) : Prop :=
  match r with
  | Continue p m l =>
      well_bound p m ∧ valid_locals p l ∧ length (options_ p) = n
  | Return _ _ _ => True
  | Undefined _ => False
  end.

(** [checkRequired] after a call of [parse] that returned: its result
    and the error text. *)
Definition checkRequired_after (o : Outcome) : option (bool * string) :=
  match o with
  | Returns _ p _ => Some ((checkRequired p).1, error (checkRequired p).2)
  | Faults _ => None
  end.

(** ** What a call of [parse] may change *)

(** The option [o'] is the option [o], or [o] with [parsed] set. *)
Definition still (o o' : Option.t) : Prop :=
  o' = o ∨ o' = Option.set_parsed o.

(** The parser [p'] is [p] up to [parsed] fields that were set and up
    to the error text. *)
Definition same_table (p p' : CommandLineParser) : Prop :=
  program_ p' = program_ p
  ∧ skipUnknown_ p' = skipUnknown_ p
  ∧ Forall2 still (options_ p) (options_ p').

(** Some option of [p] is bound to the variable at address [a]. *)
Definition bound_at (p : CommandLineParser) (a : nat) : Prop :=
  ∃ opt, opt ∈ options_ p ∧ Option.value opt = a.

(** The memory [m'] is [m] except for variables that options of [p] are
    bound to, and those have kept their type. *)
Definition writes_bound (p : CommandLineParser) (m m' : Memory) : Prop :=
  ∀ a,
    m' !! a = m !! a
    ∨ (bound_at p a
       ∧ ∃ x x', m !! a = Some x ∧ m' !! a = Some x' ∧ same_type x x').

(** What the loop body may do to the parser and the memory, and what it
    does to the error text: untouched when the loop goes on, not empty
    when [parse] returns, which it then does with [false]. *)
Definition step_effect (p : CommandLineParser) (m : Memory) (r : Flow)
  : Prop :=
  match r with
  | Continue p' m' _ =>
      same_table p p' ∧ writes_bound p m m' ∧ error_ p' = error_ p
  | Return b p' m' =>
      same_table p p' ∧ writes_bound p m m' ∧ b = false ∧ error_ p' ≠ ""
  | Undefined _ => True
  end.

(** ** Vocabulary for the binders and the registration *)

(** A text made of decimal digits only. *)
Fixpoint decimal (ds : string) : Prop :=
  match ds with
  | EmptyString => True
  | String c ds => is_Some (digit c) ∧ decimal ds
  end.

(** The number a text of digits stands for. *)
Definition decimal_value (ds : string) : Z := (digits ds 0).1.

(** The specification text [[+]name], [[+]name,flags] or
    [[+]name,flags,hint]; the fields that are [None] are left out
    together with their commas. *)
Definition spec_text (required : bool) (name : string)
    (flags_hint : option (string * option string)) : string :=
  (if required then "+" else "") +:+ name +:+
  match flags_hint with
  | None => ""
  | Some (flags, None) => "," +:+ flags
  | Some (flags, Some hint) => "," +:+ flags +:+ "," +:+ hint
  end.

(** ** Optional variables *)

(** A variable that is not an optional, or an optional that holds a
    value. *)
Definition engaged (x : Var) : Prop :=
  match x with
  | VScalar (TOptional _) None => False
  | _ => True
  end.

(** Every option that is marked parsed and is bound to an optional has
    that optional engaged. *)
Definition parsed_engaged (p : CommandLineParser) (m : Memory) : Prop :=
  ∀ opt x,
    opt ∈ options_ p →
    Option.parsed opt = true →
    m !! Option.value opt = Some x →
    engaged x.

(** The property [I] of parser and memory holds where the loop body has
    left them. *)
Definition kept (I : CommandLineParser → Memory → Prop) (r : Flow) : Prop :=
  match r with
  | Continue p m _ | Return _ p m => I p m
  | Undefined _ => True
  end.

(** ** Bundles *)

(** The character [c] is the short form of option [i] of [p], a flag
    bound to a [bool] in [m]. *)
Definition flag_char (p : CommandLineParser) (m : Memory) (c : ascii)
    (i : nat) (opt : Option.t) : Prop :=
  (findOption_optChar c p).1 = Some i
  ∧ options_ p !! i = Some opt
  ∧ Option.type opt = flag
  ∧ Option.parse opt = parseFlag
  ∧ ∃ b, m !! Option.value opt = Some (VBool b).

(** Two flags, [--help]/[-h] and [--verbose]/[-x], bound to the [bool]s
    at the addresses 0 and 1. *)
Definition two_flags_parser : CommandLineParser :=
  addFlag 1 "verbose,x" "" (addFlag 0 "help,h" "" CommandLineParser_new).

Definition two_bools : Memory :=
  <[0 := VBool false]> (<[1 := VBool false]> ∅).

(** ** [main] of [command_line_test.cpp]

    What the process leaves behind: the value [main] returns and the
    texts written to [std::cout] and [std::cerr]. *)
Record Exit := { status : Z; cout : string; cerr : string }.

(** [std::cout << n] for an [int]. *)
Definition show_int (n : Z) : string := NilZero.string_of_int (Z.to_int n).

(** [std::cerr << poParser.error() << '\n' << poParser.getHelp() << '\n';
    return -1;] *)
Definition fail_with (poParser : CommandLineParser) : Exit :=
  {| status := -1; cout := "";
     cerr := error poParser +:+ nl +:+ getHelp poParser +:+ nl |}.

(** [main]; [None] is undefined behaviour.  The variables [printHelp],
    [compression] and [files] are those of [test_memory], and the parser
    is [test_parser]. *)
Definition main (argc : Z) (argv : list string) : option Exit :=
  match parse argc argv test_parser test_memory with
  | Faults _ => None
  | Returns ok poParser m =>
      if negb ok then Some (fail_with poParser)
      else
        match m !! 0 with
        | Some (VBool printHelp) =>
            if printHelp then
              Some {| status := 0; cout := getHelp poParser +:+ nl;
                      cerr := "" |}
            else
              let '(ok, poParser) := checkRequired poParser in
              if negb ok then Some (fail_with poParser)
              else
                match m !! 1 with
                | Some (VScalar (TOptional (TIntegral _)) compression) =>
                    Some {| status := 0;
                            cout :=
                              match compression with
                              | Some n =>
                                  "compression level is " +:+ show_int n
                                    +:+ nl
                              | None => ""
                              end;
                            cerr := "" |}
                | _ => None
                end
        | _ => None
        end
  end.

(** ** When [parsed] is set *)

(** The loop over a bundle passes the characters [pre]: each of them is
    the short form of a flag, or is unknown while unknown options are
    skipped. *)
Fixpoint bundle_passes (p : CommandLineParser) (pre : string) : Prop :=
  match pre with
  | EmptyString => True
  | String c pre =>
      match (findOption_optChar c p).1 with
      | Some i =>
          ∃ opt, options_ p !! i = Some opt ∧ Option.type opt = flag
      | None => skipUnknown_ p = true
      end
      ∧ bundle_passes p pre
  end.

(** The argument [tok] sets the flag that option [i] of [p] is: it
    names it, alone or as a character of a bundle that the loop over
    the bundle arrives at. *)
Inductive sets_flag (p : CommandLineParser) : string → nat → Prop :=
| flag_named tok i opt :
    names p tok i →
    options_ p !! i = Some opt →
    Option.type opt = flag →
    sets_flag p tok i
| flag_bundled name pre c post i opt :
    name = pre +:+ String c post →
    1 < sv.size name →
    sv.starts_with "-" name = false →
    sv.find "=" name = None →
    bundle_passes p pre →
    (findOption_optChar c p).1 = Some i →
    options_ p !! i = Some opt →
    Option.type opt = flag →
    sets_flag p (String "-" name) i.

(** The argument [tok], met with the locals [l], is applied to option
    [i]: it hands a value to it, or it sets it as a flag. *)
Definition applies_to (p : CommandLineParser) (l : Locals) (tok : string)
    (i : nat) : Prop :=
  (∃ v, hands_over p l tok i v) ∨ sets_flag p tok i.

(** Option [j] did not have [parsed] set in [p] and has it set in [p']. *)
Definition becomes_parsed (p p' : CommandLineParser) (j : nat) : Prop :=
  Option.parsed <$> options_ p !! j = Some false
  ∧ Option.parsed <$> options_ p' !! j = Some true.

(** The parser that a pass through the loop body leaves. *)
Definition flow_parser (r : Flow) : option CommandLineParser :=
  match r with
  | Continue p _ _ | Return _ p _ => Some p
  | Undefined _ => None
  end.

(** ** A catch-all list *)

(** Option [i] of [p] is a catch-all positional list of [T] bound to
    the variable at [a], and [p] has no other positional option. *)
Definition catch_all_list (p : CommandLineParser) (i : nat) (T : ScalarType)
    (a : nat) : Prop :=
  (∃ opt,
     options_ p !! i = Some opt
     ∧ Option.position opt = (-1)%Z
     ∧ Option.parse opt = parseList T
     ∧ Option.value opt = a)
  ∧ ∀ j opt, options_ p !! j = Some opt → j ≠ i → Option.position opt = 0%Z.

(** * Properties *)

(** ** Positional lookup *)

Section findOption_position.

Variable slot : Z.

Lemma exact_at_cons opt opts j :
  exact_at slot (opt :: opts) (S j) ↔ exact_at slot opts j.
Proof. reflexivity. Qed.

Lemma catch_all_at_cons opt opts j :
  catch_all_at (opt :: opts) (S j) ↔ catch_all_at opts j.
Proof. reflexivity. Qed.

(** The loop, started at entry [i] with [positionalOpt = acc]: the
    first exact entry, else the last catch-all entry, else [acc]. *)
Lemma findOption_position_loop_spec opts i acc :
  (∃ j, findOption_position_loop opts i slot acc = Some (i + j)
        ∧ exact_at slot opts j ∧ ∀ j', exact_at slot opts j' → j ≤ j')
  ∨ ((∀ j, ¬ exact_at slot opts j)
     ∧ ((∃ j, findOption_position_loop opts i slot acc = Some (i + j)
              ∧ catch_all_at opts j ∧ ∀ j', catch_all_at opts j' → j' ≤ j)
        ∨ (findOption_position_loop opts i slot acc = acc
           ∧ ∀ j, ¬ catch_all_at opts j))).
Proof.
  revert i acc. induction opts as [|opt opts IH]; intros i acc; simpl.
  - right. split; [intros j [? [[=] _]]|].
    right. split; [done | intros j [? [[=] _]]].
  - destruct (Z.eqb_spec (Option.position opt) slot) as [Hs|Hs].
    + left. exists 0. rewrite Nat.add_0_r. split; [done|].
      split; [by exists opt | lia].
    + destruct (IH (S i)
        (if (Option.position opt =? -1)%Z then Some i else acc))
        as [(j & -> & Hj & Hmin) | [Hno Hrest]].
      * left. exists (S j). split; [f_equal; lia|].
        split; [by apply exact_at_cons|].
        intros [|j'] Hj'.
        -- destruct Hj' as [? [[= <-] ?]]. done.
        -- apply exact_at_cons in Hj'. apply Hmin in Hj'. lia.
      * right. split.
        { intros [|j] Hj.
          - destruct Hj as [? [[= <-] ?]]. done.
          - apply exact_at_cons in Hj. by apply Hno in Hj. }
        destruct Hrest as [(j & -> & Hj & Hmax) | [-> Hnone]].
        -- left. exists (S j). split; [f_equal; lia|].
           split; [by apply catch_all_at_cons|].
           intros [|j'] Hj'; [lia|].
           apply catch_all_at_cons in Hj'. apply Hmax in Hj'. lia.
        -- destruct (Z.eqb_spec (Option.position opt) (-1)) as [Hc|Hc].
           ++ left. exists 0. rewrite Nat.add_0_r. split; [done|].
              split; [by exists opt|].
              intros [|j'] Hj'; [lia|].
              apply catch_all_at_cons in Hj'. by apply Hnone in Hj'.
           ++ right. split; [done|].
              intros [|j] Hj.
              ** destruct Hj as [? [[= <-] ?]]. done.
              ** apply catch_all_at_cons in Hj. by apply Hnone in Hj.
Qed.

End findOption_position.

(** C3 (as amended).  Positional lookup resolves to the option whose
    [position] equals the slot if one exists, and then to the
    first-registered such option; otherwise to a catch-all option
    (position -1) if one exists, and then to the last-registered
    catch-all; otherwise to none. *)
Theorem findOption_position_spec (p : CommandLineParser) (slot : Z) :
  match findOption_position slot p with
  | Some i =>
      (exact_at slot (options_ p) i
       ∧ ∀ j, exact_at slot (options_ p) j → i ≤ j)
      ∨ ((∀ j, ¬ exact_at slot (options_ p) j)
         ∧ catch_all_at (options_ p) i
         ∧ ∀ j, catch_all_at (options_ p) j → j ≤ i)
  | None =>
      ∀ j, ¬ exact_at slot (options_ p) j ∧ ¬ catch_all_at (options_ p) j
  end.
Proof.
  unfold findOption_position.
  destruct (findOption_position_loop_spec slot (options_ p) 0 None)
    as [(j & -> & Hj & Hmin) | [Hno [(j & -> & Hj & Hmax) | [-> Hnone]]]];
    simpl; auto.
Qed.

(** C3 (as stated) fails: both entries of [two_catch_alls] match slot 1
    in the same way, and the lookup answers with the one registered
    last, not first. *)
Lemma findOption_position_not_first_registered :
  ¬ (∀ (p : CommandLineParser) (slot : Z) (i j : nat) (oi oj : Option.t),
       findOption_position slot p = Some i →
       options_ p !! i = Some oi →
       options_ p !! j = Some oj →
       Option.position oj = Option.position oi →
       i ≤ j).
Proof.
  intros H.
  pose proof (H two_catch_alls 1%Z 1 0 _ _ eq_refl eq_refl eq_refl eq_refl).
  lia.
Qed.

(** ** Text and its prefixes *)

Lemma sv_size_take_le n s : n ≤ sv.size s → sv.size (sv.take n s) = n.
Proof.
  revert n. induction s as [|c s IH]; intros [|n]; simpl; try lia.
  intros H. rewrite IH; [done | unfold sv.size in *; lia].
Qed.

Lemma sv_size_drop n s : sv.size (sv.drop n s) = sv.size s - n.
Proof. revert n. induction s as [|c s IH]; intros [|n]; simpl; auto. Qed.

Lemma sv_drop_take k n s :
  sv.drop k (sv.take n s) = sv.take (n - k) (sv.drop k s).
Proof.
  revert k n. induction s as [|c s IH]; intros [|k] [|n]; simpl; try done.
  by destruct (n - k).
Qed.

Lemma sv_drop_drop j k s : sv.drop j (sv.drop k s) = sv.drop (k + j) s.
Proof.
  revert k. induction s as [|c s IH]; intros [|k]; simpl; try done.
  all: by destruct j.
Qed.

Lemma starts_with_take c n s :
  1 ≤ n → sv.starts_with c (sv.take n s) = sv.starts_with c s.
Proof. intros Hn. destruct n as [|n]; [lia|]. by destruct s. Qed.

Lemma starts_with_take_true c n s :
  sv.starts_with c (sv.take n s) = true → sv.starts_with c s = true.
Proof. destruct n as [|n], s as [|d s]; simpl; done. Qed.

Lemma starts_with_drop_lt c k s :
  sv.starts_with c (sv.drop k s) = true → k < sv.size s.
Proof.
  intros H. pose proof (sv_size_drop k s) as Hsz.
  destruct (sv.drop k s); [done|]. simpl in Hsz. lia.
Qed.

Lemma digits_length s acc : (digits s acc).2 ≤ sv.size s.
Proof.
  revert acc. induction s as [|c s IH]; intros acc; simpl; [done|].
  destruct (digit c) as [d|]; simpl; [|lia].
  specialize (IH (10 * acc + d)%Z). unfold sv.size in *. lia.
Qed.

(** The run of digits at the front of a text is that of every prefix
    that holds it. *)
Lemma digits_take n s acc :
  (digits s acc).2 ≤ n → digits (sv.take n s) acc = digits s acc.
Proof.
  revert n acc. induction s as [|c s IH]; intros n acc; simpl.
  - by destruct n.
  - destruct (digit c) as [d|] eqn:Hd; simpl.
    + intros Hn. destruct n as [|n]; [lia|]. simpl. rewrite Hd.
      by rewrite IH by lia.
    + intros _. destruct n as [|n]; simpl; [done|]. by rewrite Hd.
Qed.

(** ** [std::from_chars] on the text it has read *)

Lemma from_chars_prefix k s v r v' :
  from_chars k s v = (r, v') →
  ec r = errc_none →
  ptr r ≤ sv.size s
  ∧ from_chars k (sv.take (ptr r) s) v = (r, v').
Proof.
  intros Hfc Hec. unfold from_chars in Hfc.
  destruct (is_signed k && sv.starts_with "-" s) eqn:Hminus.
  - apply andb_prop in Hminus as [Hk Hs].
    destruct s as [|c s]; [done|]. simpl in Hs.
    apply Ascii.eqb_eq in Hs as ->. simpl sv.drop in Hfc.
    pose proof (digits_length s 0) as Hle.
    pose proof (digits_take (digits s 0).2 s 0 ltac:(done)) as Heq.
    destruct (digits s 0) as [z n] eqn:Hz; simpl in *.
    repeat case_bool_decide; injection Hfc as <- <-; try done; simpl.
    unfold from_chars. rewrite Hk; simpl. rewrite Heq; simpl.
    split; [unfold sv.size in *; lia|].
    by rewrite bool_decide_false, bool_decide_true by done.
  - pose proof (digits_length s 0) as Hle.
    pose proof (digits_take (digits s 0).2 s 0 ltac:(done)) as Heq.
    destruct (digits s 0) as [z n] eqn:Hz; simpl in *.
    repeat case_bool_decide; injection Hfc as <- <-; try done; simpl.
    unfold from_chars.
    assert (is_signed k && sv.starts_with "-" (sv.take n s) = false) as ->.
    { destruct n as [|n]; [done|]. by destruct s. }
    rewrite Heq; simpl. split; [done|].
    by rewrite bool_decide_false, bool_decide_true by done.
Qed.

(** What is reported does not depend on what the variable holds, nor
    does the number stored; on an error the variable is as it was. *)
Lemma from_chars_report k str v w :
  (from_chars k str v).1 = (from_chars k str w).1.
Proof.
  unfold from_chars. destruct (digits _ 0) as [z n]; simpl.
  by repeat case_bool_decide.
Qed.

Lemma from_chars_stored k str v w :
  ec (from_chars k str v).1 = errc_none →
  (from_chars k str v).2 = (from_chars k str w).2.
Proof.
  unfold from_chars. destruct (digits _ 0) as [z n]; simpl.
  by repeat case_bool_decide.
Qed.

Lemma from_chars_error k str v :
  ec (from_chars k str v).1 ≠ errc_none → (from_chars k str v).2 = v.
Proof. unfold from_chars. by repeat case_bool_decide. Qed.

(** *** The floating-point pattern *)

Lemma starts_with_word_take w n s :
  sv.size w ≤ n → starts_with_word w (sv.take n s) = starts_with_word w s.
Proof.
  revert n s. induction w as [|c w IH]; intros n s; simpl; [by destruct (sv.take n s), s|].
  intros Hn. destruct n as [|n]; [lia|]. destruct s as [|d s]; simpl; [done|].
  rewrite IH; [done | unfold sv.size in *; lia].
Qed.

Lemma starts_with_word_take_true w n s :
  starts_with_word w (sv.take n s) = true → starts_with_word w s = true.
Proof.
  revert n s. induction w as [|c w IH]; intros n s; simpl; [by destruct s|].
  destruct n as [|n], s as [|d s]; simpl; try done.
  intros [-> H]%andb_prop. by rewrite (IH _ _ H).
Qed.

Lemma starts_with_word_length w s :
  starts_with_word w s = true → sv.size w ≤ sv.size s.
Proof.
  revert s. induction w as [|c w IH]; intros s; simpl; [lia|].
  destruct s as [|d s]; [done|]. intros [_ H]%andb_prop.
  apply IH in H. simpl. unfold sv.size in *. lia.
Qed.

Lemma n_chars_take n s : n_chars (sv.take n s) = n `min` n_chars s.
Proof.
  revert n. induction s as [|c s IH]; intros [|n]; simpl; try done.
  destruct (n_char c); [|done]. by rewrite IH.
Qed.

Lemma n_chars_length s : n_chars s ≤ sv.size s.
Proof.
  induction s as [|c s IH]; simpl; [done|]. destruct (n_char c); simpl; lia.
Qed.

Section floating_pattern.

Local Arguments sv.drop : simpl never.
Local Arguments sv.take : simpl never.
Local Arguments digits : simpl never.

Lemma lex_exponent_length s : (lex_exponent s).2 ≤ sv.size s.
Proof.
  destruct s as [|c s]; simpl; [done|].
  destruct (Ascii.eqb (lower c) "e"); simpl; [|lia].
  destruct (sv.starts_with "-" s || sv.starts_with "+" s) eqn:Hsign.
  - pose proof (digits_length (sv.drop 1 s) 0) as Hd.
    rewrite sv_size_drop in Hd.
    case_bool_decide; simpl; [lia|].
    destruct s as [|d s]; [done|]. simpl in *. lia.
  - pose proof (digits_length s 0) as Hd.
    case_bool_decide; simpl; unfold sv.size in *; lia.
Qed.

Lemma lex_exponent_take n s :
  (lex_exponent s).2 ≤ n → lex_exponent (sv.take n s) = lex_exponent s.
Proof.
  destruct s as [|c s]; [by destruct n|].
  destruct n as [|n].
  { change (sv.take 0 (String c s)) with "". simpl.
    destruct (Ascii.eqb (lower c) "e"); simpl; [|done].
    case_bool_decide; simpl; [done|].
    destruct (_ || _); lia. }
  change (sv.take (S n) (String c s)) with (String c (sv.take n s)).
  simpl. destruct (Ascii.eqb (lower c) "e"); simpl; [|done].
  destruct n as [|n].
  { change (sv.take 0 s) with "". simpl.
    change (digits "" 0) with (0%Z, 0). simpl.
    case_bool_decide; simpl; [done|].
    destruct (_ || _); lia. }
  rewrite !starts_with_take by lia.
  destruct (sv.starts_with "-" s || sv.starts_with "+" s).
  - rewrite sv_drop_take. replace (S n - 1) with n by lia.
    case_bool_decide as Hd; simpl.
    + intros _. by rewrite digits_take, bool_decide_true by lia.
    + intros Hn. by rewrite digits_take, bool_decide_false by lia.
  - case_bool_decide as Hd; simpl.
    + intros _. by rewrite digits_take, bool_decide_true by lia.
    + intros Hn. by rewrite digits_take, bool_decide_false by lia.
Qed.

Lemma lex_decimal_length s lit k :
  lex_decimal s = Some (lit, k) → k ≤ sv.size s.
Proof.
  unfold lex_decimal.
  pose proof (digits_length s 0) as Hi.
  destruct (digits s 0) as [iv il]; simpl in *.
  destruct (sv.starts_with "." (sv.drop il s)) eqn:Hpoint.
  - apply starts_with_drop_lt in Hpoint.
    pose proof (digits_length (sv.drop (S il) s) iv) as Hf.
    rewrite sv_size_drop in Hf.
    destruct (digits (sv.drop (S il) s) iv) as [fv fl]; simpl in *.
    case_bool_decide; [done|]. intros [= _ <-].
    pose proof (lex_exponent_length (sv.drop (S (il + fl)) s)) as Hx.
    rewrite sv_size_drop in Hx. lia.
  - simpl. case_bool_decide; [done|]. intros [= _ <-].
    pose proof (lex_exponent_length (sv.drop il s)) as Hx.
    rewrite sv_size_drop in Hx. lia.
Qed.

Lemma lex_decimal_take n s lit k :
  lex_decimal s = Some (lit, k) →
  k ≤ n →
  lex_decimal (sv.take n s) = Some (lit, k).
Proof.
  unfold lex_decimal.
  destruct (digits s 0) as [iv il] eqn:Hi; simpl.
  destruct (sv.starts_with "." (sv.drop il s)) eqn:Hpoint.
  - destruct (digits (sv.drop (S il) s) iv) as [fv fl] eqn:Hf; simpl.
    case_bool_decide; [done|]. intros [= <- <-] Hn.
    rewrite digits_take by (rewrite Hi; simpl; lia). rewrite Hi; simpl.
    rewrite sv_drop_take, starts_with_take, Hpoint by lia.
    rewrite sv_drop_take, digits_take by (rewrite Hf; simpl; lia).
    rewrite Hf; simpl. rewrite bool_decide_false by done.
    rewrite sv_drop_take, lex_exponent_take by lia. done.
  - simpl. case_bool_decide; [done|]. intros [= <- <-] Hn.
    rewrite digits_take by (rewrite Hi; simpl; lia). rewrite Hi; simpl.
    rewrite sv_drop_take.
    destruct (sv.starts_with "." (sv.take (n - il) (sv.drop il s))) eqn:Hp.
    { apply starts_with_take_true in Hp. congruence. }
    simpl. rewrite bool_decide_false by done.
    by rewrite sv_drop_take, lex_exponent_take by lia.
Qed.

Lemma lex_decimal_take_None n s :
  lex_decimal s = None → lex_decimal (sv.take n s) = None.
Proof.
  unfold lex_decimal.
  destruct (digits s 0) as [iv il] eqn:Hi; simpl.
  destruct (sv.starts_with "." (sv.drop il s)) eqn:Hpoint.
  - destruct (digits (sv.drop (S il) s) iv) as [fv fl] eqn:Hf; simpl.
    case_bool_decide as Hz; [|done]. intros _.
    assert (il = 0 ∧ fl = 0) as [-> ->] by lia.
    rewrite digits_take by (rewrite Hi; simpl; lia). rewrite Hi; simpl.
    rewrite !sv_drop_take.
    rewrite (digits_take _ (sv.drop 1 s)) by (rewrite Hf; simpl; lia).
    rewrite Hf.
    by destruct (sv.starts_with "." (sv.take (n - 0) (sv.drop 0 s))).
  - simpl. case_bool_decide as Hz; [|done]. intros _.
    assert (il = 0) as -> by lia.
    rewrite digits_take by (rewrite Hi; simpl; lia). rewrite Hi; simpl.
    rewrite sv_drop_take.
    destruct (sv.starts_with "." (sv.take (n - 0) (sv.drop 0 s))) eqn:Hp.
    { apply starts_with_take_true in Hp. congruence. }
    done.
Qed.

Lemma lex_special_length s lit k :
  lex_special s = Some (lit, k) → k ≤ sv.size s.
Proof.
  unfold lex_special.
  destruct (starts_with_word "infinity" s) eqn:H1.
  { intros [= _ <-]. by apply starts_with_word_length in H1. }
  destruct (starts_with_word "inf" s) eqn:H2.
  { intros [= _ <-]. by apply starts_with_word_length in H2. }
  destruct (starts_with_word "nan" s) eqn:H3; [|done].
  apply starts_with_word_length in H3.
  destruct (sv.starts_with "(" (sv.drop 3 s)); [|by intros [= _ <-]].
  destruct (sv.starts_with ")" _) eqn:H4; [|by intros [= _ <-]].
  intros [= _ <-]. apply starts_with_drop_lt in H4. lia.
Qed.

Lemma lex_special_take n s lit k :
  lex_special s = Some (lit, k) →
  k ≤ n →
  lex_special (sv.take n s) = Some (lit, k).
Proof.
  unfold lex_special.
  destruct (starts_with_word "infinity" s) eqn:H1.
  { intros [= <- <-] Hn. by rewrite starts_with_word_take, H1. }
  destruct (starts_with_word "infinity" (sv.take n s)) eqn:H1'.
  { apply starts_with_word_take_true in H1'. congruence. }
  destruct (starts_with_word "inf" s) eqn:H2.
  { intros [= <- <-] Hn. by rewrite starts_with_word_take, H2. }
  destruct (starts_with_word "inf" (sv.take n s)) eqn:H2'.
  { apply starts_with_word_take_true in H2'. congruence. }
  destruct (starts_with_word "nan" s) eqn:H3; [|done].
  intros Hs Hn.
  assert (3 ≤ n) as Hn3.
  { revert Hs. destruct (sv.starts_with "(" _); [|intros [= _ <-]; lia].
    destruct (sv.starts_with ")" _); intros [= _ <-]; lia. }
  rewrite starts_with_word_take, H3 by done.
  rewrite !sv_drop_take, n_chars_take.
  destruct (sv.starts_with "(" (sv.take (n - 3) (sv.drop 3 s))) eqn:H4'.
  - rewrite (starts_with_take_true _ _ _ H4') in Hs.
    destruct (sv.starts_with ")" (sv.drop (4 + n_chars (sv.drop 4 s)) s))
      eqn:H5.
    + injection Hs as <- <-.
      replace ((n - 4) `min` n_chars (sv.drop 4 s))
        with (n_chars (sv.drop 4 s)) by lia.
      by rewrite starts_with_take, H5 by lia.
    + injection Hs as <- <-.
      destruct (sv.starts_with ")" (sv.take _ _)) eqn:H5'; [|done].
      apply starts_with_take_true in H5' as H6.
      destruct (decide (n - 4 ≤ n_chars (sv.drop 4 s))) as [Hle|Hgt].
      * replace ((n - 4) `min` n_chars (sv.drop 4 s)) with (n - 4) in H5'
          by lia.
        destruct (n - (4 + (n - 4))) eqn:Hz; [|lia].
        by destruct (sv.drop _ s).
      * replace ((n - 4) `min` n_chars (sv.drop 4 s))
          with (n_chars (sv.drop 4 s)) in H6 by lia.
        congruence.
  - destruct (sv.starts_with "(" (sv.drop 3 s)) eqn:H4; [|done].
    destruct (sv.starts_with ")" (sv.drop _ s)) eqn:H5; [|done].
    injection Hs as <- <-.
    rewrite starts_with_take in H4' by lia. congruence.
Qed.

Lemma from_chars_floating_prefix f s v r v' :
  from_chars_floating f s v = (r, v') →
  ec r = errc_none →
  ptr r ≤ sv.size s
  ∧ from_chars_floating f (sv.take (ptr r) s) v = (r, v').
Proof.
  unfold from_chars_floating.
  set (minus := sv.starts_with "-" s).
  set (body := if minus then sv.drop 1 s else s).
  assert (∀ lit k,
            match lex_decimal body with
            | Some r => Some r
            | None => lex_special body
            end = Some (lit, k) →
            k ≤ sv.size body
            ∧ ∀ n, k ≤ n →
                match lex_decimal (sv.take n body) with
                | Some r => Some r
                | None => lex_special (sv.take n body)
                end = Some (lit, k)) as Hlex.
  { intros lit k. destruct (lex_decimal body) as [[lit' k']|] eqn:Hd.
    - intros [= -> ->]. split; [by eapply lex_decimal_length|].
      intros n Hn. by rewrite (lex_decimal_take _ _ _ _ Hd Hn).
    - intros Hs. split; [by eapply lex_special_length|].
      intros n Hn. rewrite lex_decimal_take_None by done.
      by apply lex_special_take. }
  destruct (match lex_decimal body with
            | Some r => Some r
            | None => lex_special body
            end) as [[lit k]|] eqn:Hr; [|by intros [= <- <-]].
  destruct (Hlex lit k eq_refl) as [Hk Htake]. clear Hlex.
  assert (sv.size body = if minus then sv.size s - 1 else sv.size s) as Hbody.
  { unfold body. destruct minus; [apply sv_size_drop | done]. }
  assert (minus = true → 1 ≤ sv.size s) as Hs1.
  { unfold minus. destruct s; [done | simpl; lia]. }
  set (stop := if minus then S k else k).
  assert (stop ≤ sv.size s) as Hstop.
  { unfold stop. destruct minus; [specialize (Hs1 eq_refl)|]; lia. }
  assert (sv.starts_with "-" (sv.take stop s) = minus) as Hminus.
  { unfold stop, minus. destruct (sv.starts_with "-" s) eqn:Hm.
    - by rewrite starts_with_take by lia.
    - destruct (sv.starts_with "-" (sv.take k s)) eqn:Hm'; [|done].
      apply starts_with_take_true in Hm'. congruence. }
  assert ((if minus then sv.drop 1 (sv.take stop s) else sv.take stop s)
          = sv.take k body) as Hbody'.
  { unfold stop, body. destruct minus; [|done].
    rewrite sv_drop_take. by replace (S k - 1) with k by lia. }
  intros Hfc Hec.
  assert (ptr r = stop) as Hptr.
  { revert Hfc Hec. destruct lit as [| |mz ez].
    - by intros [= <- <-].
    - by intros [= <- <-].
    - destruct (mz =? 0)%Z; [by intros [= <- <-]|].
      destruct (round_decimal f minus mz ez); intros [= <- <-]; done. }
  rewrite Hptr. split; [done|].
  rewrite Hminus, Hbody', (Htake k) by done. exact Hfc.
Qed.

Lemma from_chars_floating_report f str v w :
  (from_chars_floating f str v).1 = (from_chars_floating f str w).1.
Proof.
  unfold from_chars_floating.
  destruct (match lex_decimal _ with Some r => Some r | None => _ end)
    as [[[| |mz ez] k]|]; try done.
  destruct (mz =? 0)%Z; [done|]. by destruct (round_decimal _ _ _ _).
Qed.

Lemma from_chars_floating_stored f str v w :
  ec (from_chars_floating f str v).1 = errc_none →
  (from_chars_floating f str v).2 = (from_chars_floating f str w).2.
Proof.
  unfold from_chars_floating.
  destruct (match lex_decimal _ with Some r => Some r | None => _ end)
    as [[[| |mz ez] k]|]; try done.
  destruct (mz =? 0)%Z; [done|]. by destruct (round_decimal _ _ _ _).
Qed.

Lemma from_chars_floating_error f str v :
  ec (from_chars_floating f str v).1 ≠ errc_none →
  (from_chars_floating f str v).2 = v.
Proof.
  unfold from_chars_floating.
  destruct (match lex_decimal _ with Some r => Some r | None => _ end)
    as [[[| |mz ez] k]|]; try done.
  destruct (mz =? 0)%Z; [done|]. by destruct (round_decimal _ _ _ _).
Qed.

End floating_pattern.

(** ** The value binder on failure *)

Lemma consumed_true str r :
  consumed str r = true ↔ ec r = errc_none ∧ ptr r = sv.size str.
Proof.
  unfold consumed. destruct (ec r); [|by split; [|intros []]..].
  rewrite Nat.eqb_eq. by split; [|intros []].
Qed.

Lemma consumed_false str r :
  ptr r ≤ sv.size str →
  consumed str r = false →
  ec r ≠ errc_none ∨ (ec r = errc_none ∧ ptr r < sv.size str).
Proof.
  unfold consumed. intros Hle. destruct (ec r); [|by left..].
  intros Hne%Nat.eqb_neq. right. split; [done | lia].
Qed.

(** What is reported for a numeric type does not depend on what the
    variable holds. *)
Lemma parse_scalar_failure t str v v' :
  parse_scalar t str v = (false, v') → left_in str t v v'.
Proof.
  revert v v'. induction t as [|k|f|t IH]; intros v v'; simpl.
  - done.
  - destruct (from_chars k str v) as [r v1] eqn:Hr; simpl.
    intros [= Hc <-].
    assert (conversion (TIntegral k) str = Some r) as Hconv.
    { simpl. by rewrite (from_chars_report k str 0 v), Hr. }
    destruct (ec r) eqn:Hec.
    + destruct (from_chars_prefix _ _ _ _ _ Hr Hec) as [Hle Hpre].
      apply consumed_false in Hc as [Hc|[_ Hlt]]; [congruence| |done].
      apply left_number with r; [done..|].
      simpl. rewrite Hpre; simpl. f_equal.
      apply consumed_true. by rewrite sv_size_take_le.
    + pose proof (from_chars_error k str v) as Herr.
      rewrite Hr in Herr; simpl in Herr. rewrite Herr by congruence.
      apply left_as_it_was with r; [done | congruence].
    + pose proof (from_chars_error k str v) as Herr.
      rewrite Hr in Herr; simpl in Herr. rewrite Herr by congruence.
      apply left_as_it_was with r; [done | congruence].
  - destruct (from_chars_floating f str v) as [r v1] eqn:Hr; simpl.
    intros [= Hc <-].
    assert (conversion (TFloating f) str = Some r) as Hconv.
    { simpl. by rewrite (from_chars_floating_report f str _ v), Hr. }
    destruct (ec r) eqn:Hec.
    + destruct (from_chars_floating_prefix _ _ _ _ _ Hr Hec) as [Hle Hpre].
      apply consumed_false in Hc as [Hc|[_ Hlt]]; [congruence| |done].
      apply left_number with r; [done..|].
      simpl. rewrite Hpre; simpl. f_equal.
      apply consumed_true. by rewrite sv_size_take_le.
    + pose proof (from_chars_floating_error f str v) as Herr.
      rewrite Hr in Herr; simpl in Herr. rewrite Herr by congruence.
      apply left_as_it_was with r; [done | congruence].
    + pose proof (from_chars_floating_error f str v) as Herr.
      rewrite Hr in Herr; simpl in Herr. rewrite Herr by congruence.
      apply left_as_it_was with r; [done | congruence].
  - destruct (parse_scalar t str (value_init t)) as [b v1] eqn:Hp; simpl.
    intros [= -> <-]. apply left_engaged. by apply IH.
Qed.

Lemma call_failure fn x str x' :
  call fn x str = Some (false, x') → left_by_failure str x x'.
Proof.
  destruct fn as [|T|T], x as [b|t v|t l]; simpl; try done.
  - case_decide; [subst T|done].
    destruct (parse_scalar t str v) as [b v1] eqn:Hp; simpl.
    intros [= -> <-]. apply failure_scalar. by apply parse_scalar_failure.
  - case_decide; [subst T|done].
    destruct (parse_scalar t str (value_init t)) as [b v1] eqn:Hp; simpl.
    intros [= -> <-]. apply failure_vector. by apply parse_scalar_failure.
Qed.

(** What a failure leaves is fixed by the token and by what the
    variable held: it is what the call stores. *)
Lemma left_in_stored str t v v' :
  left_in str t v v' → v' = (parse_scalar t str v).2.
Proof.
  induction 1 as [t v r Hc He | t v v' r Hc He Hlt Hp | t o v' H1 IH].
  - destruct t as [|k|f|t]; simpl in *; try done; injection Hc as <-.
    + symmetry. apply from_chars_error.
      by rewrite (from_chars_report k str v 0).
    + symmetry. apply from_chars_floating_error.
      by rewrite (from_chars_floating_report f str v (S754_zero false)).
  - destruct t as [|k|f|t]; simpl in *; try done; injection Hc as <-.
    + rewrite (from_chars_report k str 0 v) in He, Hp.
      destruct (from_chars k str v) as [r w] eqn:Hr; simpl in *.
      destruct (from_chars_prefix _ _ _ _ _ Hr He) as [_ Hpre].
      rewrite Hpre in Hp. by injection Hp.
    + rewrite (from_chars_floating_report f str _ v) in He, Hp.
      destruct (from_chars_floating f str v) as [r w] eqn:Hr; simpl in *.
      destruct (from_chars_floating_prefix _ _ _ _ _ Hr He) as [_ Hpre].
      rewrite Hpre in Hp. by injection Hp.
  - simpl. by rewrite IH.
Qed.

Lemma VScalar_inj t (v w : scalar t) : VScalar t v = VScalar t w → v = w.
Proof.
  intros H. injection H as H.
  by apply (Eqdep_dec.inj_pair2_eq_dec _ ScalarType_eq_dec) in H.
Qed.

(** Only a conversion error of a numeric scalar leaves every variable
    as it was. *)
Lemma unmutated_conversion_error fn x str x' :
  call fn x str = Some (false, x') →
  leaves_unmutated fn str ↔ conversion_error fn str.
Proof.
  intros Hcall. split.
  - intros Hun. pose proof Hcall as Hcall0.
    destruct fn as [|T|T], x as [b|t v|t l]; simpl in Hcall; try done.
    + case_decide; [subst T|done].
      destruct t as [|k|f|t]; simpl in Hcall.
      * done.
      * destruct (ec (from_chars k str v).1) eqn:Hec.
        2,3: exists (TIntegral k), (from_chars k str v).1;
             split; [done|]; split; [|congruence];
             simpl; by rewrite (from_chars_report k str 0 v).
        exfalso.
        set (n := (from_chars k str v).2).
        set (w := if decide (n = 0%Z) then 1%Z else 0%Z).
        assert (w ≠ n) as Hw by (unfold w; case_decide; lia).
        specialize (Hun (VScalar (TIntegral k) w) (VScalar (TIntegral k) n)).
        apply Hw. symmetry. apply (VScalar_inj (TIntegral k)), Hun.
        simpl. rewrite decide_True by done. injection Hcall as Hc _.
        rewrite <-(from_chars_report k str v w),
                <-(from_chars_stored k str v w) by done.
        by rewrite Hc.
      * destruct (ec (from_chars_floating f str v).1) eqn:Hec.
        2,3: exists (TFloating f), (from_chars_floating f str v).1;
             split; [done|]; split; [|congruence];
             simpl; by rewrite (from_chars_floating_report f str _ v).
        exfalso.
        set (n := (from_chars_floating f str v).2).
        set (w := match n with S754_nan => S754_zero false | _ => S754_nan end).
        assert (w ≠ n) as Hw by (unfold w; by destruct n).
        specialize (Hun (VScalar (TFloating f) w) (VScalar (TFloating f) n)).
        apply Hw. symmetry. apply (VScalar_inj (TFloating f)), Hun.
        simpl. rewrite decide_True by done. injection Hcall as Hc _.
        rewrite <-(from_chars_floating_report f str v w),
                <-(from_chars_floating_stored f str v w) by done.
        by rewrite Hc.
      * exfalso. injection Hcall as Hc _.
        set (n := (parse_scalar t str (value_init t)).2).
        specialize (Hun (VScalar (TOptional t) None)
                        (VScalar (TOptional t) (Some n))).
        assert (Some n = None :> option (scalar t)) as Hn; [|done].
        apply (VScalar_inj (TOptional t)), Hun.
        simpl. rewrite decide_True by done. simpl. by rewrite Hc.
    + case_decide; [subst T|done]. exfalso.
      specialize (Hun _ _ Hcall0). injection Hcall as _ <-.
      apply (f_equal length_in) in Hun. simpl in Hun.
      rewrite length_app in Hun. simpl in Hun. injection Hun. lia.
  - intros (t & r & -> & Hconv & Hec) y y'.
    destruct y as [b|t' w|t' l]; simpl; try done.
    case_decide; [subst t'|done].
    destruct t as [|k|f|t]; simpl in Hconv; try done.
    + injection Hconv as <-. simpl. intros [= _ <-].
      rewrite from_chars_error; [done|].
      by rewrite (from_chars_report k str w 0).
    + injection Hconv as <-. simpl. intros [= _ <-].
      rewrite from_chars_floating_error; [done|].
      by rewrite (from_chars_floating_report f str w (S754_zero false)).
Qed.

(** The relation leaves no choice of what is stored. *)
Lemma left_by_failure_stored str x x' b y :
  left_by_failure str x x' →
  (∃ fn, call fn x str = Some (b, y)) →
  x' = y.
Proof.
  intros Hleft [fn Hcall].
  destruct Hleft as [t v v' Hin | t l v' Hin];
    apply left_in_stored in Hin as ->;
    destruct fn as [|T|T]; simpl in Hcall; try done;
    by destruct (decide (T = t)) as [->|]; [injection Hcall as _ <-|].
Qed.

(** C1 (as amended).  When the parse-and-apply operation of a registered
    binding returns failure, no variable but the bound one is touched
    and the error text is extended by "invalid option value" and the
    token.  The bound variable is left as it was, whatever it held,
    only when it is a numeric scalar, integer or floating-point, and the
    conversion reported an error (no number at the front of the token,
    or one out of range).  When the conversion stopped before the end
    of the token, a numeric variable holds the number read, which is
    the text in front of where it stopped, converted; an optional is
    left engaged with what such a failure leaves in a value-initialised
    content; and a list has grown by one such element. *)
Theorem parseOption_failure (i : nat) (str : string)
    (p p' : CommandLineParser) (m m' : Memory) :
  parseOption i str p m = Some (false, p', m') →
  ∃ opt x x',
    options_ p !! i = Some opt
    ∧ m !! Option.value opt = Some x
    ∧ p' = formatArgError "invalid option value" str p
    ∧ m' = <[Option.value opt := x']> m
    ∧ left_by_failure str x x'
    ∧ (leaves_unmutated (Option.parse opt) str
       ↔ conversion_error (Option.parse opt) str).
Proof.
  unfold parseOption, invoke.
  destruct (options_ p !! i) as [opt|] eqn:Hopt; [|done].
  destruct (m !! Option.value opt) as [x|] eqn:Hx; [|done].
  destruct (call (Option.parse opt) x str) as [[[|] x']|] eqn:Hcall;
    simpl; [done| |done].
  intros [= <- <-]. exists opt, x, x'.
  split; [done|]. split; [done|]. split; [done|]. split; [done|].
  split; [by eapply call_failure | by eapply unmutated_conversion_error].
Qed.

Lemma parseOption_failure_witness :
  ∃ p' m',
    parseOption 1 "5x" test_parser test_memory = Some (false, p', m')
    ∧ ∃ opt x x',
        options_ test_parser !! 1 = Some opt
        ∧ test_memory !! Option.value opt = Some x
        ∧ p' = formatArgError "invalid option value" "5x" test_parser
        ∧ m' = <[Option.value opt := x']> test_memory
        ∧ left_by_failure "5x" x x'
        ∧ (leaves_unmutated (Option.parse opt) "5x"
           ↔ conversion_error (Option.parse opt) "5x").
Proof.
  eexists _, _. split; [reflexivity|].
  eapply parseOption_failure. reflexivity.
Defined.

(** C1 (as stated) fails: parsing "12abc" into an [int] that holds 7
    returns failure and leaves 12 in it. *)
Lemma parseValue_failure_mutates :
  ∃ x',
    call (parseValue (TIntegral int_)) (VScalar (TIntegral int_) 7%Z) "12abc"
      = Some (false, x')
    ∧ x' ≠ VScalar (TIntegral int_) 7%Z.
Proof.
  eexists. split; [reflexivity|].
  intros H. apply (f_equal number_in) in H. discriminate H.
Qed.

(** A failed "123abc" leaves 123 and nothing else. *)
Example failure_leaves_the_number x' :
  left_by_failure "123abc" (VScalar (TIntegral int_) 7%Z) x' →
  x' = VScalar (TIntegral int_) 123%Z.
Proof.
  intros H. apply (left_by_failure_stored _ _ _ false _ H).
  by exists (parseValue (TIntegral int_)).
Qed.

(** The binders of the floating-point types on the same kind of
    token: "1.5e3x" into a [double] that holds 0 leaves 1500, and "1e999"
    leaves it as it was. *)
Example parseValue_double :
  call (parseValue (TFloating double_))
       (VScalar (TFloating double_) (S754_zero false)) "1.5e3x"
  = Some (false, VScalar (TFloating double_)
                   (S754_finite false 6597069766656000 (-42)))
  ∧ call (parseValue (TFloating double_))
         (VScalar (TFloating double_) (S754_zero false)) "1e999"
    = Some (false, VScalar (TFloating double_) (S754_zero false))
  ∧ (call (parseValue (TFloating double_))
          (VScalar (TFloating double_) (S754_zero false)) <$>
       ["1.5"; "1e3"; "inf"; ".5"; "-0"; "nan"])
    = [Some (true, VScalar (TFloating double_)
                     (S754_finite false 6755399441055744 (-52)));
       Some (true, VScalar (TFloating double_)
                     (S754_finite false 8796093022208000 (-43)));
       Some (true, VScalar (TFloating double_) (S754_infinity false));
       Some (true, VScalar (TFloating double_)
                     (S754_finite false 4503599627370496 (-53)));
       Some (true, VScalar (TFloating double_) (S754_zero true));
       Some (true, VScalar (TFloating double_) S754_nan)].
Proof. repeat split; vm_compute; reflexivity. Qed.

(** ** Text lemmas *)

Lemma sv_find_app_r c a b :
  sv.find c a = None → sv.find c (a +:+ String c b) = Some (sv.size a).
Proof.
  induction a as [|d a IH]; simpl.
  - by rewrite Ascii.eqb_refl.
  - destruct (Ascii.eqb d c); [done|].
    destruct (sv.find c a); [done|]. intros _. by rewrite IH.
Qed.

Lemma sv_take_app a b : sv.take (sv.size a) (a +:+ b) = a.
Proof.
  induction a as [|d a IH]; simpl; [by destruct b|]. by rewrite IH.
Qed.

Lemma sv_drop_app_S a c b :
  sv.drop (sv.size a + 1) (a +:+ String c b) = b.
Proof. induction a as [|d a IH]; simpl; done. Qed.

(** ** The loop *)

Lemma parse_loop_app h argv ks1 ks2 p m l :
  parse_loop h argv (ks1 ++ ks2) p m l =
  match parse_loop h argv ks1 p m l with
  | Continue p m l => parse_loop h argv ks2 p m l
  | r => r
  end.
Proof.
  revert p m l. induction ks1 as [|k ks1 IH]; intros p m l; simpl; [done|].
  destruct (argv_at argv k) as [a|]; [|done].
  destruct (parse_arg h a p m l); auto.
Qed.

Lemma options_parse_program argv0 p :
  options_ (parse_program argv0 p) = options_ p.
Proof. unfold parse_program. by destruct (sv.find_last_of _ _). Qed.

Lemma has_positional_parse_program argv0 p :
  has_positional (parse_program argv0 p) = has_positional p.
Proof. unfold parse_program. by destruct (sv.find_last_of _ _). Qed.

Lemma parse_from argc argv p m k p' m' l' :
  reaches argv p m k p' m' l' →
  (k ≤ argc)%Z →
  parse argc argv p m =
  parse_end argc argv
    (parse_loop (has_positional p) argv (seqZ k (argc - k)) p' m' l').
Proof.
  intros (argv0 & H0 & Hk & Hloop) Hle. unfold parse. rewrite H0.
  rewrite has_positional_parse_program.
  replace (argc - 1)%Z with ((k - 1) + (argc - k))%Z by lia.
  rewrite seqZ_app by lia. rewrite parse_loop_app, Hloop.
  by replace (1 + (k - 1))%Z with k by lia.
Qed.

Lemma reaches_step argv p m k p1 m1 l1 tok p2 m2 l2 :
  reaches argv p m k p1 m1 l1 →
  argv_at argv k = Some tok →
  parse_arg (has_positional p) tok p1 m1 l1 = Continue p2 m2 l2 →
  reaches argv p m (k + 1) p2 m2 l2.
Proof.
  intros (argv0 & H0 & Hk & Hloop) Htok Harg.
  exists argv0. split; [done|]. split; [lia|].
  replace (k + 1 - 1)%Z with ((k - 1) + 1)%Z by lia.
  rewrite seqZ_app by lia. rewrite parse_loop_app, Hloop.
  replace (1 + (k - 1))%Z with k by lia.
  rewrite seqZ_cons by lia. simpl. by rewrite Htok, Harg.
Qed.

Lemma parse_returns_at argc argv p m k p1 m1 l1 tok b p2 m2 :
  reaches argv p m k p1 m1 l1 →
  (k < argc)%Z →
  argv_at argv k = Some tok →
  parse_arg (has_positional p) tok p1 m1 l1 = Return b p2 m2 →
  parse argc argv p m = Returns b p2 m2.
Proof.
  intros Hr Hk Htok Harg.
  rewrite (parse_from _ _ _ _ _ _ _ _ Hr) by lia.
  rewrite seqZ_cons by lia. simpl. by rewrite Htok, Harg.
Qed.

Lemma parse_at_end argc argv p m p1 m1 l1 :
  reaches argv p m argc p1 m1 l1 →
  parse argc argv p m = parse_end argc argv (Continue p1 m1 l1).
Proof.
  intros Hr. rewrite (parse_from _ _ _ _ _ _ _ _ Hr) by lia.
  by rewrite seqZ_nil by lia.
Qed.

Section lexer.

Local Arguments sv.find : simpl never.
Local Arguments sv.take : simpl never.

Lemma parse_arg_long h name p m l :
  name ≠ "" →
  sv.find "=" name = None →
  parse_arg h ("--" +:+ name) p m l =
  parse_resolved h ("--" +:+ name) false "" m (scanning l)
    (findOption_name name p).
Proof.
  intros Hne Heq.
  change ("--" +:+ name) with (String "-" (String "-" name)).
  unfold parse_arg. simpl.
  destruct name as [|c name]; [done|]. simpl.
  rewrite Heq. rewrite bool_decide_false by done.
  rewrite bool_decide_false by (by intros [? ?]). done.
Qed.

Lemma parse_arg_long_value h name v p m l :
  name ≠ "" →
  sv.find "=" name = None →
  parse_arg h ("--" +:+ name +:+ "=" +:+ v) p m l =
  parse_resolved h ("--" +:+ name +:+ "=" +:+ v) true v m (scanning l)
    (findOption_name name p).
Proof.
  intros Hne Heq.
  change ("--" +:+ name +:+ "=" +:+ v)
    with (String "-" (String "-" (name +:+ String "=" v))).
  unfold parse_arg. simpl.
  assert (sv.empty (name +:+ String "=" v) = false) as ->
    by (by destruct name).
  rewrite sv_find_app_r by done.
  rewrite bool_decide_false by (destruct name; [done|simpl; congruence]).
  rewrite bool_decide_true by done.
  by rewrite sv_take_app, sv_drop_app_S.
Qed.

Lemma parse_arg_short h c p m l :
  c ≠ "-"%char →
  c ≠ "="%char →
  parse_arg h (String "-" (String c "")) p m l =
  parse_resolved h (String "-" (String c "")) false "" m (scanning l)
    (findOption_optChar c p).
Proof.
  intros Hd He. unfold parse_arg. simpl.
  apply Ascii.eqb_neq in Hd, He. rewrite Hd. simpl.
  unfold sv.find. rewrite He. done.
Qed.

Lemma parse_arg_short_value h c v p m l :
  c ≠ "-"%char →
  c ≠ "="%char →
  parse_arg h (String "-" (String c "") +:+ "=" +:+ v) p m l =
  parse_resolved h (String "-" (String c "") +:+ "=" +:+ v) true v m
    (scanning l) (findOption_optChar c p).
Proof.
  intros Hd He.
  change (String "-" (String c "") +:+ "=" +:+ v)
    with (String "-" (String c (String "=" v))).
  unfold parse_arg. simpl.
  apply Ascii.eqb_neq in Hd. rewrite Hd. simpl.
  assert (sv.find "=" (String c (String "=" v)) = Some 1) as ->.
  { unfold sv.find. by apply Ascii.eqb_neq in He as ->. }
  done.
Qed.

Lemma parse_arg_bundle h c1 c2 name p m l :
  c1 ≠ "-"%char →
  sv.find "=" (String c1 (String c2 name)) = None →
  parse_arg h (String "-" (String c1 (String c2 name))) p m l =
  parse_bundle (String c1 (String c2 name)) p m (scanning l).
Proof.
  intros Hd Heq. unfold parse_arg. simpl.
  apply Ascii.eqb_neq in Hd. rewrite Hd. simpl.
  rewrite Heq. rewrite bool_decide_false by done.
  rewrite bool_decide_false by (by intros [? ?]). done.
Qed.

Lemma parse_arg_bundle_value h c1 c2 name v p m l :
  c1 ≠ "-"%char →
  sv.find "=" (String c1 (String c2 name)) = None →
  parse_arg h (String "-" (String c1 (String c2 name)) +:+ "=" +:+ v) p m l =
  Return false
    (formatArgError "flag/argument mix disallowed"
       (String "-" (String c1 (String c2 name)) +:+ "=" +:+ v) p) m.
Proof.
  intros Hd Heq.
  change (String "-" (String c1 (String c2 name)) +:+ "=" +:+ v)
    with (String "-" (String c1 (String c2 (name +:+ String "=" v)))).
  unfold parse_arg. simpl.
  apply Ascii.eqb_neq in Hd. rewrite Hd. simpl.
  change (String c1 (String c2 (name +:+ String "=" v)))
    with (String c1 (String c2 name) +:+ String "=" v).
  rewrite (sv_find_app_r "=" (String c1 (String c2 name)) v) by done.
  rewrite bool_decide_false by done.
  rewrite bool_decide_true by done.
  rewrite (sv_take_app (String c1 (String c2 name))). done.
Qed.

End lexer.

(** ** Values that do not convert *)

Lemma options_mark_parsed_eq i p :
  options_ (mark_parsed i p) !! i = Option.set_parsed <$> options_ p !! i.
Proof. apply list_lookup_alter_eq. Qed.

Lemma options_mark_parsed_ne i j p :
  i ≠ j → options_ (mark_parsed i p) !! j = options_ p !! j.
Proof. intros. by apply list_lookup_alter_ne. Qed.

(** Marking an option as parsed does not change what its binder does. *)
Lemma invoke_mark_parsed i j v p m :
  invoke i v (mark_parsed j p) m = invoke i v p m.
Proof.
  unfold invoke. destruct (decide (j = i)) as [->|Hne].
  - rewrite options_mark_parsed_eq. by destruct (options_ p !! i).
  - by rewrite options_mark_parsed_ne.
Qed.

Lemma parseOption_false i v p m m' :
  invoke i v p m = Some (false, m') →
  parseOption i v p m =
  Some (false, formatArgError "invalid option value" v p, m').
Proof. unfold parseOption. by intros ->. Qed.

Lemma findOption_name_found name p i :
  (findOption_name name p).1 = Some i → findOption_name name p = (Some i, p).
Proof.
  unfold findOption_name.
  destruct (list_find _ _) as [[j opt]|]; simpl; congruence.
Qed.

Lemma findOption_optChar_found c p i :
  (findOption_optChar c p).1 = Some i →
  findOption_optChar c p = (Some i, p).
Proof.
  unfold findOption_optChar.
  destruct (list_find _ _) as [[j opt]|]; simpl; congruence.
Qed.

(** An argument that names an option is resolved to it. *)
Lemma parse_arg_names h tok i p m l :
  names p tok i →
  parse_arg h tok p m l =
  parse_resolved h tok false "" m (scanning l) (Some i, p).
Proof.
  intros [name j Hne Heq Hfind | c j Hd He Hfind].
  - rewrite parse_arg_long by done. by rewrite (findOption_name_found _ _ _ Hfind).
  - rewrite parse_arg_short by done.
    by rewrite (findOption_optChar_found _ _ _ Hfind).
Qed.

Lemma parse_arg_names_value h tok i v p m l :
  names p tok i →
  parse_arg h (tok +:+ "=" +:+ v) p m l =
  parse_resolved h (tok +:+ "=" +:+ v) true v m (scanning l) (Some i, p).
Proof.
  intros [name j Hne Heq Hfind | c j Hd He Hfind].
  - change (("--" +:+ name) +:+ "=" +:+ v) with ("--" +:+ name +:+ "=" +:+ v).
    rewrite parse_arg_long_value by done.
    by rewrite (findOption_name_found _ _ _ Hfind).
  - rewrite parse_arg_short_value by done.
    by rewrite (findOption_optChar_found _ _ _ Hfind).
Qed.

(** The loop body on an argument whose value does not convert. *)
Lemma parse_arg_conversion_failure h tok i v p m l m' :
  hands_over p l tok i v →
  invoke i v p m = Some (false, m') →
  parse_arg h tok p m l =
  Return false (formatArgError "invalid option value" v (mark_parsed i p)) m'.
Proof.
  intros Hover Hinv.
  assert (parseOption i v (mark_parsed i p) m =
          Some (false,
                formatArgError "invalid option value" v (mark_parsed i p), m'))
    as Hpo by (apply parseOption_false; by rewrite invoke_mark_parsed).
  destruct Hover as [tok i [He Hd] Hu Hl | tok i [He Hd] Hu Hl Hpos
                    | tok i opt v Hn Hopt Hty].
  - unfold parse_arg. by rewrite He, Hd, Hu, Hl; simpl; rewrite Hpo.
  - unfold parse_arg. by rewrite He, Hd, Hu, Hl; simpl; rewrite Hpos, Hpo.
  - rewrite (parse_arg_names_value _ _ _ _ _ _ _ Hn).
    unfold parse_resolved. rewrite Hopt.
    destruct (decide (Option.type opt = flag)); [done|]. simpl.
    by rewrite Hpo.
Qed.

(** The loop body on an argument whose value converts. *)
Lemma parse_arg_conversion_success h tok i v p m l m' :
  hands_over p l tok i v →
  invoke i v p m = Some (true, m') →
  ∃ l', parse_arg h tok p m l = Continue (mark_parsed i p) m' l'.
Proof.
  intros Hover Hinv.
  assert (parseOption i v (mark_parsed i p) m =
          Some (true, mark_parsed i p, m')) as Hpo.
  { unfold parseOption. by rewrite invoke_mark_parsed, Hinv. }
  assert (is_Some (options_ (mark_parsed i p) !! i)) as [opt' Hopt'].
  { rewrite options_mark_parsed_eq. unfold invoke in Hinv.
    by destruct (options_ p !! i). }
  destruct Hover as [tok i [He Hd] Hu Hl | tok i [He Hd] Hu Hl Hpos
                    | tok i opt v Hn Hopt Hty].
  - unfold parse_arg. rewrite He, Hd, Hu, Hl; simpl. rewrite Hpo, Hopt'.
    destruct (bool_decide _ || h); by eexists.
  - unfold parse_arg. rewrite He, Hd, Hu, Hl; simpl. rewrite Hpos, Hpo.
    by eexists.
  - rewrite (parse_arg_names_value _ _ _ _ _ _ _ Hn).
    unfold parse_resolved. rewrite Hopt.
    destruct (decide (Option.type opt = flag)); [done|]. simpl.
    rewrite Hpo. destruct (bool_decide _ && negb h); by eexists.
Qed.

(** ** Bundles of short flags *)

Lemma parse_bundle_app pre post p m l :
  parse_bundle (pre +:+ post) p m l =
  match parse_bundle pre p m l with
  | Continue p m l => parse_bundle post p m l
  | r => r
  end.
Proof.
  revert p m. induction pre as [|c pre IH]; intros p m; simpl; [done|].
  destruct (findOption_optChar c p) as [[i|] p'].
  - destruct (options_ p' !! i) as [opt|]; [|done].
    destruct (decide (Option.type opt ≠ flag)); [done|].
    destruct (invoke i "" (mark_parsed i p') m); [|done]. apply IH.
  - destruct (skipUnknown_ p'); [apply IH | done].
Qed.

(** The bundle loop does not touch the locals. *)
Lemma parse_bundle_locals name p m l p' m' l' :
  parse_bundle name p m l = Continue p' m' l' → l' = l.
Proof.
  revert p m. induction name as [|c name IH]; intros p m; simpl.
  - by intros [= _ _ ->].
  - destruct (findOption_optChar c p) as [[i|] p1].
    + destruct (options_ p1 !! i) as [opt|]; [|done].
      destruct (decide (Option.type opt ≠ flag)); [done|].
      destruct (invoke i "" (mark_parsed i p1) m); [|done]. apply IH.
    + destruct (skipUnknown_ p1); [apply IH | done].
Qed.

(** The bundle loop at a character whose option takes a value. *)
Lemma parse_bundle_value_option c post i opt p m l :
  (findOption_optChar c p).1 = Some i →
  options_ p !! i = Some opt →
  Option.type opt ≠ flag →
  parse_bundle (String c post) p m l =
  Return false (with_error ("option requires value: " +:+ String c "") p) m.
Proof.
  intros Hfind Hopt Hty. simpl.
  rewrite (findOption_optChar_found _ _ _ Hfind), Hopt.
  by destruct (decide (Option.type opt ≠ flag)).
Qed.

(** C5.  An argument with one leading dash and a name of more than one
    character (the characters before any [=]): with an [=value] suffix,
    [parse] fails with the error "flag/argument mix disallowed"; without
    one, the characters are resolved as short flags in turn, and at a
    character whose option is not a flag [parse] fails with the error
    "option requires value" naming that character. *)
Theorem bundle_errors (argc : Z) (argv : list string)
    (p : CommandLineParser) (m : Memory) (k : Z)
    (p1 : CommandLineParser) (m1 : Memory) (l1 : Locals)
    (c1 c2 : ascii) (name : string) :
  reaches argv p m k p1 m1 l1 →
  (k < argc)%Z →
  c1 ≠ "-"%char →
  sv.find "=" (String c1 (String c2 name)) = None →
  (∀ v,
     argv_at argv k = Some ("-" +:+ String c1 (String c2 name) +:+ "=" +:+ v) →
     parse argc argv p m =
     Returns false
       (formatArgError "flag/argument mix disallowed"
          ("-" +:+ String c1 (String c2 name) +:+ "=" +:+ v) p1) m1)
  ∧ (∀ pre c post p2 m2 l2 i opt,
       argv_at argv k = Some ("-" +:+ String c1 (String c2 name)) →
       String c1 (String c2 name) = pre +:+ String c post →
       parse_bundle pre p1 m1 (scanning l1) = Continue p2 m2 l2 →
       (findOption_optChar c p2).1 = Some i →
       options_ p2 !! i = Some opt →
       Option.type opt ≠ flag →
       parse argc argv p m =
       Returns false
         (with_error ("option requires value: " +:+ String c "") p2) m2).
Proof.
  intros Hreach Hk Hd Heq. split.
  - intros v Htok. eapply parse_returns_at; [done..|].
    by apply (parse_arg_bundle_value _ c1 c2 name v).
  - intros pre c post p2 m2 l2 i opt Htok Hsplit Hpre Hfind Hopt Hty.
    eapply parse_returns_at; [done..|].
    change ("-" +:+ String c1 (String c2 name))
      with (String "-" (String c1 (String c2 name))).
    rewrite parse_arg_bundle by done.
    rewrite Hsplit, parse_bundle_app, Hpre.
    by apply parse_bundle_value_option with i opt.
Qed.

Lemma bundle_errors_witness :
  parse 2 ["prog"; "-hc=1"] test_parser test_memory =
    Returns false
      (formatArgError "flag/argument mix disallowed" "-hc=1"
         (parse_program "prog" test_parser))
      test_memory
  ∧ parse 2 ["prog"; "-hc"] test_parser test_memory =
      Returns false
        (with_error "option requires value: c"
           (mark_parsed 0 (parse_program "prog" test_parser)))
        (<[0 := VBool true]> test_memory).
Proof.
  split.
  - apply (proj1 (bundle_errors 2 ["prog"; "-hc=1"] test_parser test_memory 1
                    (parse_program "prog" test_parser) test_memory locals0
                    "h" "c" ""
                    (ex_intro _ "prog" (conj eq_refl (conj (Z.le_refl 1) eq_refl)))
                    eq_refl ltac:(discriminate) eq_refl) "1").
    reflexivity.
  - apply (proj2 (bundle_errors 2 ["prog"; "-hc"] test_parser test_memory 1
                    (parse_program "prog" test_parser) test_memory locals0
                    "h" "c" ""
                    (ex_intro _ "prog" (conj eq_refl (conj (Z.le_refl 1) eq_refl)))
                    eq_refl ltac:(discriminate) eq_refl)
             "h" "c"%char "" _ _ (scanning locals0) 1
             (Option.Option param 1 (parseValue (TOptional (TIntegral int_)))
                "+compression,c,level" "compression level" 0)).
    + reflexivity.
    + reflexivity.
    + reflexivity.
    + reflexivity.
    + reflexivity.
    + discriminate.
Defined.

(** The two halves of C5 on the demo program: [-hc=1] and [-hc], where
    [h] is a flag and [c] takes a value. *)
Example bundle_with_value :
  observe (parse 2 ["prog"; "-hc=1"] test_parser test_memory)
    = Some (false, "flag/argument mix disallowed: -hc=1",
            [false; false; false], test_memory).
Proof. reflexivity. Qed.

Example bundle_with_value_option :
  observe (parse 2 ["prog"; "-hc"] test_parser test_memory)
    = Some (false, "option requires value: c",
            [true; false; false], <[0 := VBool true]> test_memory).
Proof. reflexivity. Qed.

(** ** A value option at the end of the input *)

Lemma append_empty a b : a +:+ b = "" → a = "" ∧ b = "".
Proof. destruct a; [done|discriminate]. Qed.

(** C6 (as amended).  When the last argument names a value-expecting
    (non-flag) option without an inline value, and that option has not
    been marked [parsed] before, [parse] returns failure with the
    "option requires value" error citing that argument, and [error()] is
    not empty. *)
Theorem option_requires_value (argc : Z) (argv : list string)
    (p : CommandLineParser) (m : Memory)
    (p1 : CommandLineParser) (m1 : Memory) (l1 : Locals)
    (tok : string) (i : nat) (opt : Option.t) :
  reaches argv p m (argc - 1) p1 m1 l1 →
  argv_at argv (argc - 1) = Some tok →
  names p1 tok i →
  options_ p1 !! i = Some opt →
  Option.type opt ≠ flag →
  Option.parsed opt = false →
  parse argc argv p m =
    Returns false
      (with_error (error p1 +:+ "option requires value: " +:+ tok) p1) m1
  ∧ error p1 +:+ "option requires value: " +:+ tok ≠ "".
Proof.
  intros Hreach Htok Hnames Hopt Hty Hparsed. split.
  - assert (parse_arg (has_positional p) tok p1 m1 l1 =
            Continue p1 m1 (with_lastOption (Some i) (scanning l1))) as Harg.
    { rewrite (parse_arg_names _ _ _ _ _ _ Hnames).
      unfold parse_resolved. rewrite Hopt.
      by destruct (decide (Option.type opt = flag)). }
    pose proof (reaches_step _ _ _ _ _ _ _ _ _ _ _ Hreach Htok Harg) as Hend.
    replace (argc - 1 + 1)%Z with argc in Hend by lia.
    rewrite (parse_at_end _ _ _ _ _ _ _ Hend). simpl.
    by rewrite Hopt, Hparsed, Htok.
  - intros H. apply append_empty in H as [_ H]. discriminate H.
Qed.

Lemma option_requires_value_witness :
  parse 2 ["prog"; "--compression"] test_parser test_memory =
    Returns false
      (with_error
         (error (parse_program "prog" test_parser)
            +:+ "option requires value: " +:+ "--compression")
         (parse_program "prog" test_parser))
      test_memory
  ∧ error (parse_program "prog" test_parser)
      +:+ "option requires value: " +:+ "--compression" ≠ "".
Proof.
  apply (option_requires_value 2 ["prog"; "--compression"]
           test_parser test_memory (parse_program "prog" test_parser)
           test_memory locals0 "--compression" 1
           (Option.Option param 1 (parseValue (TOptional (TIntegral int_)))
              "+compression,c,level" "compression level" 0)).
  - exists "prog". split; [reflexivity|]. split; [lia | reflexivity].
  - reflexivity.
  - by apply (names_long (parse_program "prog" test_parser) "compression").
  - reflexivity.
  - discriminate.
  - reflexivity.
Defined.

(** C6 (as stated) fails: the last argument names the value option
    [--compression] and no value follows it, but the option was given a
    value earlier on, and [parse] returns success with no error. *)
Lemma option_requires_value_not_always :
  observe (parse 3 ["prog"; "--compression=5"; "--compression"]
             test_parser test_memory)
    = Some (true, "", [false; true; false],
            <[1 := VScalar (TOptional (TIntegral int_)) (Some 5%Z)]> test_memory).
Proof. reflexivity. Qed.

(** ** List options *)

Lemma parse_resolved_pending_known h tok hv v m l r p' m' l' :
  lastOptionUnknown l = false →
  lastOption l = None →
  parse_resolved h tok hv v m l r = Continue p' m' l' →
  pending_known l'.
Proof.
  intros Hu Hl. unfold parse_resolved. destruct r as [[i|] p].
  - destruct (options_ p !! i) as [opt|]; [|done].
    destruct (decide (Option.type opt = flag)).
    + destruct hv; [done|].
      destruct (invoke i "" (mark_parsed i p) m); [|done].
      intros [= _ _ <-]. by intros _.
    + destruct hv; simpl.
      * destruct (parseOption i v (mark_parsed i p) m) as [[[[|] ?] ?]|];
          [|done..].
        destruct (bool_decide _ && negb h); intros [= _ _ <-]; by intros _.
      * intros [= _ _ <-]. by intros _.
  - destruct (skipUnknown_ p); [|done].
    intros [= _ _ <-]. intros [? H]. simpl in H. congruence.
Qed.

Lemma parse_arg_pending_known h tok p m l p' m' l' :
  pending_known l →
  parse_arg h tok p m l = Continue p' m' l' →
  pending_known l'.
Proof.
  intros Hinv. unfold parse_arg.
  destruct (sv.empty tok); [by intros [= _ _ <-]|].
  destruct (sv.starts_with "-" tok); simpl.
  - set (l0 := with_lastOptionUnknown false (with_lastOption None l)).
    destruct (negb _ && _).
    + destruct (sv.empty _); [intros [= _ _ <-]; by intros _|].
      case_bool_decide; [done|].
      by apply parse_resolved_pending_known.
    + destruct (sv.empty _); [intros [= _ _ <-]; by intros _|].
      case_bool_decide; [done|].
      destruct (match sv.find "=" _ with Some k => _ | None => _ end)
        as [|c [|c' name]] eqn:Hname.
      * case_bool_decide; [done|]. simpl. intros [= _ _ <-]. by intros _.
      * by apply parse_resolved_pending_known.
      * case_bool_decide; [done|].
        intros Hb%parse_bundle_locals. subst l'. by intros _.
  - destruct (lastOptionUnknown l) eqn:Hu; [intros [= _ _ <-]; by intros _|].
    destruct (lastOption l) as [i|] eqn:Hl.
    + destruct (parseOption i tok (mark_parsed i p) m) as [[[[|] p1] m2]|];
        [|done..].
      destruct (options_ p1 !! i) as [opt|]; [|done].
      destruct (bool_decide _ || h); intros [= _ _ <-]; by intros _.
    + destruct (findOption_position _ p) as [i|]; [|done].
      destruct (parseOption i tok (mark_parsed i p) m) as [[[[|] p1] m2]|];
        [|done..].
      intros [= _ _ <-]. intros [? H]. simpl in H. congruence.
Qed.

Lemma parse_loop_pending_known h argv ks p m l p' m' l' :
  pending_known l →
  parse_loop h argv ks p m l = Continue p' m' l' →
  pending_known l'.
Proof.
  revert p m l. induction ks as [|k ks IH]; intros p m l Hinv; simpl.
  - by intros [= _ _ <-].
  - destruct (argv_at argv k) as [tok|]; [|done].
    destruct (parse_arg h tok p m l) as [p1 m1 l1| |] eqn:Harg; [|done..].
    apply IH. by eapply parse_arg_pending_known.
Qed.

Lemma reaches_pending_known argv p m k p1 m1 l1 :
  reaches argv p m k p1 m1 l1 → pending_known l1.
Proof.
  intros (argv0 & _ & _ & Hloop).
  eapply parse_loop_pending_known; [|done]. by intros [? [=]].
Qed.

Lemma mark_parsed_idemp i p : mark_parsed i (mark_parsed i p) = mark_parsed i p.
Proof.
  unfold mark_parsed, with_options; simpl. f_equal.
  rewrite list_alter_alter_eq. by apply list_alter_ext.
Qed.

(** One bare argument handed to a pending list option. *)
Lemma parse_arg_pending_list h tok i opt T xs v p m l :
  lastOption l = Some i →
  lastOptionUnknown l = false →
  options_ p !! i = Some opt →
  Option.type opt = list_ →
  Option.parse opt = parseList T →
  m !! Option.value opt = Some (VVector T xs) →
  bare tok →
  converts T tok v →
  parse_arg h tok p m l =
  Continue (mark_parsed i p)
    (<[Option.value opt := VVector T (xs ++ [v])]> m)
    (if h then with_lastOption None l else l).
Proof.
  intros Hl Hu Hopt Hty Hfn Hm [He Hd] Hv.
  unfold parse_arg. rewrite He, Hd, Hu, Hl. simpl.
  unfold parseOption. rewrite invoke_mark_parsed.
  unfold invoke. rewrite Hopt, Hm, Hfn. simpl.
  destruct (decide (T = T)); [|done].
  unfold converts in Hv. rewrite Hv. simpl.
  rewrite list_lookup_alter_eq, Hopt. simpl. rewrite Hty.
  rewrite bool_decide_false by (by intros ?). by destruct h.
Qed.

(** A run of bare arguments handed to a pending list option when there
    are no positional options. *)
Lemma reaches_greedy argv p m i T a toks :
  has_positional p = false →
  ∀ vs k p1 m1 l1 opt xs,
    reaches argv p m k p1 m1 l1 →
    lastOption l1 = Some i →
    options_ p1 !! i = Some opt →
    Option.type opt = list_ →
    Option.parse opt = parseList T →
    Option.value opt = a →
    m1 !! a = Some (VVector T xs) →
    (∀ j, j < length toks → argv_at argv (k + Z.of_nat j) = toks !! j) →
    Forall bare toks →
    Forall2 (converts T) toks vs →
    toks ≠ [] →
    reaches argv p m (k + Z.of_nat (length toks)) (mark_parsed i p1)
      (<[a := VVector T (xs ++ vs)]> m1) l1.
Proof.
  intros Hpos. induction toks as [|tok toks IH]; [done|].
  intros vs k p1 m1 l1 opt xs Hreach Hl Hopt Hty Hfn Ha Hm Hargv Hbare Hconv _.
  apply Forall2_cons_inv_l in Hconv as (v & vs' & Hv & Hvs & ->).
  apply Forall_cons in Hbare as [Hb Hbare].
  assert (reaches argv p m (k + 1) (mark_parsed i p1)
            (<[a := VVector T (xs ++ [v])]> m1) l1) as Hnext.
  { eapply reaches_step; [done| |].
    - specialize (Hargv 0 ltac:(simpl; lia)). simpl in Hargv.
      by rewrite Z.add_0_r in Hargv.
    - rewrite Hpos. subst a.
      rewrite (parse_arg_pending_list false tok i opt T xs v); try done.
      apply (reaches_pending_known _ _ _ _ _ _ _ Hreach). by rewrite Hl. }
  destruct toks as [|tok' toks].
  { apply Forall2_nil_inv_l in Hvs as ->. simpl length.
    by replace (k + Z.of_nat 1)%Z with (k + 1)%Z by lia. }
  replace (k + Z.of_nat (length (tok :: tok' :: toks)))%Z
    with ((k + 1) + Z.of_nat (length (tok' :: toks)))%Z by (simpl length; lia).
  rewrite <-(mark_parsed_idemp i p1).
  replace (<[a := VVector T (xs ++ v :: vs')]> m1)
    with (<[a := VVector T ((xs ++ [v]) ++ vs')]>
            (<[a := VVector T (xs ++ [v])]> m1)).
  2:{ rewrite insert_insert_eq. by rewrite <-app_assoc. }
  eapply (IH vs' _ _ _ _ (Option.set_parsed opt)); try done.
  - by rewrite options_mark_parsed_eq, Hopt.
  - by rewrite lookup_insert_eq.
  - intros j Hj. specialize (Hargv (S j) ltac:(simpl in *; lia)).
    simpl in Hargv. rewrite <-Hargv. f_equal. lia.
Qed.

(** C4.  While a list option waits for its value: if no option of the
    registry has a nonzero [position], it takes every bare argument of
    the run that follows, appending each in order, and keeps waiting;
    if some option has a nonzero [position], it takes one bare argument
    and the engine is back to scanning.  An argument with a leading dash
    ends the wait in both cases, and an empty argument, which the loop
    passes over before it looks at anything else, changes nothing. *)
Theorem list_option_consumption (argv : list string)
    (p : CommandLineParser) (m : Memory) (k : Z)
    (p1 : CommandLineParser) (m1 : Memory) (l1 : Locals)
    (i : nat) (opt : Option.t) (T : ScalarType) (xs : list (scalar T)) :
  reaches argv p m k p1 m1 l1 →
  lastOption l1 = Some i →
  options_ p1 !! i = Some opt →
  Option.type opt = list_ →
  Option.parse opt = parseList T →
  m1 !! Option.value opt = Some (VVector T xs) →
  (has_positional p = false →
   ∀ toks vs,
     toks ≠ [] →
     (∀ j, j < length toks → argv_at argv (k + Z.of_nat j) = toks !! j) →
     Forall bare toks →
     Forall2 (converts T) toks vs →
     reaches argv p m (k + Z.of_nat (length toks)) (mark_parsed i p1)
       (<[Option.value opt := VVector T (xs ++ vs)]> m1) l1)
  ∧ (has_positional p = true →
     ∀ tok v,
       argv_at argv k = Some tok →
       bare tok →
       converts T tok v →
       reaches argv p m (k + 1) (mark_parsed i p1)
         (<[Option.value opt := VVector T (xs ++ [v])]> m1)
         (with_lastOption None l1))
  ∧ (∀ tok,
       sv.starts_with "-" tok = true →
       parse_arg (has_positional p) tok p1 m1 l1 =
       parse_arg (has_positional p) tok p1 m1 (scanning l1))
  ∧ parse_arg (has_positional p) "" p1 m1 l1 = Continue p1 m1 l1.
Proof.
  intros Hreach Hl Hopt Hty Hfn Hm.
  assert (lastOptionUnknown l1 = false) as Hu.
  { apply (reaches_pending_known _ _ _ _ _ _ _ Hreach). by rewrite Hl. }
  split; [|split; [|split; [|done]]].
  - intros Hpos toks vs Hne Hargv Hbare Hconv.
    by eapply reaches_greedy.
  - intros Hpos tok v Htok Hb Hv.
    eapply reaches_step; [done..|]. rewrite Hpos.
    by rewrite (parse_arg_pending_list true tok i opt T xs v).
  - intros tok Hd. unfold parse_arg.
    destruct tok as [|c tok]; [done|]. simpl in Hd. simpl. by rewrite Hd.
Qed.

Lemma list_option_consumption_witness :
  reaches ["prog"; "--name"; "a"; "b"; "-x"] names_parser two_lists 4
    (mark_parsed 0 (parse_program "prog" names_parser))
    (<[0 := VVector TText ["a"; "b"]]> two_lists)
    (with_lastOption (Some 0) locals0)
  ∧ reaches ["prog"; "--name"; "a"; "b"] names_files_parser two_lists 3
      (mark_parsed 0 (parse_program "prog" names_files_parser))
      (<[0 := VVector TText ["a"]]> two_lists)
      locals0
  ∧ parse_arg false "-x" (parse_program "prog" names_parser) two_lists
      (with_lastOption (Some 0) locals0)
    = parse_arg false "-x" (parse_program "prog" names_parser) two_lists
        locals0
  ∧ parse_arg false "" (parse_program "prog" names_parser) two_lists
      (with_lastOption (Some 0) locals0)
    = Continue (parse_program "prog" names_parser) two_lists
        (with_lastOption (Some 0) locals0).
Proof.
  pose (opt := Option.Option list_ 0 (parseList TText) "name,n" "" 0).
  assert (reaches ["prog"; "--name"; "a"; "b"; "-x"] names_parser two_lists 2
            (parse_program "prog" names_parser) two_lists
            (with_lastOption (Some 0) locals0)) as Hgreedy.
  { exists "prog". split; [reflexivity|]. split; [lia | reflexivity]. }
  assert (reaches ["prog"; "--name"; "a"; "b"] names_files_parser two_lists 2
            (parse_program "prog" names_files_parser) two_lists
            (with_lastOption (Some 0) locals0)) as Hone.
  { exists "prog". split; [reflexivity|]. split; [lia | reflexivity]. }
  split; [|split; [|split]].
  - apply (proj1 (list_option_consumption _ _ _ _ _ _ _ 0 opt TText []
                    Hgreedy eq_refl eq_refl eq_refl eq_refl eq_refl)
             eq_refl ["a"; "b"] ["a"; "b"]).
    + discriminate.
    + intros [|[|j]] Hj; [reflexivity..|simpl in Hj; lia].
    + repeat constructor.
    + repeat constructor.
  - apply (proj1 (proj2 (list_option_consumption _ _ _ _ _ _ _ 0 opt TText []
                           Hone eq_refl eq_refl eq_refl eq_refl eq_refl))
             eq_refl "a" "a").
    + reflexivity.
    + split; reflexivity.
    + reflexivity.
  - apply (proj1 (proj2 (proj2
             (list_option_consumption _ _ _ _ _ _ _ 0 opt TText []
                Hgreedy eq_refl eq_refl eq_refl eq_refl eq_refl)))
             "-x").
    reflexivity.
  - apply (proj2 (proj2 (proj2
             (list_option_consumption _ _ _ _ _ _ _ 0 opt TText []
                Hgreedy eq_refl eq_refl eq_refl eq_refl eq_refl)))).
Defined.

(** Both halves of C4 from the outside: the greedy list passes over the
    empty argument and takes [a] and [b]; with a positional list
    registered as well, [b] goes there. *)
Example greedy_list_scenario :
  observe (parse 5 ["prog"; "--name"; "a"; ""; "b"] names_parser two_lists)
    = Some (true, "", [true], <[0 := VVector TText ["a"; "b"]]> two_lists)
  ∧ observe (parse 4 ["prog"; "--name"; "a"; "b"] names_files_parser two_lists)
    = Some (true, "", [true; true],
            <[1 := VVector TText ["b"]]>
              (<[0 := VVector TText ["a"]]> two_lists)).
Proof. split; reflexivity. Qed.

(** ** Unknown options that are skipped *)

Lemma findOption_name_unknown name p :
  skipUnknown_ p = true →
  (∀ opt, opt ∈ options_ p → Option.name opt ≠ name) →
  findOption_name name p = (None, p).
Proof.
  intros Hskip Hnone. unfold findOption_name.
  destruct (list_find _ _) as [[i opt]|] eqn:Hfind.
  - apply list_find_Some in Hfind as (Hi & Hname & _).
    destruct (Hnone opt); [|done]. by eapply list_elem_of_lookup_2.
  - by rewrite Hskip.
Qed.

(** ** Reads of [argv] *)

Lemma parse_bundle_fault name p m l f :
  parse_bundle name p m l = Undefined f → f = BadPointer.
Proof.
  revert p m. induction name as [|c name IH]; intros p m; simpl; [done|].
  destruct (findOption_optChar c p) as [[i|] p1].
  - destruct (options_ p1 !! i) as [opt|]; [|by intros [= <-]].
    destruct (decide (Option.type opt ≠ flag)); [done|].
    destruct (invoke i "" (mark_parsed i p1) m); [apply IH | by intros [= <-]].
  - destruct (skipUnknown_ p1); [apply IH | done].
Qed.

Lemma parse_resolved_fault h tok hv v m l r f :
  parse_resolved h tok hv v m l r = Undefined f → f = BadPointer.
Proof.
  unfold parse_resolved. destruct r as [[i|] p].
  - destruct (options_ p !! i) as [opt|]; [|by intros [= <-]].
    destruct (decide (Option.type opt = flag)).
    + destruct hv; [done|].
      destruct (invoke i "" (mark_parsed i p) m); [done | by intros [= <-]].
    + destruct hv; simpl; [|done].
      destruct (parseOption i v (mark_parsed i p) m) as [[[[|] ?] ?]|];
        [|done|by intros [= <-]].
      by destruct (bool_decide _ && negb h).
  - by destruct (skipUnknown_ p).
Qed.

(** The loop body reads no element of [argv]: its only fault is a bad
    binder pointer. *)
Lemma parse_arg_fault h tok p m l f :
  parse_arg h tok p m l = Undefined f → f = BadPointer.
Proof.
  unfold parse_arg.
  destruct (sv.empty tok); [done|].
  destruct (sv.starts_with "-" tok); simpl.
  - destruct (negb _ && _).
    + destruct (sv.empty _); [done|]. case_bool_decide; [done|].
      apply parse_resolved_fault.
    + destruct (sv.empty _); [done|]. case_bool_decide; [done|].
      destruct (match sv.find "=" _ with Some k => _ | None => _ end)
        as [|c [|c' name]].
      * by case_bool_decide.
      * apply parse_resolved_fault.
      * case_bool_decide; [done|]. apply parse_bundle_fault.
  - destruct (lastOptionUnknown l); [done|].
    destruct (lastOption l) as [i|].
    + destruct (parseOption i tok (mark_parsed i p) m) as [[[[|] p1] m2]|];
        [|done|by intros [= <-]].
      destruct (options_ p1 !! i) as [opt|]; [|by intros [= <-]].
      by destruct (bool_decide _ || h).
    + destruct (findOption_position _ p) as [i|]; [|done].
      by destruct (parseOption i tok (mark_parsed i p) m)
        as [[[[|] p1] m2]|]; [| |intros [= <-]].
Qed.

Lemma argv_at_is_Some argv k :
  (0 ≤ k < Z.of_nat (length argv))%Z → is_Some (argv_at argv k).
Proof.
  intros Hk. unfold argv_at. destruct (Z.ltb_spec k 0); [lia|].
  apply lookup_lt_is_Some. lia.
Qed.

Lemma parse_loop_fault h argv ks p m l f :
  Forall (λ k, (0 ≤ k < Z.of_nat (length argv))%Z) ks →
  parse_loop h argv ks p m l = Undefined f → f = BadPointer.
Proof.
  intros Hks. revert p m l.
  induction Hks as [|k ks Hk _ IH]; intros p m l; simpl; [done|].
  destruct (argv_at_is_Some argv k Hk) as [tok ->].
  destruct (parse_arg h tok p m l) as [p1 m1 l1| |f'] eqn:Harg;
    [apply IH|done|].
  intros [= <-]. by eapply parse_arg_fault.
Qed.

(** C9.  [parse] reads [argv[0]] first, whatever [argc] is: for an
    [argv] of [argc] strings it reads outside of them exactly when
    [argc] is 0, and with [argc >= 1] no read of [argv], in the loop or
    after it, is out of bounds. *)
Theorem parse_argv_bounds (argc : Z) (argv : list string)
    (p : CommandLineParser) (m : Memory) :
  Z.of_nat (length argv) = argc →
  parse argc argv p m = Faults OutOfBounds ↔ argc = 0%Z.
Proof.
  intros Hlen. split.
  - intros Hparse. destruct (decide (argc = 0%Z)) as [|Hne]; [done|].
    exfalso. revert Hparse. unfold parse.
    destruct (argv_at_is_Some argv 0 ltac:(lia)) as [argv0 ->].
    destruct (parse_loop _ _ _ _ _ _) as [p1 m1 l1| |f] eqn:Hloop; simpl.
    + destruct (lastOption l1) as [i|]; [|done].
      destruct (options_ p1 !! i) as [opt|]; [|done].
      destruct (Option.parsed opt); [done|].
      by destruct (argv_at_is_Some argv (argc - 1) ltac:(lia)) as [a ->].
    + done.
    + apply parse_loop_fault in Hloop as ->; [done|].
      apply Forall_forall. intros k Hk%list_elem_of_lookup.
      destruct Hk as [j Hk]. apply lookup_seqZ in Hk. lia.
  - intros ->. by destruct argv.
Qed.

Lemma parse_argv_bounds_witness :
  parse 2 ["prog"; "--compression"] test_parser test_memory
    = Faults OutOfBounds ↔ 2%Z = 0%Z.
Proof. apply parse_argv_bounds. reflexivity. Defined.

(** The read of [argv[0]] with no string behind it. *)
Example parse_without_arguments :
  parse 0 [] test_parser test_memory = Faults OutOfBounds.
Proof. reflexivity. Qed.

(** ** [parse] returns *)

Lemma call_binds fn x str :
  binds fn x → ∃ b x', call fn x str = Some (b, x') ∧ same_type x x'.
Proof.
  destruct fn as [|T|T], x as [b|t v|t l]; simpl; try done.
  - by eexists _, _.
  - intros ->. destruct (decide (t = t)); [|done]. by eexists _, _.
  - intros ->. destruct (decide (t = t)); [|done]. by eexists _, _.
Qed.

Lemma binds_same_type fn x x' : binds fn x → same_type x x' → binds fn x'.
Proof.
  destruct fn, x, x'; simpl; try done; congruence.
Qed.

Lemma same_type_refl x : same_type x x.
Proof. by destruct x. Qed.

Lemma well_bound_mark_parsed i p m :
  well_bound p m → well_bound (mark_parsed i p) m.
Proof.
  intros Hwb j opt. destruct (decide (i = j)) as [->|Hne].
  - rewrite options_mark_parsed_eq.
    destruct (options_ p !! j) as [opt0|] eqn:Hj; [|done].
    intros [= <-]. apply (Hwb j opt0 Hj).
  - rewrite options_mark_parsed_ne by done. apply Hwb.
Qed.

Lemma well_bound_with_error e p m :
  well_bound p m → well_bound (with_error e p) m.
Proof. done. Qed.

(** A binder call on a well-bound table is defined, and the table stays
    well bound. *)
Lemma invoke_well_bound i v p m :
  well_bound p m →
  i < length (options_ p) →
  ∃ b m', invoke i v p m = Some (b, m') ∧ well_bound p m'.
Proof.
  intros Hwb Hi. unfold invoke.
  destruct (lookup_lt_is_Some_2 _ _ Hi) as [opt Hopt]. rewrite Hopt.
  destruct (Hwb i opt Hopt) as (x & Hx & Hb). rewrite Hx.
  destruct (call_binds _ _ v Hb) as (b & x' & -> & Hty).
  exists b, (<[Option.value opt := x']> m). split; [done|].
  intros j opt' Hj. destruct (Hwb j opt' Hj) as (y & Hy & Hby).
  destruct (decide (Option.value opt = Option.value opt')) as [Heq|Hne].
  - exists x'. rewrite Heq, lookup_insert_eq. split; [done|].
    rewrite Heq, Hy in Hx. injection Hx as ->.
    by eapply binds_same_type.
  - exists y. by rewrite lookup_insert_ne.
Qed.

Lemma length_options_mark_parsed i p :
  length (options_ (mark_parsed i p)) = length (options_ p).
Proof. apply length_alter. Qed.

(** Setting [parsed] and calling [parseOption], as the loop does. *)
Lemma parseOption_well_bound i v p m :
  well_bound p m →
  i < length (options_ p) →
  ∃ b p' m',
    parseOption i v (mark_parsed i p) m = Some (b, p', m')
    ∧ well_bound p' m'
    ∧ length (options_ p') = length (options_ p).
Proof.
  intros Hwb Hi.
  destruct (invoke_well_bound i v (mark_parsed i p) m) as (b & m' & Hinv & Hwb').
  { by apply well_bound_mark_parsed. }
  { by rewrite length_options_mark_parsed. }
  unfold parseOption. rewrite Hinv.
  destruct b; eexists _, _, _; (split; [done|]);
    (split; [done | apply length_options_mark_parsed]).
Qed.

Lemma findOption_name_valid name p i :
  (findOption_name name p).1 = Some i → i < length (options_ p).
Proof.
  unfold findOption_name.
  destruct (list_find _ _) as [[j opt]|] eqn:Hfind; simpl; [|done].
  intros [= <-]. apply list_find_Some in Hfind as [Hj _].
  by eapply lookup_lt_Some.
Qed.

Lemma findOption_optChar_valid c p i :
  (findOption_optChar c p).1 = Some i → i < length (options_ p).
Proof.
  unfold findOption_optChar.
  destruct (list_find _ _) as [[j opt]|] eqn:Hfind; simpl; [|done].
  intros [= <-]. apply list_find_Some in Hfind as [Hj _].
  by eapply lookup_lt_Some.
Qed.

Lemma findOption_position_valid slot p i :
  findOption_position slot p = Some i → i < length (options_ p).
Proof.
  unfold findOption_position.
  destruct (findOption_position_loop_spec slot (options_ p) 0 None)
    as [(j & -> & (opt & Hopt & _) & _)
       | [_ [(j & -> & (opt & Hopt & _) & _) | [-> _]]]];
    [intros [= <-]; by eapply lookup_lt_Some..|done].
Qed.

Lemma findOption_name_options name p :
  options_ (findOption_name name p).2 = options_ p.
Proof.
  unfold findOption_name.
  destruct (list_find _ _) as [[j opt]|]; [done|]. by destruct (skipUnknown_ p).
Qed.

Lemma findOption_optChar_options c p :
  options_ (findOption_optChar c p).2 = options_ p.
Proof.
  unfold findOption_optChar.
  destruct (list_find _ _) as [[j opt]|]; [done|]. by destruct (skipUnknown_ p).
Qed.

Local Ltac solve_length :=
  simpl; rewrite ?length_options_mark_parsed, ?length_alter;
  congruence || lia.

Lemma parse_bundle_total name p m l :
  well_bound p m →
  valid_locals p l →
  loop_invariant (length (options_ p)) (parse_bundle name p m l).
Proof.
  revert p m. induction name as [|c name IH]; intros p m Hwb Hl; simpl.
  { done. }
  pose proof (findOption_optChar_valid c p) as Hvalid.
  pose proof (findOption_optChar_options c p) as Hopts.
  destruct (findOption_optChar c p) as [[i|] p1] eqn:Hfind; simpl in *.
  - specialize (Hvalid i eq_refl).
    assert (well_bound p1 m) as Hwb1
      by (intros j opt; rewrite Hopts; apply Hwb).
    destruct (lookup_lt_is_Some_2 (options_ p1) i) as [opt Hopt];
      [by rewrite Hopts|]. rewrite Hopt.
    destruct (decide (Option.type opt ≠ flag)); [done|].
    destruct (invoke_well_bound i "" (mark_parsed i p1) m)
      as (b & m' & -> & Hwb').
    { by apply well_bound_mark_parsed. }
    { by rewrite length_options_mark_parsed, Hopts. }
    simpl. rewrite <-Hopts, <-(length_options_mark_parsed i p1).
    apply IH; [done|]. intros j Hj.
    rewrite length_options_mark_parsed, Hopts. by apply Hl.
  - destruct (skipUnknown_ p1); [|done].
    rewrite <-Hopts. apply IH.
    + intros j opt; rewrite Hopts; apply Hwb.
    + intros j Hj. rewrite Hopts. by apply Hl.
Qed.

Lemma parse_resolved_total h tok hv v m l r p :
  well_bound p m →
  lastOption l = None →
  options_ r.2 = options_ p →
  (∀ i, r.1 = Some i → i < length (options_ p)) →
  loop_invariant (length (options_ p)) (parse_resolved h tok hv v m l r).
Proof.
  intros Hwb Hl Hopts Hvalid. unfold parse_resolved.
  destruct r as [[i|] p1]; simpl in *.
  - specialize (Hvalid i eq_refl).
    assert (well_bound p1 m) as Hwb1
      by (intros j opt; rewrite Hopts; apply Hwb).
    destruct (lookup_lt_is_Some_2 (options_ p1) i) as [opt Hopt];
      [by rewrite Hopts|]. rewrite Hopt.
    destruct (decide (Option.type opt = flag)).
    + destruct hv; [done|].
      destruct (invoke_well_bound i "" (mark_parsed i p1) m)
        as (b & m' & -> & Hwb').
      { by apply well_bound_mark_parsed. }
      { by rewrite length_options_mark_parsed, Hopts. }
      simpl. split; [done|]. split; [intros j Hj; simpl in Hj; congruence|].
      solve_length.
    + destruct hv; simpl.
      * destruct (parseOption_well_bound i v p1 m) as (b & p2 & m2 & -> & Hwb2 & Hlen);
          [done | by rewrite Hopts|].
        destruct b; [|done].
        destruct (bool_decide _ && negb h); simpl.
        -- split; [done|]. split; [|by rewrite Hlen, Hopts].
           intros j [= <-]. by rewrite Hlen, Hopts.
        -- split; [done|]. split; [intros j Hj; simpl in Hj; congruence|].
           by rewrite Hlen, Hopts.
      * split; [done|]. split; [|by rewrite Hopts].
        intros j [= <-]. by rewrite Hopts.
  - destruct (skipUnknown_ p1); [|done]. simpl.
    split; [intros j opt; rewrite Hopts; apply Hwb|].
    split; [intros j Hj; simpl in Hj; congruence | by rewrite Hopts].
Qed.

(** On a well-bound table the loop body has no undefined behaviour, and
    it leaves the table well bound. *)
Lemma parse_arg_total h tok p m l :
  well_bound p m →
  valid_locals p l →
  loop_invariant (length (options_ p)) (parse_arg h tok p m l).
Proof.
  intros Hwb Hl. unfold parse_arg.
  destruct (sv.empty tok); [done|].
  destruct (sv.starts_with "-" tok); simpl.
  - destruct (negb _ && _).
    + destruct (sv.empty _); [done|]. case_bool_decide; [done|].
      apply parse_resolved_total; [done..| |].
      * apply findOption_name_options.
      * apply findOption_name_valid.
    + destruct (sv.empty _); [done|]. case_bool_decide; [done|].
      destruct (match sv.find "=" _ with Some k => _ | None => _ end)
        as [|c [|c' name]].
      * by case_bool_decide.
      * apply parse_resolved_total; [done..| |].
        -- apply findOption_optChar_options.
        -- apply findOption_optChar_valid.
      * case_bool_decide; [done|]. by apply parse_bundle_total.
  - destruct (lastOptionUnknown l); [done|].
    destruct (lastOption l) as [i|] eqn:Hlast.
    + destruct (parseOption_well_bound i tok p m) as (b & p2 & m2 & -> & Hwb2 & Hlen);
        [done | by apply Hl|].
      destruct b; [|done].
      destruct (lookup_lt_is_Some_2 (options_ p2) i) as [opt ->];
        [rewrite Hlen; by apply Hl|].
      destruct (bool_decide _ || h); simpl.
      * split; [done|]. by split; [intros j [=]|].
      * split; [done|]. split; [|done].
        intros j Hj. rewrite Hlen. by apply Hl.
    + destruct (findOption_position _ p) as [i|] eqn:Hfind; [|done].
      apply findOption_position_valid in Hfind.
      destruct (parseOption_well_bound i tok p m) as (b & p2 & m2 & -> & Hwb2 & Hlen);
        [done..|].
      destruct b; [|done]. simpl.
      split; [done|]. split; [|done]. intros j Hj. simpl in Hj. congruence.
Qed.

Lemma parse_loop_total h argv ks p m l :
  Forall (λ k, (0 ≤ k < Z.of_nat (length argv))%Z) ks →
  well_bound p m →
  valid_locals p l →
  loop_invariant (length (options_ p)) (parse_loop h argv ks p m l).
Proof.
  intros Hks. revert p m l.
  induction Hks as [|k ks Hk _ IH]; intros p m l Hwb Hl; simpl; [done|].
  destruct (argv_at_is_Some argv k Hk) as [tok ->].
  pose proof (parse_arg_total h tok p m l Hwb Hl) as Harg.
  destruct (parse_arg h tok p m l) as [p1 m1 l1| |]; [|done..].
  destruct Harg as (Hwb1 & Hl1 & <-). by apply IH.
Qed.

(** On a well-bound table and an [argv] of [argc >= 1] strings, [parse]
    returns. *)
Lemma parse_returns argc argv p m :
  well_bound p m →
  (1 ≤ argc)%Z →
  Z.of_nat (length argv) = argc →
  ∃ b p' m', parse argc argv p m = Returns b p' m'.
Proof.
  intros Hwb Hargc Hlen. unfold parse.
  destruct (argv_at_is_Some argv 0 ltac:(lia)) as [argv0 ->].
  set (p0 := parse_program argv0 p).
  assert (well_bound p0 m) as Hwb0
    by (intros j opt; unfold p0; rewrite options_parse_program; apply Hwb).
  pose proof (parse_loop_total (has_positional p0) argv (seqZ 1 (argc - 1))
                p0 m locals0) as Hloop.
  destruct (parse_loop _ _ _ _ _ _) as [p1 m1 l1|b p1 m1|f]; simpl.
  - destruct Hloop as (Hwb1 & Hl1 & Hlen1); [|done|done|].
    { apply Forall_forall. intros k Hk%list_elem_of_lookup.
      destruct Hk as [j Hk]. apply lookup_seqZ in Hk. lia. }
    destruct (lastOption l1) as [i|] eqn:Hlast; [|by eexists _, _, _].
    destruct (lookup_lt_is_Some_2 (options_ p1) i) as [opt ->];
      [by apply Hl1|].
    destruct (Option.parsed opt); [by eexists _, _, _|].
    destruct (argv_at_is_Some argv (argc - 1) ltac:(lia)) as [a ->].
    by eexists _, _, _.
  - by eexists _, _, _.
  - destruct Hloop; [|done|done].
    apply Forall_forall. intros k Hk%list_elem_of_lookup.
    destruct Hk as [j Hk]. apply lookup_seqZ in Hk. lia.
Qed.

(** *** Registration keeps the table well bound *)

Lemma Option_value ty a fn spec help pos :
  Option.value (Option.Option ty a fn spec help pos) = a.
Proof.
  unfold Option.Option.
  by repeat (destruct (sv.find _ _); simpl).
Qed.

Lemma Option_parse ty a fn spec help pos :
  Option.parse (Option.Option ty a fn spec help pos) = fn.
Proof.
  unfold Option.Option.
  by repeat (destruct (sv.find _ _); simpl).
Qed.

Lemma well_bound_new m : well_bound CommandLineParser_new m.
Proof. by intros i opt. Qed.

Lemma well_bound_emplace ty a fn spec help pos x p m :
  well_bound p m →
  m !! a = Some x →
  binds fn x →
  well_bound
    (with_options (options_ p ++ [Option.Option ty a fn spec help pos]) p) m.
Proof.
  intros Hwb Hx Hb i opt. simpl. intros Hi.
  apply lookup_app_Some in Hi as [Hi | [_ Hi]]; [by eapply Hwb|].
  apply list_lookup_singleton_Some in Hi as [_ <-].
  exists x. by rewrite Option_value, Option_parse.
Qed.

Lemma well_bound_addFlag a b spec help p m :
  well_bound p m →
  m !! a = Some (VBool b) →
  well_bound (addFlag a spec help p) m.
Proof. intros. by eapply well_bound_emplace. Qed.

Lemma well_bound_add T a v spec help pos p m :
  well_bound p m →
  m !! a = Some (VScalar T v) →
  well_bound (add T a spec help pos p) m.
Proof. intros. by eapply well_bound_emplace. Qed.

Lemma well_bound_add_vector T a vs spec help pos p m :
  well_bound p m →
  m !! a = Some (VVector T vs) →
  well_bound (add_vector T a spec help pos p) m.
Proof. intros. by eapply well_bound_emplace. Qed.

Lemma well_bound_test_parser : well_bound test_parser test_memory.
Proof.
  apply (well_bound_add_vector TText _ []); [|reflexivity].
  apply (well_bound_add (TOptional (TIntegral int_)) _ None); [|reflexivity].
  apply (well_bound_addFlag _ false); [|reflexivity].
  apply well_bound_new.
Defined.

(** ** The program name *)

Lemma parse_bundle_program name p m l :
  match parse_bundle name p m l with
  | Continue p' _ _ | Return _ p' _ => program_ p' = program_ p
  | Undefined _ => True
  end.
Proof.
  revert p m. induction name as [|c name IH]; intros p m; simpl; [done|].
  unfold findOption_optChar.
  destruct (list_find _ _) as [[i opt0]|].
  - destruct (options_ p !! i) as [opt|]; [|done].
    destruct (decide (Option.type opt ≠ flag)); [done|].
    destruct (invoke i "" (mark_parsed i p) m); [|done].
    apply (IH (mark_parsed i p)).
  - destruct (skipUnknown_ p) eqn:Hskip; simpl; rewrite ?Hskip;
      [apply IH | done].
Qed.

Lemma parseOption_program i v p m b p' m' :
  parseOption i v p m = Some (b, p', m') → program_ p' = program_ p.
Proof.
  unfold parseOption.
  destruct (invoke i v p m) as [[[|] ?]|]; [| |done]; by intros [= _ <- _].
Qed.

Lemma parse_resolved_program h tok hv v m l r :
  match parse_resolved h tok hv v m l r with
  | Continue p' _ _ | Return _ p' _ => program_ p' = program_ r.2
  | Undefined _ => True
  end.
Proof.
  unfold parse_resolved. destruct r as [[i|] p]; simpl.
  - destruct (options_ p !! i) as [opt|]; [|done].
    destruct (decide (Option.type opt = flag)).
    + destruct hv; [done|].
      by destruct (invoke i "" (mark_parsed i p) m).
    + destruct hv; simpl; [|done].
      destruct (parseOption i v (mark_parsed i p) m) as [[[b p1] m1]|] eqn:Hpo;
        [|done].
      apply parseOption_program in Hpo.
      destruct b; [by destruct (bool_decide _ && negb h) | done].
  - by destruct (skipUnknown_ p).
Qed.

Lemma findOption_name_program name p :
  program_ (findOption_name name p).2 = program_ p.
Proof.
  unfold findOption_name.
  destruct (list_find _ _) as [[i opt]|]; [done|]. by destruct (skipUnknown_ p).
Qed.

Lemma findOption_optChar_program c p :
  program_ (findOption_optChar c p).2 = program_ p.
Proof.
  unfold findOption_optChar.
  destruct (list_find _ _) as [[i opt]|]; [done|]. by destruct (skipUnknown_ p).
Qed.

(** The loop body never assigns to [program_]. *)
Lemma parse_arg_program h tok p m l :
  match parse_arg h tok p m l with
  | Continue p' _ _ | Return _ p' _ => program_ p' = program_ p
  | Undefined _ => True
  end.
Proof.
  unfold parse_arg.
  destruct (sv.empty tok); [done|].
  destruct (sv.starts_with "-" tok); simpl.
  - destruct (negb _ && _).
    + destruct (sv.empty _); [done|]. case_bool_decide; [done|].
      rewrite <-(findOption_name_program
                   match sv.find "=" (sv.drop 1 (sv.drop 1 tok)) with
                   | Some k => sv.take k (sv.drop 1 (sv.drop 1 tok))
                   | None => sv.drop 1 (sv.drop 1 tok)
                   end p).
      apply parse_resolved_program.
    + destruct (sv.empty _); [done|]. case_bool_decide; [done|].
      destruct (match sv.find "=" _ with Some k => _ | None => _ end)
        as [|c [|c' name]].
      * by case_bool_decide.
      * rewrite <-(findOption_optChar_program c p).
        apply parse_resolved_program.
      * case_bool_decide; [done|]. apply parse_bundle_program.
  - destruct (lastOptionUnknown l); [done|].
    destruct (lastOption l) as [i|].
    + destruct (parseOption i tok (mark_parsed i p) m) as [[[b p1] m1]|] eqn:Hpo;
        [|done].
      apply parseOption_program in Hpo.
      destruct b; [|done].
      destruct (options_ p1 !! i) as [opt|]; [|done].
      by destruct (bool_decide _ || h).
    + destruct (findOption_position _ p) as [i|]; [|done].
      destruct (parseOption i tok (mark_parsed i p) m) as [[[b p1] m1]|] eqn:Hpo;
        [|done].
      apply parseOption_program in Hpo. by destruct b.
Qed.

Lemma parse_loop_program h argv ks p m l :
  match parse_loop h argv ks p m l with
  | Continue p' _ _ | Return _ p' _ => program_ p' = program_ p
  | Undefined _ => True
  end.
Proof.
  revert p m l. induction ks as [|k ks IH]; intros p m l; simpl; [done|].
  destruct (argv_at argv k) as [tok|]; [|done].
  pose proof (parse_arg_program h tok p m l) as Harg.
  destruct (parse_arg h tok p m l) as [p1 m1 l1| |]; [|done..].
  specialize (IH p1 m1 l1).
  destruct (parse_loop h argv ks p1 m1 l1); congruence.
Qed.

Lemma find_separator c :
  is_Some (sv.find c "/\") ↔ is_separator c.
Proof.
  unfold is_separator. cbn [sv.find].
  destruct (Ascii.eqb_spec "/" c) as [<-|H1]; [split; eauto|].
  destruct (Ascii.eqb_spec "\" c) as [<-|H2]; [split; eauto|].
  simpl. split; [by intros [? [=]] | intros [|]; congruence].
Qed.

Lemma find_last_of_separator s :
  match sv.find_last_of "/\" s with
  | Some k =>
      ∃ dir c base,
        s = dir +:+ String c base ∧ sv.size dir = k
        ∧ is_separator c ∧ separator_free base
  | None => separator_free s
  end.
Proof.
  induction s as [|d s IH]; [done|]. cbn [sv.find_last_of].
  destruct (sv.find_last_of "/\" s) as [k|].
  - destruct IH as (dir & c & base & -> & <- & Hc & Hbase).
    by exists (String d dir), c, base.
  - case_bool_decide as Hd.
    + apply find_separator in Hd. by exists "", d, s.
    + split; [|done]. by rewrite <-find_separator.
Qed.

Lemma parse_program_basename argv0 p :
  basename_of argv0 (program_ (parse_program argv0 p)).
Proof.
  unfold parse_program. simpl.
  pose proof (find_last_of_separator argv0) as Hsep.
  destruct (sv.find_last_of "/\" argv0) as [k|]; simpl.
  - destruct Hsep as (dir & c & base & -> & <- & Hc & Hbase).
    rewrite sv_drop_app_S. by constructor.
  - by constructor.
Qed.

(** C10.  A call of [parse] with [argc >= 1] replaces the stored
    program name by the part of [argv[0]] after its last [/] or [\]:
    with or without an earlier [setProgram], [parse] ends in the same
    parser, so a help text made afterwards is the same.  On a table
    bound through the public interface the call does return. *)
Theorem parse_overwrites_program (argc : Z) (argv : list string)
    (name argv0 : string) (p : CommandLineParser) (m : Memory) :
  (1 ≤ argc)%Z →
  argv_at argv 0 = Some argv0 →
  parse argc argv (setProgram name p) m = parse argc argv p m
  ∧ help_after (parse argc argv (setProgram name p) m)
    = help_after (parse argc argv p m)
  ∧ (∀ b p' m',
       parse argc argv p m = Returns b p' m' →
       basename_of argv0 (program_ p'))
  ∧ (well_bound p m →
     Z.of_nat (length argv) = argc →
     ∃ b p' m', parse argc argv p m = Returns b p' m').
Proof.
  intros Hargc H0.
  assert (parse argc argv (setProgram name p) m = parse argc argv p m) as Heq.
  { unfold parse. by rewrite H0. }
  split; [done|]. split; [by rewrite Heq|].
  split; [|intros Hwb Hlen; by apply parse_returns].
  intros b p' m'. unfold parse. rewrite H0.
  pose proof (parse_loop_program (has_positional (parse_program argv0 p)) argv
                (seqZ 1 (argc - 1)) (parse_program argv0 p) m locals0) as Hprog.
  pose proof (parse_program_basename argv0 p) as Hbase.
  destruct (parse_loop _ _ _ _ _ _) as [p1 m1 l1|b1 p1 m1|]; simpl; [| |done].
  - destruct (lastOption l1) as [i|].
    + destruct (options_ p1 !! i) as [opt|]; [|done].
      destruct (Option.parsed opt).
      * intros [= _ <- _]. by rewrite Hprog.
      * destruct (argv_at argv (argc - 1)); [|done].
        intros [= _ <- _]. simpl. by rewrite Hprog.
    + intros [= _ <- _]. by rewrite Hprog.
  - intros [= _ <- _]. by rewrite Hprog.
Qed.

Lemma parse_overwrites_program_witness :
  parse 2 ["/usr/bin/prog"; "-h"] (setProgram "tool" test_parser) test_memory
    = parse 2 ["/usr/bin/prog"; "-h"] test_parser test_memory
  ∧ help_after
      (parse 2 ["/usr/bin/prog"; "-h"] (setProgram "tool" test_parser)
         test_memory)
    = help_after (parse 2 ["/usr/bin/prog"; "-h"] test_parser test_memory)
  ∧ ∃ b p' m',
      parse 2 ["/usr/bin/prog"; "-h"] test_parser test_memory
        = Returns b p' m'
      ∧ basename_of "/usr/bin/prog" (program_ p').
Proof.
  pose proof (parse_overwrites_program 2 ["/usr/bin/prog"; "-h"] "tool"
                "/usr/bin/prog" test_parser test_memory
                ltac:(lia) eq_refl) as (Heq & Hhelp & Hbase & Hret).
  split; [exact Heq|]. split; [exact Hhelp|].
  destruct (Hret well_bound_test_parser eq_refl) as (b & p' & m' & Hparse).
  exists b, p', m'. split; [exact Hparse|]. exact (Hbase b p' m' Hparse).
Defined.

(** The name given to [setProgram] is gone from the help text. *)
Example help_after_setProgram :
  help_after
    (parse 2 ["/usr/bin/prog"; "-h"] (setProgram "tool" test_parser)
       test_memory)
  = Some ("usage: prog [options] path..." +:+ nl
          +:+ "allowed options:" +:+ nl
          +:+ "  -h [ --help ]              : print help" +:+ nl
          +:+ "  -c [ --compression ] level : compression level" +:+ nl
          +:+ "positional arguments:" +:+ nl
          +:+ "  path : file path(s)" +:+ nl).
Proof. reflexivity. Qed.

(** ** Registration, parsing and help of one option *)

Lemma append_cons d a b : String d a +:+ b = String d (a +:+ b).
Proof. reflexivity. Qed.

Lemma append_assoc a b c : (a +:+ b) +:+ c = a +:+ b +:+ c.
Proof.
  induction a as [|d a IH]; [done|]. rewrite !append_cons. by f_equal.
Qed.

Lemma sv_size_append a b : sv.size (a +:+ b) = sv.size a + sv.size b.
Proof.
  induction a as [|d a IH]; [done|]. rewrite append_cons. simpl. by f_equal.
Qed.

Lemma contains_prefix needle hay :
  String.prefix needle hay = true → sv.contains needle hay = true.
Proof. intros H. destruct hay; simpl in *; by rewrite H. Qed.

Lemma contains_append needle a b :
  sv.contains needle b = true → sv.contains needle (a +:+ b) = true.
Proof.
  intros H. induction a as [|d a IH]; [done|].
  rewrite append_cons. cbn [sv.contains]. rewrite IH. apply orb_true_r.
Qed.

Lemma prefix_append a b : String.prefix a (a +:+ b) = true.
Proof.
  induction a as [|d a IH]; [by destruct b|].
  rewrite append_cons. simpl. by destruct (ascii_dec d d).
Qed.

Lemma append_nil_l a : "" +:+ a = a.
Proof. reflexivity. Qed.

Lemma append_nil_r a : a +:+ "" = a.
Proof. induction a as [|d a IH]; [done|]. rewrite append_cons. by f_equal. Qed.

(** [formatOptName] appends the name it would write into an empty buffer
    and returns the length of that name. *)
Lemma formatOptName_append opt r :
  formatOptName opt r =
  (sv.size (formatOptName opt "").2, r +:+ (formatOptName opt "").2).
Proof.
  unfold formatOptName.
  destruct (sv.empty (Option.name opt)), (sv.empty (Option.flags opt)),
    (sv.empty (Option.hint opt)), (decide (Option.type opt ≠ flag));
    cbn [andb negb fst snd];
    rewrite ?append_nil_l, ?append_assoc, ?sv_size_append, ?append_nil_r;
    f_equal; simpl; lia.
Qed.

(** A line of the help text holds the name of its option. *)
Lemma help_line_contains width r opt :
  sv.contains (formatOptName opt "").2 (help_line width r opt) = true.
Proof.
  unfold help_line. rewrite (formatOptName_append opt (r +:+ "  ")).
  set (n := (formatOptName opt "").2). cbv beta iota.
  destruct (sv.size n <? width), (negb (sv.empty (Option.help opt)));
    rewrite ?append_assoc; do 2 apply contains_append;
    apply contains_prefix, prefix_append.
Qed.

(** C8.  After registering an option with the specification
    "+name,x,HINT" and parsing an [argv] with "--name=1", the option is
    required and satisfied ([parsed] is true and [checkRequired]
    succeeds), and the help text contains "-x [ --name ] HINT". *)
Theorem required_option_round_trip (T : ScalarType) (a : nat)
    (help prog : string) (position : Z) (m : Memory) (v0 v1 : scalar T) :
  m !! a = Some (VScalar T v0) →
  parse_scalar T "1" v0 = (true, v1) →
  let p := add T a "+name,x,HINT" help position CommandLineParser_new in
  ∃ p' opt,
    parse 2 [prog; "--name=1"] p m = Returns true p' (<[a := VScalar T v1]> m)
    ∧ options_ p' = [opt]
    ∧ Option.required opt = true
    ∧ Option.parsed opt = true
    ∧ (checkRequired p').1 = true
    ∧ sv.contains "-x [ --name ] HINT" (getHelp p') = true.
Proof.
  intros Hm Hv p.
  set (opt0 := Option.Option param a (parseValue T) "+name,x,HINT" help position).
  set (p0 := parse_program prog p).
  assert (options_ p0 = [opt0]) as Hopts by apply options_parse_program.
  exists (mark_parsed 0 p0), (Option.set_parsed opt0).
  assert (options_ (mark_parsed 0 p0) = [Option.set_parsed opt0]) as Hopts'.
  { simpl. by rewrite Hopts. }
  split; [|split; [done|split; [done|split; [done|split]]]].
  - unfold parse. change (argv_at [prog; "--name=1"] 0) with (Some prog).
    cbv beta iota zeta. fold p0.
    change (seqZ 1 (2 - 1)) with [1%Z]. cbn [parse_loop].
    change (argv_at [prog; "--name=1"] 1) with (Some ("--" +:+ "name" +:+ "=" +:+ "1")).
    cbv beta iota.
    rewrite parse_arg_long_value by done.
    assert (findOption_name "name" p0 = (Some 0, p0)) as ->.
    { unfold findOption_name. by rewrite Hopts. }
    unfold parse_resolved. rewrite Hopts. simpl lookup. cbv beta iota.
    destruct (decide (Option.type opt0 = flag)) as [|_]; [done|]. simpl negb.
    cbv iota.
    unfold parseOption. rewrite invoke_mark_parsed. unfold invoke.
    rewrite Hopts. simpl lookup. cbv beta iota.
    change (Option.value opt0) with a. rewrite Hm.
    change (Option.parse opt0) with (parseValue T). simpl call.
    destruct (decide (T = T)); [|done]. rewrite Hv. done.
  - unfold checkRequired. rewrite Hopts'. done.
  - unfold getHelp. rewrite Hopts'.
    set (R0 := "usage: " +:+ program_ (mark_parsed 0 p0) +:+ " [options]").
    change (foldl help_usage_step _ [Option.set_parsed opt0])
      with {| result := R0; hasOptions := true; hasPositionalArgs := false;
              maxNameLen := 18; maxArgLen := 0 |}.
    cbn [hasOptions hasPositionalArgs maxNameLen maxArgLen result foldl].
    change (is_named (Option.set_parsed opt0)) with true. cbv iota.
    apply (help_line_contains _ _ (Option.set_parsed opt0)).
Qed.

Lemma required_option_round_trip_witness :
  ∃ p' opt,
    parse 2 ["prog"; "--name=1"]
      (add (TIntegral int_) 0 "+name,x,HINT" "" 0 CommandLineParser_new)
      level_memory
      = Returns true p' (<[0 := VScalar (TIntegral int_) 1%Z]> level_memory)
    ∧ options_ p' = [opt]
    ∧ Option.required opt = true
    ∧ Option.parsed opt = true
    ∧ (checkRequired p').1 = true
    ∧ sv.contains "-x [ --name ] HINT" (getHelp p') = true.
Proof.
  apply (required_option_round_trip (TIntegral int_) 0 "" "prog" 0
           level_memory 0%Z 1%Z).
  - reflexivity.
  - reflexivity.
Defined.

(** The help text of that parser. *)
Example required_option_help :
  help_after
    (parse 2 ["prog"; "--name=1"]
       (add (TIntegral int_) 0 "+name,x,HINT" "the name" 0 CommandLineParser_new)
       level_memory)
  = Some ("usage: prog [options]" +:+ nl
          +:+ "allowed options:" +:+ nl
          +:+ "  -x [ --name ] HINT : the name" +:+ nl).
Proof. reflexivity. Qed.

(** ** The demo program on the command lines of the specification *)

Example scenario_help_and_files :
  observe (parse 4 ["prog"; "-h"; "file1"; "file2"] test_parser test_memory)
    = Some (true, "", [true; false; true],
            <[2 := VVector TText ["file1"; "file2"]]>
              (<[0 := VBool true]> test_memory))
  ∧ checkRequired_after
      (parse 4 ["prog"; "-h"; "file1"; "file2"] test_parser test_memory)
    = Some (false, "required option missing: -c [ --compression ] level").
Proof. split; reflexivity. Qed.

Example scenario_level_and_file :
  observe (parse 3 ["prog"; "--compression=5"; "a.txt"] test_parser test_memory)
    = Some (true, "", [false; true; true],
            <[2 := VVector TText ["a.txt"]]>
              (<[1 := VScalar (TOptional (TIntegral int_)) (Some 5%Z)]>
                 test_memory))
  ∧ checkRequired_after
      (parse 3 ["prog"; "--compression=5"; "a.txt"] test_parser test_memory)
    = Some (true, "").
Proof. split; reflexivity. Qed.

Example scenario_short_value :
  observe (parse 4 ["prog"; "-c"; "7"; "a.txt"] test_parser test_memory)
    = Some (true, "", [false; true; true],
            <[2 := VVector TText ["a.txt"]]>
              (<[1 := VScalar (TOptional (TIntegral int_)) (Some 7%Z)]>
                 test_memory)).
Proof. reflexivity. Qed.

Example scenario_unknown_option :
  observe (parse 2 ["prog"; "--bogus"] test_parser test_memory)
    = Some (false, "unknown option: --bogus", [false; false; false],
            test_memory).
Proof. reflexivity. Qed.

Example scenario_flag_with_value :
  observe (parse 2 ["prog"; "--help=1"] test_parser test_memory)
    = Some (false, "option value unexpected: --help=1",
            [false; false; false], test_memory).
Proof. reflexivity. Qed.

Example scenario_missing_name :
  observe (parse 2 ["prog"; "--=x"] test_parser test_memory)
    = Some (false, "missing option name: --=x", [false; false; false],
            test_memory).
Proof. reflexivity. Qed.

Example scenario_positional_not_allowed :
  observe (parse 2 ["prog"; "file"] level_parser level_memory)
    = Some (false, "positional arg not allowed: file", [false], level_memory).
Proof. reflexivity. Qed.

(** ** What [parse] leaves alone *)

Lemma still_refl o : still o o.
Proof. by left. Qed.

Lemma still_trans o1 o2 o3 : still o1 o2 → still o2 o3 → still o1 o3.
Proof.
  intros [->| ->] [->| ->]; try (by left); by right.
Qed.

Lemma still_value o o' : still o o' → Option.value o' = Option.value o.
Proof. by intros [->| ->]. Qed.

Lemma Forall2_still_refl os : Forall2 still os os.
Proof.
  apply Forall2_same_length_lookup. split; [done|].
  intros i o o' H1 H2. rewrite H1 in H2. injection H2 as ->. apply still_refl.
Qed.

Lemma same_table_refl p : same_table p p.
Proof. split; [done|]. split; [done|]. apply Forall2_still_refl. Qed.

Lemma same_table_trans p1 p2 p3 :
  same_table p1 p2 → same_table p2 p3 → same_table p1 p3.
Proof.
  intros (Hp & Hs & Ho) (Hp' & Hs' & Ho').
  split; [congruence|]. split; [congruence|].
  apply Forall2_same_length_lookup. split.
  - apply Forall2_length in Ho, Ho'. congruence.
  - intros i o o'' H1 H3.
    destruct (Forall2_lookup_l _ _ _ _ _ Ho H1) as (o' & H2 & Hoo').
    destruct (Forall2_lookup_l _ _ _ _ _ Ho' H2) as (o3 & H3' & Ho'o'').
    rewrite H3 in H3'. injection H3' as <-. by eapply still_trans.
Qed.

Lemma same_table_with_error e p : same_table p (with_error e p).
Proof. split; [done|]. split; [done|]. apply Forall2_still_refl. Qed.

Lemma same_table_mark_parsed i p : same_table p (mark_parsed i p).
Proof.
  split; [done|]. split; [done|]. simpl.
  apply Forall2_same_length_lookup. split; [by rewrite length_alter|].
  intros j o o' H1 H2. destruct (decide (i = j)) as [->|Hne].
  - rewrite list_lookup_alter_eq, H1 in H2. injection H2 as <-. by right.
  - rewrite list_lookup_alter_ne, H1 in H2 by done. injection H2 as <-.
    by left.
Qed.

Lemma bound_at_same_table p p' a :
  same_table p p' → bound_at p' a → bound_at p a.
Proof.
  intros (_ & _ & Ho) (opt' & Hin & <-).
  apply list_elem_of_lookup in Hin as [i Hi].
  destruct (Forall2_lookup_r _ _ _ _ _ Ho Hi) as (opt & Hopt & Hstill).
  exists opt. split; [by eapply list_elem_of_lookup_2|].
  symmetry. by apply still_value.
Qed.

Lemma same_type_trans x y z : same_type x y → same_type y z → same_type x z.
Proof. destruct x, y, z; simpl; try done; congruence. Qed.

Lemma writes_bound_refl p m : writes_bound p m m.
Proof. intros a. by left. Qed.

Lemma writes_bound_trans p p' m1 m2 m3 :
  same_table p p' →
  writes_bound p m1 m2 → writes_bound p' m2 m3 → writes_bound p m1 m3.
Proof.
  intros Ht H12 H23 a.
  destruct (H12 a) as [E12|(Hb & x & x' & Hx & Hx' & Hty)],
           (H23 a) as [E23|(Hb' & y & y' & Hy & Hy' & Hty')].
  - left. congruence.
  - right. split; [by eapply bound_at_same_table|].
    exists y, y'. by rewrite <-E12.
  - right. split; [done|]. exists x, x'. by rewrite E23.
  - right. split; [done|]. exists x, y'. split; [done|]. split; [done|].
    rewrite Hx' in Hy. injection Hy as <-. by eapply same_type_trans.
Qed.

Lemma call_same_type fn x str b x' :
  call fn x str = Some (b, x') → same_type x x'.
Proof.
  destruct fn as [|T|T], x as [c|t v|t l]; simpl; try done.
  - by intros [= _ <-].
  - destruct (decide (T = t)); [|done]. by intros [= _ <-].
  - destruct (decide (T = t)); [|done]. by intros [= _ <-].
Qed.

(** A binder call writes one variable, the one its option is bound to. *)
Lemma invoke_writes_bound i v p m b m' :
  invoke i v p m = Some (b, m') → writes_bound p m m'.
Proof.
  unfold invoke.
  destruct (options_ p !! i) as [opt|] eqn:Hopt; [|done].
  destruct (m !! Option.value opt) as [x|] eqn:Hx; [|done].
  destruct (call (Option.parse opt) x v) as [[c x']|] eqn:Hcall; [|done].
  intros [= _ <-] a. destruct (decide (Option.value opt = a)) as [<-|Hne].
  - right. split; [exists opt; split; [by eapply list_elem_of_lookup_2|done]|].
    exists x, x'. rewrite lookup_insert_eq. split; [done|]. split; [done|].
    by eapply call_same_type.
  - left. by rewrite lookup_insert_ne.
Qed.

Lemma formatArgError_nonempty msg arg p :
  msg ≠ "" → error_ (formatArgError msg arg p) ≠ "".
Proof.
  intros Hmsg. simpl. intros H. apply append_empty in H as [_ H].
  apply append_empty in H as [H _]. done.
Qed.

Lemma step_effect_weaken p p1 m m1 r :
  same_table p p1 →
  writes_bound p m m1 →
  error_ p1 = error_ p →
  step_effect p1 m1 r → step_effect p m r.
Proof.
  intros Ht Hw He. destruct r as [p2 m2 l2|b p2 m2|f]; simpl; [| |done].
  - intros (Ht' & Hw' & He').
    split; [by eapply same_table_trans|].
    split; [by eapply writes_bound_trans | congruence].
  - intros (Ht' & Hw' & Hb & He').
    split; [by eapply same_table_trans|].
    split; [by eapply writes_bound_trans | done].
Qed.

(** The statements [opt->parsed = true; if(!parseOption(...)) return
    false;] of the loop. *)
Lemma parseOption_effect i v p m b p' m' :
  parseOption i v (mark_parsed i p) m = Some (b, p', m') →
  same_table p p' ∧ writes_bound p m m'
  ∧ (if b then error_ p' = error_ p else error_ p' ≠ "").
Proof.
  unfold parseOption.
  destruct (invoke i v (mark_parsed i p) m) as [[c m1]|] eqn:Hinv; [|done].
  rewrite invoke_mark_parsed in Hinv. apply invoke_writes_bound in Hinv.
  destruct c; intros [= <- <- <-].
  - split; [apply same_table_mark_parsed|]. by split.
  - split.
    { eapply same_table_trans; [apply same_table_mark_parsed|].
      apply same_table_with_error. }
    split; [done|]. by apply formatArgError_nonempty.
Qed.

Lemma findOption_name_effect name p :
  let r := findOption_name name p in
  same_table p r.2
  ∧ match r.1 with
    | Some _ => r.2 = p
    | None => if skipUnknown_ r.2 then r.2 = p else error_ r.2 ≠ ""
    end.
Proof.
  unfold findOption_name.
  destruct (list_find _ _) as [[i opt]|]; simpl.
  - split; [apply same_table_refl | done].
  - destruct (skipUnknown_ p) eqn:Hskip; simpl; rewrite ?Hskip.
    + split; [apply same_table_refl | done].
    + split; [apply same_table_with_error | done].
Qed.

Lemma findOption_optChar_effect c p :
  let r := findOption_optChar c p in
  same_table p r.2
  ∧ match r.1 with
    | Some _ => r.2 = p
    | None => if skipUnknown_ r.2 then r.2 = p else error_ r.2 ≠ ""
    end.
Proof.
  unfold findOption_optChar.
  destruct (list_find _ _) as [[i opt]|]; simpl.
  - split; [apply same_table_refl | done].
  - destruct (skipUnknown_ p) eqn:Hskip; simpl; rewrite ?Hskip.
    + split; [apply same_table_refl | done].
    + split; [apply same_table_with_error | done].
Qed.

Lemma parse_bundle_effect name p m l :
  step_effect p m (parse_bundle name p m l).
Proof.
  revert p m. induction name as [|c name IH]; intros p m; simpl.
  { split; [apply same_table_refl|]. split; [apply writes_bound_refl|done]. }
  destruct (findOption_optChar_effect c p) as [Ht Hr].
  destruct (findOption_optChar c p) as [[i|] p1]; simpl in *.
  - subst p1. destruct (options_ p !! i) as [opt|]; [|done].
    destruct (decide (Option.type opt ≠ flag)).
    { split; [apply same_table_with_error|].
      split; [apply writes_bound_refl|]. split; [done|]. done. }
    destruct (invoke i "" (mark_parsed i p) m) as [[b m1]|] eqn:Hinv; [|done].
    simpl. rewrite invoke_mark_parsed in Hinv.
    apply invoke_writes_bound in Hinv.
    eapply step_effect_weaken; [apply same_table_mark_parsed|done|done|].
    apply IH.
  - destruct (skipUnknown_ p1).
    + subst p1. apply IH.
    + split; [done|]. split; [apply writes_bound_refl|]. by split.
Qed.

Lemma parse_resolved_effect h tok hv v m l r p :
  same_table p r.2 →
  match r.1 with
  | Some _ => r.2 = p
  | None => if skipUnknown_ r.2 then r.2 = p else error_ r.2 ≠ ""
  end →
  step_effect p m (parse_resolved h tok hv v m l r).
Proof.
  intros Ht Hr. unfold parse_resolved. destruct r as [[i|] p1]; simpl in *.
  - subst p1. destruct (options_ p !! i) as [opt|]; [|done].
    destruct (decide (Option.type opt = flag)).
    + destruct hv.
      { split; [apply same_table_with_error|].
        split; [apply writes_bound_refl|]. split; [done|].
        by apply formatArgError_nonempty. }
      destruct (invoke i "" (mark_parsed i p) m) as [[b m1]|] eqn:Hinv; [|done].
      simpl. rewrite invoke_mark_parsed in Hinv.
      apply invoke_writes_bound in Hinv.
      split; [apply same_table_mark_parsed|]. by split.
    + destruct hv; simpl.
      * destruct (parseOption i v (mark_parsed i p) m) as [[[b p2] m2]|] eqn:Hpo;
          [|done].
        apply parseOption_effect in Hpo as (Ht2 & Hw2 & He2).
        destruct b; [|done].
        by destruct (bool_decide _ && negb h).
      * split; [done|]. split; [apply writes_bound_refl|done].
  - destruct (skipUnknown_ p1).
    + subst p1. split; [done|]. split; [apply writes_bound_refl|done].
    + split; [done|]. split; [apply writes_bound_refl|]. by split.
Qed.

(** The loop body: see [step_effect]. *)
Lemma parse_arg_effect h tok p m l :
  step_effect p m (parse_arg h tok p m l).
Proof.
  assert (step_effect p m (Continue p m l)) as Hsame.
  { split; [apply same_table_refl|]. split; [apply writes_bound_refl|done]. }
  assert (∀ msg arg, msg ≠ "" →
            step_effect p m (Return false (formatArgError msg arg p) m))
    as Herror.
  { intros msg arg Hmsg. split; [apply same_table_with_error|].
    split; [apply writes_bound_refl|]. split; [done|].
    by apply formatArgError_nonempty. }
  unfold parse_arg.
  destruct (sv.empty tok); [done|].
  destruct (sv.starts_with "-" tok); simpl.
  - destruct (negb _ && _).
    + destruct (sv.empty _); [done|]. case_bool_decide; [by apply Herror|].
      apply parse_resolved_effect; apply findOption_name_effect.
    + destruct (sv.empty _); [done|]. case_bool_decide; [by apply Herror|].
      destruct (match sv.find "=" _ with Some k => _ | None => _ end)
        as [|c [|c' name]].
      * case_bool_decide; [by apply Herror | done].
      * apply parse_resolved_effect; apply findOption_optChar_effect.
      * case_bool_decide; [by apply Herror | apply parse_bundle_effect].
  - destruct (lastOptionUnknown l); [done|].
    destruct (lastOption l) as [i|].
    + destruct (parseOption i tok (mark_parsed i p) m) as [[[b p1] m1]|] eqn:Hpo;
        [|done].
      apply parseOption_effect in Hpo as (Ht & Hw & He).
      destruct b; [|done].
      destruct (options_ p1 !! i) as [opt|]; [|done].
      by destruct (bool_decide _ || h).
    + destruct (findOption_position _ p) as [i|]; [|by apply Herror].
      destruct (parseOption i tok (mark_parsed i p) m) as [[[b p1] m1]|] eqn:Hpo;
        [|done].
      apply parseOption_effect in Hpo as (Ht & Hw & He).
      by destruct b.
Qed.

Lemma parse_loop_effect h argv ks p m l :
  step_effect p m (parse_loop h argv ks p m l).
Proof.
  revert p m l. induction ks as [|k ks IH]; intros p m l; simpl.
  { split; [apply same_table_refl|]. split; [apply writes_bound_refl|done]. }
  destruct (argv_at argv k) as [tok|]; [|done].
  pose proof (parse_arg_effect h tok p m l) as Harg.
  destruct (parse_arg h tok p m l) as [p1 m1 l1| |]; [|done..].
  destruct Harg as (Ht & Hw & He).
  eapply step_effect_weaken; [done..|]. apply IH.
Qed.

Lemma same_table_parse_program argv0 p :
  skipUnknown_ (parse_program argv0 p) = skipUnknown_ p
  ∧ options_ (parse_program argv0 p) = options_ p
  ∧ error_ (parse_program argv0 p) = error_ p.
Proof. unfold parse_program. by destruct (sv.find_last_of _ _). Qed.

(** A call of [parse] that returns, seen as one step from the parser
    with its program name set. *)
Lemma parse_effect argc argv p m b p' m' :
  parse argc argv p m = Returns b p' m' →
  ∃ argv0,
    argv_at argv 0 = Some argv0
    ∧ same_table (parse_program argv0 p) p'
    ∧ writes_bound p m m'
    ∧ (if b then error_ p' = error_ p else error_ p' ≠ "").
Proof.
  unfold parse. destruct (argv_at argv 0) as [argv0|]; [|done].
  destruct (same_table_parse_program argv0 p) as (Hs0 & Ho0 & He0).
  set (p0 := parse_program argv0 p) in *.
  assert (∀ m1 m2, writes_bound p0 m1 m2 → writes_bound p m1 m2) as Hwb.
  { intros m1 m2 Hw a. destruct (Hw a) as [|[(opt & Hin & Hv) Hx]]; [by left|].
    right. split; [|done]. exists opt. by rewrite <-Ho0. }
  pose proof (parse_loop_effect (has_positional p0) argv (seqZ 1 (argc - 1))
                p0 m locals0) as Hloop.
  destruct (parse_loop _ _ _ _ _ _) as [p1 m1 l1|b1 p1 m1|f]; simpl; [| |done].
  - destruct Hloop as (Ht & Hw & He).
    assert (Returns true p1 m1 = Returns b p' m' →
            ∃ argv1, Some argv0 = Some argv1
              ∧ same_table (parse_program argv1 p) p'
              ∧ writes_bound p m m'
              ∧ (if b then error_ p' = error_ p else error_ p' ≠ ""))
      as Htrue.
    { intros [= <- <- <-]. exists argv0. split; [done|]. split; [done|].
      split; [by apply Hwb | congruence]. }
    destruct (lastOption l1) as [i|]; [|done].
    destruct (options_ p1 !! i) as [opt|]; [|done].
    destruct (Option.parsed opt); [done|].
    destruct (argv_at argv (argc - 1)) as [a|]; [|done].
    intros [= <- <- <-]. exists argv0. split; [done|]. split.
    { eapply same_table_trans; [done | apply same_table_with_error]. }
    split; [by apply Hwb|]. by apply formatArgError_nonempty.
  - destruct Hloop as (Ht & Hw & -> & He).
    intros [= <- <- <-]. exists argv0. split; [done|]. split; [done|].
    split; [by apply Hwb | done].
Qed.

(** X1.  A call of [parse] neither adds, removes nor reorders options,
    and it changes no field of an option but [parsed], which it only
    ever sets; the unknown-option mode is as it was. *)
Theorem parse_keeps_table (argc : Z) (argv : list string)
    (p p' : CommandLineParser) (m m' : Memory) (b : bool) :
  parse argc argv p m = Returns b p' m' →
  skipUnknown_ p' = skipUnknown_ p
  ∧ Forall2 still (options_ p) (options_ p').
Proof.
  intros Hparse.
  destruct (parse_effect _ _ _ _ _ _ _ Hparse)
    as (argv0 & _ & (_ & Hs & Ho) & _).
  destruct (same_table_parse_program argv0 p) as (Hs0 & Ho0 & _).
  split; [congruence|]. by rewrite <-Ho0.
Qed.

Lemma parse_keeps_table_witness :
  ∃ p' m',
    parse 3 ["prog"; "-c"; "7"] test_parser test_memory = Returns true p' m'
    ∧ skipUnknown_ p' = skipUnknown_ test_parser
    ∧ Forall2 still (options_ test_parser) (options_ p').
Proof.
  eexists _, _. split; [reflexivity|].
  eapply (parse_keeps_table 3 ["prog"; "-c"; "7"] test_parser _ test_memory _
           true).
  reflexivity.
Defined.

(** X2.  A call of [parse] writes only to variables that registered
    options are bound to, and a variable it writes keeps its type: every
    other address of the memory holds what it held. *)
Theorem parse_writes_bound_variables (argc : Z) (argv : list string)
    (p p' : CommandLineParser) (m m' : Memory) (b : bool) :
  parse argc argv p m = Returns b p' m' →
  ∀ a,
    m' !! a = m !! a
    ∨ (bound_at p a
       ∧ ∃ x x', m !! a = Some x ∧ m' !! a = Some x' ∧ same_type x x').
Proof.
  intros Hparse.
  by destruct (parse_effect _ _ _ _ _ _ _ Hparse) as (argv0 & _ & _ & Hw & _).
Qed.

Lemma parse_writes_bound_variables_witness :
  ∃ p' m',
    parse 3 ["prog"; "-c"; "7"] test_parser test_memory = Returns true p' m'
    ∧ ∀ a,
        m' !! a = test_memory !! a
        ∨ (bound_at test_parser a
           ∧ ∃ x x',
               test_memory !! a = Some x ∧ m' !! a = Some x'
               ∧ same_type x x').
Proof.
  eexists _, _. split; [reflexivity|].
  eapply (parse_writes_bound_variables 3 ["prog"; "-c"; "7"] test_parser _
           test_memory _ true).
  reflexivity.
Defined.

(** X3.  When [parse] returns [true] the error text is what it was
    before the call, and when it returns [false] the error text is not
    empty. *)
Theorem parse_error_text (argc : Z) (argv : list string)
    (p p' : CommandLineParser) (m m' : Memory) (b : bool) :
  parse argc argv p m = Returns b p' m' →
  if b then error p' = error p else error p' ≠ "".
Proof.
  intros Hparse.
  by destruct (parse_effect _ _ _ _ _ _ _ Hparse) as (argv0 & _ & _ & _ & He).
Qed.

Lemma parse_error_text_witness :
  ∃ p1 m1 p2 m2,
    parse 3 ["prog"; "-c"; "7"] test_parser test_memory = Returns true p1 m1
    ∧ error p1 = error test_parser
    ∧ parse 3 ["prog"; "-c"; "x"] test_parser test_memory = Returns false p2 m2
    ∧ error p2 ≠ "".
Proof.
  eexists _, _, _, _. split; [reflexivity|]. split.
  { exact (parse_error_text 3 ["prog"; "-c"; "7"] test_parser _ test_memory _
             true eq_refl). }
  split; [reflexivity|].
  exact (parse_error_text 3 ["prog"; "-c"; "x"] test_parser _ test_memory _
           false eq_refl).
Defined.

(** *** The help text after [parse] *)

Lemma formatOptName_set_parsed opt r :
  formatOptName (Option.set_parsed opt) r = formatOptName opt r.
Proof. done. Qed.

Lemma foldl_still {A} (f : A → Option.t → A) os os' a :
  (∀ a o, f a (Option.set_parsed o) = f a o) →
  Forall2 still os os' →
  foldl f a os' = foldl f a os.
Proof.
  intros Hf Hos. revert a.
  induction Hos as [|o o' os os' Ho _ IH]; intros a; simpl; [done|].
  rewrite IH. by destruct Ho as [->| ->]; rewrite ?Hf.
Qed.

Lemma help_usage_step_set_parsed h o :
  help_usage_step h (Option.set_parsed o) = help_usage_step h o.
Proof. by destruct o. Qed.

Lemma help_line_set_parsed w r o :
  help_line w r (Option.set_parsed o) = help_line w r o.
Proof. by destruct o. Qed.

Lemma getHelp_still p p' :
  program_ p' = program_ p →
  Forall2 still (options_ p) (options_ p') →
  getHelp p' = getHelp p.
Proof.
  intros Hprog Hos. unfold getHelp. rewrite Hprog.
  rewrite (foldl_still help_usage_step _ _ _ help_usage_step_set_parsed Hos).
  set (h := foldl help_usage_step _ (options_ p)).
  rewrite (foldl_still
             (λ result opt,
                if is_named opt then help_line _ result opt else result)
             _ _ _ ltac:(by intros ? []) Hos).
  rewrite (foldl_still
             (λ result opt,
                if is_named opt then result else help_line _ result opt)
             _ _ _ ltac:(by intros ? []) Hos).
  done.
Qed.

(** X4.  The help text does not depend on what has been parsed: after a
    call of [parse] it is the help text of the parser as registered,
    with the program name taken from [argv[0]]. *)
Theorem getHelp_after_parse (argc : Z) (argv : list string) (argv0 : string)
    (p p' : CommandLineParser) (m m' : Memory) (b : bool) :
  argv_at argv 0 = Some argv0 →
  parse argc argv p m = Returns b p' m' →
  getHelp p' = getHelp (parse_program argv0 p).
Proof.
  intros H0 Hparse.
  destruct (parse_effect _ _ _ _ _ _ _ Hparse)
    as (argv1 & H1 & (Hp & _ & Ho) & _).
  rewrite H0 in H1. injection H1 as <-. by apply getHelp_still.
Qed.

Lemma getHelp_after_parse_witness :
  ∃ p' m',
    parse 3 ["bin/prog"; "-c"; "7"] test_parser test_memory
      = Returns true p' m'
    ∧ getHelp p' = getHelp (parse_program "bin/prog" test_parser).
Proof.
  eexists _, _. split; [reflexivity|].
  eapply (getHelp_after_parse 3 ["bin/prog"; "-c"; "7"] "bin/prog" test_parser
           _ test_memory _ true); reflexivity.
Defined.

(** ** Registration *)

Lemma sv_find_app_None c a b :
  sv.find c a = None → sv.find c (a +:+ b) = (λ k, sv.size a + k) <$> sv.find c b.
Proof.
  induction a as [|d a IH]; intros Ha.
  { rewrite append_nil_l. by destruct (sv.find c b). }
  rewrite append_cons. simpl in *.
  destruct (Ascii.eqb d c); [done|].
  destruct (sv.find c a) eqn:Hfa; [done|]. rewrite IH by done.
  by destruct (sv.find c b).
Qed.

Lemma sv_find_None_app c a b :
  sv.find c a = None → sv.find c b = None → sv.find c (a +:+ b) = None.
Proof. intros Ha Hb. by rewrite sv_find_app_None, Hb. Qed.

(** X5.  The constructor of [Option] reads the fields of a specification
    back: for a name and flags without a comma, and a name that does not
    itself begin with [+], the text [[+]name[,flags[,hint]]] gives an
    option with exactly that name, those flags and that hint (a hint may
    hold commas), absent fields empty, [required] set exactly when the
    [+] is there, and [parsed] not set. *)
Theorem Option_reads_spec (type : OptionType) (value : nat) (fn : ParseFn)
    (help : string) (pos : Z) (required : bool) (name : string)
    (flags_hint : option (string * option string)) :
  sv.find "," name = None →
  sv.starts_with "+" name = false →
  match flags_hint with
  | Some (flags, _) => sv.find "," flags = None
  | None => True
  end →
  Option.Option type value fn (spec_text required name flags_hint) help pos
  = Option.mk type false required value fn name
      match flags_hint with Some (flags, _) => flags | None => "" end
      help
      match flags_hint with Some (_, Some hint) => hint | _ => "" end
      pos.
Proof.
  intros Hname Hplus Hflags. unfold Option.Option, spec_text.
  set (rest := match flags_hint with
               | None => ""
               | Some (flags, None) => "," +:+ flags
               | Some (flags, Some hint) => "," +:+ flags +:+ "," +:+ hint
               end).
  assert (negb (sv.empty ((if required then "+" else "") +:+ name +:+ rest))
          && sv.starts_with "+" ((if required then "+" else "") +:+ name +:+ rest)
          = required) as ->.
  { destruct required; [done|]. rewrite append_nil_l.
    destruct name as [|c name].
    - rewrite append_nil_l. unfold rest. by destruct flags_hint as [[? [?|]]|].
    - rewrite append_cons. simpl in *. by rewrite Hplus. }
  assert ((if required
           then sv.drop 1 ((if required then "+" else "") +:+ name +:+ rest)
           else (if required then "+" else "") +:+ name +:+ rest)
          = name +:+ rest) as -> by (by destruct required).
  unfold rest. destruct flags_hint as [[flags [hint|]]|].
  - change ("," +:+ flags +:+ "," +:+ hint)
      with (String "," (flags +:+ String "," hint)).
    rewrite sv_find_app_r by done. rewrite sv_take_app, sv_drop_app_S.
    rewrite sv_find_app_r by done. by rewrite sv_take_app, sv_drop_app_S.
  - change ("," +:+ flags) with (String "," flags).
    rewrite sv_find_app_r by done. rewrite sv_take_app, sv_drop_app_S.
    by rewrite Hflags.
  - rewrite append_nil_r. by rewrite Hname.
Qed.

Lemma Option_reads_spec_witness :
  Option.Option param 1 (parseValue (TIntegral int_))
    (spec_text true "compression" (Some ("c", Some "level,0-9")))
    "compression level" 0
  = Option.mk param false true 1 (parseValue (TIntegral int_)) "compression" "c"
      "compression level" "level,0-9" 0.
Proof.
  apply (Option_reads_spec param 1 (parseValue (TIntegral int_))
           "compression level" 0 true "compression"
           (Some ("c", Some "level,0-9"))); reflexivity.
Defined.

(** *** Lookup by name and by flag character *)

(** X6.  Lookup by long name answers with the first-registered option of
    that name and leaves the parser as it is.  When no option has the
    name, the parser is untouched if unknown options are skipped;
    otherwise the error text is replaced (not extended) by "unknown
    option: --" and the name. *)
Theorem findOption_name_first (name : string) (p : CommandLineParser) :
  match (findOption_name name p).1 with
  | Some i =>
      (∃ opt, options_ p !! i = Some opt ∧ Option.name opt = name)
      ∧ (∀ j opt, j < i → options_ p !! j = Some opt → Option.name opt ≠ name)
      ∧ (findOption_name name p).2 = p
  | None =>
      (∀ opt, opt ∈ options_ p → Option.name opt ≠ name)
      ∧ (findOption_name name p).2 =
          if skipUnknown_ p then p
          else with_error ("unknown option: --" +:+ name) p
  end.
Proof.
  unfold findOption_name.
  destruct (list_find _ _) as [[i opt]|] eqn:Hfind; simpl.
  - apply list_find_Some in Hfind as (Hi & Hname & Hmin).
    split; [by exists opt|]. split; [|done].
    intros j opt' Hj Hopt'. by eapply Hmin.
  - apply list_find_None in Hfind. split; [|done].
    intros opt Hin. by eapply Forall_forall in Hfind.
Qed.

(** X7.  Lookup by flag character answers with the first-registered
    option whose flags contain the character.  When there is none, the
    parser is untouched if unknown options are skipped; otherwise the
    error text is replaced by "unknown option: -" and the character. *)
Theorem findOption_optChar_first (c : ascii) (p : CommandLineParser) :
  match (findOption_optChar c p).1 with
  | Some i =>
      (∃ opt, options_ p !! i = Some opt
              ∧ is_Some (sv.find c (Option.flags opt)))
      ∧ (∀ j opt, j < i → options_ p !! j = Some opt →
                  sv.find c (Option.flags opt) = None)
      ∧ (findOption_optChar c p).2 = p
  | None =>
      (∀ opt, opt ∈ options_ p → sv.find c (Option.flags opt) = None)
      ∧ (findOption_optChar c p).2 =
          if skipUnknown_ p then p
          else with_error ("unknown option: -" +:+ String c "") p
  end.
Proof.
  unfold findOption_optChar.
  destruct (list_find _ _) as [[i opt]|] eqn:Hfind; simpl.
  - apply list_find_Some in Hfind as (Hi & Hname & Hmin).
    split; [by exists opt|]. split; [|done].
    intros j opt' Hj Hopt'. apply eq_None_not_Some. by eapply Hmin.
  - apply list_find_None in Hfind. split; [|done].
    intros opt Hin. apply eq_None_not_Some. by eapply Forall_forall in Hfind.
Qed.

(** X8.  Registration does not check for duplicates and never changes
    what is registered already: after [addFlag], [add] or [add] for a
    list, every earlier option is where it was, a name that was found
    before is found at the same place (the new option is shadowed), and
    a name that was not found is found at the new, last place exactly
    when the new option has it. *)
Theorem registration_shadowed (new : Option.t) (name : string)
    (p : CommandLineParser) :
  let p' := with_options (options_ p ++ [new]) p in
  (∀ i opt, options_ p !! i = Some opt → options_ p' !! i = Some opt)
  ∧ match (findOption_name name p).1 with
    | Some i => (findOption_name name p').1 = Some i
    | None =>
        (findOption_name name p').1 =
          if decide (Option.name new = name) then Some (length (options_ p))
          else None
    end.
Proof.
  intros p'. split.
  { intros i opt Hi. simpl. by apply lookup_app_l_Some. }
  unfold findOption_name. simpl.
  destruct (list_find _ (options_ p)) as [[i opt]|] eqn:Hfind; simpl.
  - by rewrite (list_find_app_l _ _ _ _ _ Hfind).
  - rewrite list_find_app_r by done. simpl.
    destruct (decide (Option.name new = name)); simpl; [|done].
    by f_equal.
Qed.

(** The registration functions are instances of the [emplace_back] that
    X8 is stated for. *)
Example registration_instances value T spec help pos p :
  addFlag value spec help p
    = with_options
        (options_ p ++ [Option.Option flag value parseFlag spec help 0]) p
  ∧ add T value spec help pos p
    = with_options
        (options_ p ++ [Option.Option param value (parseValue T) spec help pos])
        p
  ∧ add_vector T value spec help pos p
    = with_options
        (options_ p ++ [Option.Option list_ value (parseList T) spec help pos])
        p.
Proof. done. Qed.

(** ** [checkRequired] *)

(** X9.  [checkRequired] returns [true] exactly when every required
    option is parsed, and then it changes nothing.  Otherwise it returns
    [false] and replaces the error text by "required option missing: "
    followed by the display name of the first-registered required option
    that is not parsed. *)
Theorem checkRequired_spec (p : CommandLineParser) :
  if (checkRequired p).1 then
    (checkRequired p).2 = p
    ∧ ∀ opt, opt ∈ options_ p →
        Option.required opt = true → Option.parsed opt = true
  else
    ∃ i opt,
      options_ p !! i = Some opt
      ∧ Option.required opt = true
      ∧ Option.parsed opt = false
      ∧ (∀ j opt', j < i → options_ p !! j = Some opt' →
           Option.required opt' = true → Option.parsed opt' = true)
      ∧ (checkRequired p).2 =
          with_error
            ("required option missing: " +:+ (formatOptName opt "").2) p.
Proof.
  unfold checkRequired.
  destruct (list_find _ _) as [[i opt]|] eqn:Hfind; simpl.
  - apply list_find_Some in Hfind as (Hi & [Hreq Hpar] & Hmin).
    exists i, opt. split; [done|]. split; [done|]. split; [done|]. split.
    + intros j opt' Hj Hopt' Hreq'.
      destruct (Option.parsed opt') eqn:Hp; [done|].
      destruct (Hmin j opt' Hopt' Hj). by split.
    + by rewrite formatOptName_append.
  - apply list_find_None in Hfind. split; [done|].
    intros opt Hin Hreq. eapply Forall_forall in Hfind; [|done].
    destruct (Option.parsed opt); [done|]. destruct Hfind. by split.
Qed.

(** ** The numeric binder *)

Lemma digits_all s acc :
  (digits s acc).2 = sv.size s → decimal s.
Proof.
  revert acc. induction s as [|c s IH]; intros acc; simpl; [done|].
  destruct (digit c) as [d|]; simpl; [|done].
  intros [= H]. split; [done|]. by eapply IH.
Qed.

Lemma digits_acc s acc :
  (digits s acc).2 = (digits s 0).2.
Proof.
  revert acc. generalize 0%Z.
  induction s as [|c s IH]; intros a b; simpl; [done|].
  destruct (digit c) as [d|]; simpl; [|done]. f_equal. apply IH.
Qed.

(** X10.  For an integer type, a token is accepted as a number only if
    it is all of the form: an optional minus sign, allowed for signed
    types only, and then one or more decimal digits and nothing else;
    and only if the number fits the type, which is then the number
    stored.  (The floating-point types accept more: a radix point, an
    exponent, infinity and NaN.) *)
Theorem parse_integral_accepts (k : integral) (str : string) (v v' : Z) :
  parse_scalar (TIntegral k) str v = (true, v') →
  ∃ (minus : bool) (ds : string),
    str = (if minus then "-" else "") +:+ ds
    ∧ (minus = true → is_signed k = true)
    ∧ ds ≠ "" ∧ decimal ds
    ∧ v' = (if minus then - decimal_value ds else decimal_value ds)%Z
    ∧ (min_of k ≤ v' ≤ max_of k)%Z.
Proof.
  simpl. unfold consumed, from_chars, decimal_value.
  set (minus := is_signed k && sv.starts_with "-" str).
  set (ds := if minus then sv.drop 1 str else str).
  intros Hparse. exists minus, ds.
  assert (str = (if minus then "-" else "") +:+ ds) as Hstr.
  { unfold ds, minus. destruct (is_signed k); [|done]. simpl.
    destruct str as [|c str]; [done|]. simpl.
    destruct (Ascii.eqb_spec c "-") as [->|]; done. }
  split; [done|]. split.
  { unfold minus. by intros [? _]%andb_prop. }
  revert Hparse. destruct (digits ds 0) as [z n] eqn:Hz; simpl.
  case_bool_decide as Hn; [done|].
  case_bool_decide as Hrange; simpl; [|done].
  destruct (Nat.eqb_spec (if minus then S n else n) (sv.size str)) as [Hlen|];
    [|done].
  intros [= <-].
  assert (n = sv.size ds) as Hall.
  { rewrite Hstr in Hlen. destruct minus; [|done].
    rewrite append_cons, append_nil_l in Hlen. simpl in Hlen. lia. }
  split; [by intros ->|]. split; [|done].
  apply (digits_all ds 0). by rewrite Hz.
Qed.

Lemma parse_integral_accepts_witness :
  ∃ (minus : bool) (ds : string),
    "-42" = (if minus then "-" else "") +:+ ds
    ∧ (minus = true → is_signed int_ = true)
    ∧ ds ≠ "" ∧ decimal ds
    ∧ (-42)%Z = (if minus then - decimal_value ds else decimal_value ds)%Z
    ∧ (min_of int_ ≤ -42 ≤ max_of int_)%Z.
Proof. apply (parse_integral_accepts int_ "-42" 0 (-42)). reflexivity. Defined.

(** X11.  Whether a conversion succeeds never depends on what the
    variable held, and a successful conversion overwrites it: the last
    value given to a scalar wins. *)
Theorem parse_scalar_overwrites (T : ScalarType) (str : string)
    (v w : scalar T) :
  (parse_scalar T str v).1 = (parse_scalar T str w).1
  ∧ ((parse_scalar T str v).1 = true →
     (parse_scalar T str v).2 = (parse_scalar T str w).2).
Proof.
  destruct T as [|k|f|T]; simpl; [done| | |done].
  - split; [by rewrite (from_chars_report k str v w)|].
    intros [Hec _]%consumed_true. by apply from_chars_stored.
  - split; [by rewrite (from_chars_floating_report f str v w)|].
    intros [Hec _]%consumed_true. by apply from_chars_floating_stored.
Qed.

(** ** Forms of an argument *)

Lemma parse_resolved_argValue h tok tok' hv v m l i p :
  (hv = true →
   ∀ opt, options_ p !! i = Some opt → Option.type opt ≠ flag) →
  parse_resolved h tok hv v m l (Some i, p)
  = parse_resolved h tok' hv v m l (Some i, p).
Proof.
  intros Hty. unfold parse_resolved.
  destruct (options_ p !! i) as [opt|] eqn:Hopt; [|done].
  destruct (decide (Option.type opt = flag)) as [Hflag|]; [|done].
  destruct hv; [|done]. by destruct (Hty eq_refl opt).
Qed.

(** X12.  The long and the short form of an option are interchangeable:
    two arguments that name the same option have the same effect, and
    so have the two with the same inline value when the option takes a
    value (for a flag the two error texts cite different arguments). *)
Theorem names_interchangeable (h : bool) (tok tok' : string) (i : nat)
    (p : CommandLineParser) (m : Memory) (l : Locals) :
  names p tok i →
  names p tok' i →
  parse_arg h tok p m l = parse_arg h tok' p m l
  ∧ ∀ opt v,
      options_ p !! i = Some opt →
      Option.type opt ≠ flag →
      parse_arg h (tok +:+ "=" +:+ v) p m l
      = parse_arg h (tok' +:+ "=" +:+ v) p m l.
Proof.
  intros Hn Hn'. split.
  - rewrite (parse_arg_names _ _ _ _ _ _ Hn), (parse_arg_names _ _ _ _ _ _ Hn').
    by apply parse_resolved_argValue.
  - intros opt v Hopt Hty.
    rewrite (parse_arg_names_value _ _ _ _ _ _ _ Hn),
      (parse_arg_names_value _ _ _ _ _ _ _ Hn').
    apply parse_resolved_argValue. intros _ opt' Hopt'. congruence.
Qed.

Lemma names_interchangeable_witness :
  parse_arg true "--compression" test_parser test_memory locals0
    = parse_arg true "-c" test_parser test_memory locals0
  ∧ ∀ opt v,
      options_ test_parser !! 1 = Some opt →
      Option.type opt ≠ flag →
      parse_arg true ("--compression" +:+ "=" +:+ v) test_parser test_memory
        locals0
      = parse_arg true ("-c" +:+ "=" +:+ v) test_parser test_memory locals0.
Proof.
  apply (names_interchangeable true "--compression" "-c" 1).
  - by apply (names_long test_parser "compression").
  - by apply (names_short test_parser "c").
Defined.

(** X13.  For an option that takes a value, the inline form
    [--name=value] does what the two arguments [--name] and [value] do
    one after the other, whenever [value] is a bare argument: same
    parser, same memory, same locals, and the same failure when the
    value does not convert. *)
Theorem inline_value_equivalent (h : bool) (tok v : string) (i : nat)
    (opt : Option.t) (p : CommandLineParser) (m : Memory) (l : Locals) :
  names p tok i →
  options_ p !! i = Some opt →
  Option.type opt ≠ flag →
  bare v →
  match parse_arg h tok p m l with
  | Continue p1 m1 l1 => parse_arg h v p1 m1 l1
  | r => r
  end
  = parse_arg h (tok +:+ "=" +:+ v) p m l.
Proof.
  intros Hn Hopt Hty [He Hd].
  rewrite (parse_arg_names _ _ _ _ _ _ Hn),
    (parse_arg_names_value _ _ _ _ _ _ _ Hn).
  unfold parse_resolved. rewrite Hopt.
  destruct (decide (Option.type opt = flag)); [done|]. simpl.
  unfold parse_arg. rewrite He, Hd. simpl.
  destruct (parseOption i v (mark_parsed i p) m) as [[[b p1] m1]|] eqn:Hpo;
    [|done].
  destruct b; [|done].
  assert (p1 = mark_parsed i p) as ->.
  { revert Hpo. unfold parseOption.
    destruct (invoke _ _ _ _) as [[[|] ?]|]; congruence. }
  rewrite options_mark_parsed_eq, Hopt. simpl.
  destruct (Option.type opt) eqn:Hty'; try done.
  - by destruct h.
Qed.

Lemma inline_value_equivalent_witness :
  match parse_arg true "--compression" test_parser test_memory locals0 with
  | Continue p1 m1 l1 => parse_arg true "7" p1 m1 l1
  | r => r
  end
  = parse_arg true ("--compression" +:+ "=" +:+ "7") test_parser test_memory
      locals0.
Proof.
  apply (inline_value_equivalent true "--compression" "7" 1
           (Option.Option param 1 (parseValue (TOptional (TIntegral int_)))
              "+compression,c,level" "compression level" 0)).
  - by apply (names_long test_parser "compression").
  - reflexivity.
  - discriminate.
  - split; reflexivity.
Defined.

(** X14.  Naming a flag sets its variable to [true] and marks it parsed
    without waiting for a value; with an inline value the argument is an
    error, "option value unexpected", and nothing is set. *)
Theorem flag_applied (h : bool) (tok : string) (i : nat) (opt : Option.t)
    (b : bool) (p : CommandLineParser) (m : Memory) (l : Locals) :
  names p tok i →
  options_ p !! i = Some opt →
  Option.type opt = flag →
  Option.parse opt = parseFlag →
  m !! Option.value opt = Some (VBool b) →
  parse_arg h tok p m l
    = Continue (mark_parsed i p) (<[Option.value opt := VBool true]> m)
        (scanning l)
  ∧ ∀ v,
      parse_arg h (tok +:+ "=" +:+ v) p m l
      = Return false
          (formatArgError "option value unexpected" (tok +:+ "=" +:+ v) p) m.
Proof.
  intros Hn Hopt Hty Hfn Hm. split.
  - rewrite (parse_arg_names _ _ _ _ _ _ Hn).
    unfold parse_resolved. rewrite Hopt.
    destruct (decide (Option.type opt = flag)); [|done].
    rewrite invoke_mark_parsed. unfold invoke. by rewrite Hopt, Hm, Hfn.
  - intros v. rewrite (parse_arg_names_value _ _ _ _ _ _ _ Hn).
    unfold parse_resolved. rewrite Hopt.
    by destruct (decide (Option.type opt = flag)).
Qed.

Lemma flag_applied_witness :
  parse_arg true "-h" test_parser test_memory locals0
    = Continue (mark_parsed 0 test_parser) (<[0 := VBool true]> test_memory)
        (scanning locals0)
  ∧ ∀ v,
      parse_arg true ("-h" +:+ "=" +:+ v) test_parser test_memory locals0
      = Return false
          (formatArgError "option value unexpected" ("-h" +:+ "=" +:+ v)
             test_parser)
          test_memory.
Proof.
  apply (flag_applied true "-h" 0
           (Option.Option flag 0 parseFlag "help,h" "print help" 0) false).
  - by apply (names_short test_parser "h").
  - reflexivity.
  - reflexivity.
  - reflexivity.
  - reflexivity.
Defined.

(** ** Arguments that are only dashes *)

(** X15.  An argument that is just [-] or [--] names nothing, but it
    still ends the wait of a pending option: when it is the last
    argument, [parse] returns [true] and reports no missing value, even
    if the argument before it named an option that takes one. *)
Theorem trailing_dash_succeeds (argc : Z) (argv : list string)
    (p : CommandLineParser) (m : Memory)
    (p1 : CommandLineParser) (m1 : Memory) (l1 : Locals) (tok : string) :
  reaches argv p m (argc - 1) p1 m1 l1 →
  argv_at argv (argc - 1) = Some tok →
  tok = "-" ∨ tok = "--" →
  parse argc argv p m = Returns true p1 m1.
Proof.
  intros Hreach Htok Hdash.
  assert (parse_arg (has_positional p) tok p1 m1 l1
          = Continue p1 m1 (scanning l1)) as Harg
    by (by destruct Hdash as [->| ->]).
  pose proof (reaches_step _ _ _ _ _ _ _ _ _ _ _ Hreach Htok Harg) as Hend.
  replace (argc - 1 + 1)%Z with argc in Hend by lia.
  by rewrite (parse_at_end _ _ _ _ _ _ _ Hend).
Qed.

Lemma trailing_dash_succeeds_witness :
  parse 3 ["prog"; "--compression"; "--"] test_parser test_memory
    = Returns true (parse_program "prog" test_parser) test_memory.
Proof.
  apply (trailing_dash_succeeds 3 ["prog"; "--compression"; "--"] test_parser
           test_memory (parse_program "prog" test_parser) test_memory
           (with_lastOption (Some 1) locals0) "--").
  - exists "prog". split; [reflexivity|]. split; [lia | reflexivity].
  - reflexivity.
  - by right.
Defined.

(** ** Bare arguments without a positional option *)

Lemma parse_resolved_position h tok hv v m l r p' m' l' :
  parse_resolved h tok hv v m l r = Continue p' m' l' →
  position l' = position l.
Proof.
  unfold parse_resolved. destruct r as [[i|] p].
  - destruct (options_ p !! i) as [opt|]; [|done].
    destruct (decide (Option.type opt = flag)).
    + destruct hv; [done|].
      destruct (invoke i "" (mark_parsed i p) m); [|done].
      by intros [= _ _ <-].
    + destruct hv; simpl.
      * destruct (parseOption i v (mark_parsed i p) m) as [[[[|] ?] ?]|];
          [|done..].
        destruct (bool_decide _ && negb h); by intros [= _ _ <-].
      * by intros [= _ _ <-].
  - destruct (skipUnknown_ p); [|done]. by intros [= _ _ <-].
Qed.

(** The count of positional arguments never goes down. *)
Lemma parse_arg_position h tok p m l p' m' l' :
  parse_arg h tok p m l = Continue p' m' l' →
  (position l ≤ position l')%Z.
Proof.
  unfold parse_arg.
  destruct (sv.empty tok); [by intros [= _ _ <-]|].
  destruct (sv.starts_with "-" tok); simpl.
  - destruct (negb _ && _).
    + destruct (sv.empty _); [by intros [= _ _ <-]|].
      case_bool_decide; [done|].
      intros Hr%parse_resolved_position. simpl in Hr. lia.
    + destruct (sv.empty _); [by intros [= _ _ <-]|].
      case_bool_decide; [done|].
      destruct (match sv.find "=" _ with Some k => _ | None => _ end)
        as [|c [|c' name]].
      * case_bool_decide; [done|]. by intros [= _ _ <-].
      * intros Hr%parse_resolved_position. simpl in Hr. lia.
      * case_bool_decide; [done|].
        intros Hb%parse_bundle_locals. by subst l'.
  - destruct (lastOptionUnknown l); [by intros [= _ _ <-]|].
    destruct (lastOption l) as [i|].
    + destruct (parseOption i tok (mark_parsed i p) m) as [[[[|] p1] m2]|];
        [|done..].
      destruct (options_ p1 !! i) as [opt|]; [|done].
      destruct (bool_decide _ || h); by intros [= _ _ <-].
    + destruct (findOption_position _ p) as [i|]; [|done].
      destruct (parseOption i tok (mark_parsed i p) m) as [[[[|] p1] m2]|];
        [|done..].
      intros [= _ _ <-]. simpl. lia.
Qed.

Lemma parse_loop_position h argv ks p m l p' m' l' :
  parse_loop h argv ks p m l = Continue p' m' l' →
  (position l ≤ position l')%Z.
Proof.
  revert p m l. induction ks as [|k ks IH]; intros p m l; simpl.
  - by intros [= _ _ <-].
  - destruct (argv_at argv k) as [tok|]; [|done].
    destruct (parse_arg h tok p m l) as [p1 m1 l1| |] eqn:Harg; [|done..].
    intros Hloop. apply parse_arg_position in Harg. apply IH in Hloop. lia.
Qed.

Lemma findOption_position_loop_none opts i slot acc :
  Forall (λ opt, Option.position opt = 0%Z) opts →
  slot ≠ 0%Z →
  findOption_position_loop opts i slot acc = acc.
Proof.
  intros Hall Hslot. revert i.
  induction Hall as [|opt opts Hopt _ IH]; intros i; simpl; [done|].
  rewrite Hopt. destruct (Z.eqb_spec 0 slot); [congruence|]. apply IH.
Qed.

Lemma has_positional_false p :
  has_positional p = false →
  Forall (λ opt, Option.position opt = 0%Z) (options_ p).
Proof.
  unfold has_positional. intros H. apply Forall_forall. intros opt Hin.
  destruct (Z.eqb_spec (Option.position opt) 0) as [|Hne]; [done|].
  assert (existsb (λ opt, negb (Option.position opt =? 0)%Z) (options_ p)
          = true) as Hex; [|congruence].
  apply existsb_exists. exists opt. split; [by apply list_elem_of_In|].
  by destruct (Z.eqb_spec (Option.position opt) 0).
Qed.

Lemma Forall2_still_position os os' :
  Forall2 still os os' →
  Forall (λ opt, Option.position opt = 0%Z) os →
  Forall (λ opt, Option.position opt = 0%Z) os'.
Proof.
  induction 1 as [|o o' os os' Ho _ IH]; [done|].
  intros [Hp Hos]%Forall_cons. constructor; [|by apply IH].
  by destruct Ho as [->| ->].
Qed.

(** X16.  When no option has a position, a bare argument that no option
    is waiting for is an error wherever it stands: [parse] returns
    [false] with "positional arg not allowed" and the argument, and
    leaves memory as it was at that point. *)
Theorem positional_not_allowed (argc : Z) (argv : list string)
    (p : CommandLineParser) (m : Memory) (k : Z)
    (p1 : CommandLineParser) (m1 : Memory) (l1 : Locals) (tok : string) :
  reaches argv p m k p1 m1 l1 →
  (k < argc)%Z →
  has_positional p = false →
  lastOption l1 = None →
  lastOptionUnknown l1 = false →
  argv_at argv k = Some tok →
  bare tok →
  parse argc argv p m =
  Returns false (formatArgError "positional arg not allowed" tok p1) m1.
Proof.
  intros Hreach Hk Hpos Hl Hu Htok [He Hd].
  eapply parse_returns_at; [done..|].
  destruct Hreach as (argv0 & _ & _ & Hloop).
  pose proof (parse_loop_effect (has_positional p) argv (seqZ 1 (k - 1))
                (parse_program argv0 p) m locals0) as Heff.
  pose proof (parse_loop_position _ _ _ _ _ _ _ _ _ Hloop) as Hposn.
  rewrite Hloop in Heff. destruct Heff as ((_ & _ & Hos) & _).
  rewrite options_parse_program in Hos.
  unfold parse_arg. rewrite He, Hd, Hu, Hl. simpl.
  unfold findOption_position.
  rewrite findOption_position_loop_none; [done| |simpl in Hposn; lia].
  eapply Forall2_still_position; [done|]. by apply has_positional_false.
Qed.

Lemma positional_not_allowed_witness :
  parse 4 ["prog"; "-l"; "3"; "file"] level_parser level_memory =
  Returns false
    (formatArgError "positional arg not allowed" "file"
       (mark_parsed 0 (parse_program "prog" level_parser)))
    (<[0 := VScalar (TIntegral int_) 3%Z]> level_memory).
Proof.
  apply (positional_not_allowed 4 ["prog"; "-l"; "3"; "file"] level_parser
           level_memory 3 _ _ locals0).
  - exists "prog". split; [reflexivity|]. split; [lia | reflexivity].
  - lia.
  - reflexivity.
  - reflexivity.
  - reflexivity.
  - reflexivity.
  - split; reflexivity.
Defined.

(** ** The help text *)

(** X17.  [formatOptName] only appends: it writes the display name of
    the option behind what the buffer holds, whatever that is, and
    returns the number of characters it has written. *)
Theorem formatOptName_appends (opt : Option.t) :
  ∃ name,
    ∀ result, formatOptName opt result = (sv.size name, result +:+ name).
Proof.
  exists (formatOptName opt "").2. intros result.
  apply formatOptName_append.
Qed.

Lemma prefix_append_l n a b :
  String.prefix n a = true → String.prefix n (a +:+ b) = true.
Proof.
  revert a. induction n as [|c n IH]; intros a; [by destruct a, b|].
  destruct a as [|d a]; [done|]. rewrite append_cons. simpl.
  destruct (ascii_dec c d); [apply IH | done].
Qed.

Lemma contains_append_l n a b :
  sv.contains n a = true → sv.contains n (a +:+ b) = true.
Proof.
  induction a as [|d a IH].
  - simpl. rewrite orb_false_r. intros H.
    apply contains_prefix. by apply (prefix_append_l n "" b).
  - rewrite append_cons. cbn [sv.contains].
    intros [H|H]%orb_true_iff.
    + pose proof (prefix_append_l n (String d a) b H) as Hp.
      rewrite append_cons in Hp. by rewrite Hp.
    + rewrite (IH H). apply orb_true_r.
Qed.

Lemma help_line_extends w r opt : ∃ s, help_line w r opt = r +:+ s.
Proof.
  unfold help_line. rewrite (formatOptName_append opt (r +:+ "  ")).
  cbv beta iota.
  destruct (_ <? w), (negb (sv.empty (Option.help opt)));
    rewrite ?append_assoc; by eexists.
Qed.

Lemma help_usage_step_extends h opt :
  ∃ s, result (help_usage_step h opt) = result h +:+ s.
Proof.
  unfold help_usage_step.
  destruct (formatOptName opt "") as [n buf].
  destruct (is_named opt); simpl; [exists ""; by rewrite append_nil_r|].
  destruct (negb (Option.required opt)), (decide (Option.type opt = list_));
    rewrite ?append_assoc; by eexists.
Qed.

Lemma foldl_extends {A} (f : string → A → string) (xs : list A) r :
  (∀ r x, ∃ s, f r x = r +:+ s) → ∃ s, foldl f r xs = r +:+ s.
Proof.
  intros Hf. revert r. induction xs as [|x xs IH]; intros r; simpl.
  - exists "". by rewrite append_nil_r.
  - destruct (Hf r x) as [s ->]. destruct (IH (r +:+ s)) as [s' ->].
    exists (s +:+ s'). by rewrite append_assoc.
Qed.

Lemma foldl_usage_extends os h :
  ∃ s, result (foldl help_usage_step h os) = result h +:+ s.
Proof.
  revert h. induction os as [|o os IH]; intros h; simpl.
  - exists "". by rewrite append_nil_r.
  - destruct (IH (help_usage_step h o)) as [s' ->].
    destruct (help_usage_step_extends h o) as [s ->].
    exists (s +:+ s'). by rewrite append_assoc.
Qed.

(** X18.  The help text always begins with the usage line head, "usage: "
    followed by the program name and " [options]". *)
Theorem getHelp_usage_head (p : CommandLineParser) :
  ∃ rest, getHelp p = "usage: " +:+ program_ p +:+ " [options]" +:+ rest.
Proof.
  unfold getHelp.
  set (h0 := {| result := "usage: " +:+ program_ p +:+ " [options]";
                hasOptions := false; hasPositionalArgs := false;
                maxNameLen := 0; maxArgLen := 0 |}).
  destruct (foldl_usage_extends (options_ p) h0) as [s1 ->].
  set (h := foldl help_usage_step h0 (options_ p)).
  set (r1 := (result h0 +:+ s1) +:+ nl).
  assert (∃ s2,
            (if hasOptions h then
               foldl (λ result opt,
                        if is_named opt then help_line _ result opt else result)
                 (r1 +:+ "allowed options:" +:+ nl) (options_ p)
             else r1) = r1 +:+ s2) as [s2 ->].
  { destruct (hasOptions h).
    - destruct (foldl_extends
                  (λ result opt,
                     if is_named opt
                     then help_line
                            (if 30 <? maxNameLen h then 30 else maxNameLen h)
                            result opt
                     else result)
                  (options_ p) (r1 +:+ "allowed options:" +:+ nl)) as [s ->].
      { intros r x. destruct (is_named x); [apply help_line_extends|].
        exists "". by rewrite append_nil_r. }
      rewrite append_assoc. by eexists.
    - exists "". by rewrite append_nil_r. }
  assert (∃ s3,
            (if hasPositionalArgs h then
               foldl (λ result opt,
                        if is_named opt then result else help_line _ result opt)
                 ((r1 +:+ s2) +:+ "positional arguments:" +:+ nl) (options_ p)
             else r1 +:+ s2) = (r1 +:+ s2) +:+ s3) as [s3 ->].
  { destruct (hasPositionalArgs h).
    - destruct (foldl_extends
                  (λ result opt,
                     if is_named opt then result
                     else help_line
                            (if 30 <? maxArgLen h then 30 else maxArgLen h)
                            result opt)
                  (options_ p)
                  ((r1 +:+ s2) +:+ "positional arguments:" +:+ nl)) as [s ->].
      { intros r x. destruct (is_named x); [|apply help_line_extends].
        exists "". by rewrite append_nil_r. }
      rewrite (append_assoc (r1 +:+ s2)). by eexists.
    - exists "". by rewrite append_nil_r. }
  unfold r1, h0. simpl result. rewrite !append_assoc. by eexists.
Qed.

Lemma hasOptions_step h opt :
  hasOptions (help_usage_step h opt) = hasOptions h || is_named opt.
Proof.
  unfold help_usage_step. destruct (formatOptName opt "") as [n buf].
  destruct (is_named opt); simpl; by rewrite ?orb_true_r, ?orb_false_r.
Qed.

Lemma hasPositionalArgs_step h opt :
  hasPositionalArgs (help_usage_step h opt)
  = hasPositionalArgs h || negb (is_named opt).
Proof.
  unfold help_usage_step. destruct (formatOptName opt "") as [n buf].
  destruct (is_named opt); simpl; by rewrite ?orb_true_r, ?orb_false_r.
Qed.

Lemma hasOptions_keep os h :
  hasOptions h = true → hasOptions (foldl help_usage_step h os) = true.
Proof.
  revert h. induction os as [|o os IH]; intros h Hh; simpl; [done|].
  apply IH. by rewrite hasOptions_step, Hh.
Qed.

Lemma hasPositionalArgs_keep os h :
  hasPositionalArgs h = true →
  hasPositionalArgs (foldl help_usage_step h os) = true.
Proof.
  revert h. induction os as [|o os IH]; intros h Hh; simpl; [done|].
  apply IH. by rewrite hasPositionalArgs_step, Hh.
Qed.

Lemma hasOptions_foldl os h opt :
  opt ∈ os → is_named opt = true →
  hasOptions (foldl help_usage_step h os) = true.
Proof.
  intros (l1 & l2 & ->)%list_elem_of_split Hn.
  rewrite foldl_app. simpl. apply hasOptions_keep.
  by rewrite hasOptions_step, Hn, orb_true_r.
Qed.

Lemma hasPositionalArgs_foldl os h opt :
  opt ∈ os → is_named opt = false →
  hasPositionalArgs (foldl help_usage_step h os) = true.
Proof.
  intros (l1 & l2 & ->)%list_elem_of_split Hn.
  rewrite foldl_app. simpl. apply hasPositionalArgs_keep.
  by rewrite hasPositionalArgs_step, Hn, orb_true_r.
Qed.

(** A block of the help text lists each option it is for. *)
Lemma foldl_block_contains (f : string → Option.t → string) os r opt :
  (∀ r x, ∃ s, f r x = r +:+ s) →
  (∀ r, sv.contains (formatOptName opt "").2 (f r opt) = true) →
  opt ∈ os →
  sv.contains (formatOptName opt "").2 (foldl f r os) = true.
Proof.
  intros Hext Hopt (l1 & l2 & ->)%list_elem_of_split.
  rewrite foldl_app. simpl.
  destruct (foldl_extends f l2 (f (foldl f r l1) opt) Hext) as [s ->].
  by apply contains_append_l.
Qed.

(** X19.  The help text lists every registered option: the display name
    of each option, as [formatOptName] writes it, occurs in it. *)
Theorem getHelp_lists_options (p : CommandLineParser) (opt : Option.t) :
  opt ∈ options_ p →
  sv.contains (formatOptName opt "").2 (getHelp p) = true.
Proof.
  intros Hin. unfold getHelp.
  set (h := foldl help_usage_step _ (options_ p)).
  set (r1 := result h +:+ nl).
  set (named := λ result o,
         if is_named o
         then help_line (if 30 <? maxNameLen h then 30 else maxNameLen h)
                result o
         else result).
  set (positional := λ result o,
         if is_named o then result
         else help_line (if 30 <? maxArgLen h then 30 else maxArgLen h)
                result o).
  assert (∀ r x, ∃ s, named r x = r +:+ s) as Hnamed.
  { intros r x. unfold named. destruct (is_named x); [apply help_line_extends|].
    exists "". by rewrite append_nil_r. }
  assert (∀ r x, ∃ s, positional r x = r +:+ s) as Hpositional.
  { intros r x. unfold positional.
    destruct (is_named x); [|apply help_line_extends].
    exists "". by rewrite append_nil_r. }
  destruct (is_named opt) eqn:Hn.
  - assert (hasOptions h = true) as -> by (by eapply hasOptions_foldl).
    assert (sv.contains (formatOptName opt "").2
              (foldl named (r1 +:+ "allowed options:" +:+ nl) (options_ p))
            = true) as Hblock.
    { apply foldl_block_contains; [done| |done].
      intros r. unfold named. rewrite Hn. apply help_line_contains. }
    destruct (hasPositionalArgs h); [|done].
    destruct (foldl_extends positional (options_ p)
                (foldl named (r1 +:+ "allowed options:" +:+ nl) (options_ p)
                   +:+ "positional arguments:" +:+ nl) Hpositional) as [s ->].
    by do 2 apply contains_append_l.
  - assert (hasPositionalArgs h = true) as ->
      by (by eapply hasPositionalArgs_foldl).
    apply foldl_block_contains; [done| |done].
    intros r. unfold positional. rewrite Hn. apply help_line_contains.
Qed.

Lemma getHelp_lists_options_witness :
  sv.contains
    (formatOptName
       (Option.Option list_ 2 (parseList TText) "+,,path" "file path(s)" (-1))
       "").2
    (getHelp test_parser) = true.
Proof.
  apply (getHelp_lists_options test_parser).
  repeat constructor.
Defined.

(** ** An induction principle for the engine

    The parser and the memory change in three ways only: the program
    name is set, the error text is set, and an option is marked parsed
    and its binder called.  A property kept by the three is kept by
    [parse]. *)

Section preserved.

Variable I : CommandLineParser → Memory → Prop.

Hypothesis I_program : ∀ s p m, I p m → I (with_program s p) m.
Hypothesis I_error : ∀ e p m, I p m → I (with_error e p) m.
Hypothesis I_apply :
  ∀ i v p m b m',
    I p m → invoke i v p m = Some (b, m') → I (mark_parsed i p) m'.

Lemma parseOption_preserves i v p m b p' m' :
  I p m →
  parseOption i v (mark_parsed i p) m = Some (b, p', m') →
  I p' m'.
Proof.
  intros HI. unfold parseOption.
  destruct (invoke i v (mark_parsed i p) m) as [[c m1]|] eqn:Hinv; [|done].
  rewrite invoke_mark_parsed in Hinv.
  pose proof (I_apply _ _ _ _ _ _ HI Hinv) as HI'.
  destruct c; intros [= <- <- <-]; [done|]. by apply I_error.
Qed.

Lemma findOption_name_preserves name p m :
  I p m → I (findOption_name name p).2 m.
Proof.
  intros HI. unfold findOption_name.
  destruct (list_find _ _) as [[i opt]|]; [done|]. simpl.
  destruct (skipUnknown_ p); [done|]. by apply I_error.
Qed.

Lemma findOption_optChar_preserves c p m :
  I p m → I (findOption_optChar c p).2 m.
Proof.
  intros HI. unfold findOption_optChar.
  destruct (list_find _ _) as [[i opt]|]; [done|]. simpl.
  destruct (skipUnknown_ p); [done|]. by apply I_error.
Qed.

Lemma parse_bundle_preserves name p m l :
  I p m → kept I (parse_bundle name p m l).
Proof.
  revert p m. induction name as [|c name IH]; intros p m HI; simpl; [done|].
  pose proof (findOption_optChar_preserves c p m HI) as HI1.
  destruct (findOption_optChar c p) as [[i|] p1]; simpl in *.
  - destruct (options_ p1 !! i) as [opt|]; [|done].
    destruct (decide (Option.type opt ≠ flag)); [by apply I_error|].
    destruct (invoke i "" (mark_parsed i p1) m) as [[b m1]|] eqn:Hinv; [|done].
    rewrite invoke_mark_parsed in Hinv. apply IH. by eapply I_apply.
  - destruct (skipUnknown_ p1); [by apply IH | done].
Qed.

Lemma parse_resolved_preserves h tok hv v m l r :
  I r.2 m → kept I (parse_resolved h tok hv v m l r).
Proof.
  intros HI. unfold parse_resolved. destruct r as [[i|] p]; simpl in *.
  - destruct (options_ p !! i) as [opt|]; [|done].
    destruct (decide (Option.type opt = flag)).
    + destruct hv; [by apply I_error|].
      destruct (invoke i "" (mark_parsed i p) m) as [[b m1]|] eqn:Hinv; [|done].
      rewrite invoke_mark_parsed in Hinv. simpl. by eapply I_apply.
    + destruct hv; simpl; [|done].
      destruct (parseOption i v (mark_parsed i p) m) as [[[b p2] m2]|] eqn:Hpo;
        [|done].
      apply parseOption_preserves in Hpo; [|done].
      destruct b; [|done]. by destruct (bool_decide _ && negb h).
  - by destruct (skipUnknown_ p).
Qed.

Lemma parse_arg_preserves h tok p m l :
  I p m → kept I (parse_arg h tok p m l).
Proof.
  intros HI. unfold parse_arg.
  destruct (sv.empty tok); [done|].
  destruct (sv.starts_with "-" tok); simpl.
  - destruct (negb _ && _).
    + destruct (sv.empty _); [done|]. case_bool_decide; [by apply I_error|].
      apply parse_resolved_preserves. by apply findOption_name_preserves.
    + destruct (sv.empty _); [done|]. case_bool_decide; [by apply I_error|].
      destruct (match sv.find "=" _ with Some k => _ | None => _ end)
        as [|c [|c' name]].
      * case_bool_decide; [by apply I_error | done].
      * apply parse_resolved_preserves. by apply findOption_optChar_preserves.
      * case_bool_decide; [by apply I_error | by apply parse_bundle_preserves].
  - destruct (lastOptionUnknown l); [done|].
    destruct (lastOption l) as [i|].
    + destruct (parseOption i tok (mark_parsed i p) m) as [[[b p1] m1]|] eqn:Hpo;
        [|done].
      apply parseOption_preserves in Hpo; [|done].
      destruct b; [|done].
      destruct (options_ p1 !! i) as [opt|]; [|done].
      by destruct (bool_decide _ || h).
    + destruct (findOption_position _ p) as [i|]; [|by apply I_error].
      destruct (parseOption i tok (mark_parsed i p) m) as [[[b p1] m1]|] eqn:Hpo;
        [|done].
      apply parseOption_preserves in Hpo; [|done]. by destruct b.
Qed.

Lemma parse_loop_preserves h argv ks p m l :
  I p m → kept I (parse_loop h argv ks p m l).
Proof.
  revert p m l. induction ks as [|k ks IH]; intros p m l HI; simpl; [done|].
  destruct (argv_at argv k) as [tok|]; [|done].
  pose proof (parse_arg_preserves h tok p m l HI) as Harg.
  destruct (parse_arg h tok p m l) as [p1 m1 l1| |]; [|done..].
  by apply IH.
Qed.

Lemma parse_preserves argc argv p m b p' m' :
  I p m → parse argc argv p m = Returns b p' m' → I p' m'.
Proof.
  intros HI. unfold parse. destruct (argv_at argv 0) as [argv0|]; [|done].
  assert (I (parse_program argv0 p) m) as HI0.
  { unfold parse_program. destruct (sv.find_last_of _ _); by repeat apply I_program. }
  pose proof (parse_loop_preserves (has_positional (parse_program argv0 p)) argv
                (seqZ 1 (argc - 1)) _ m locals0 HI0) as Hloop.
  destruct (parse_loop _ _ _ _ _ _) as [p1 m1 l1|b1 p1 m1|f]; simpl; [| |done].
  - destruct (lastOption l1) as [i|]; [|by intros [= _ <- <-]].
    destruct (options_ p1 !! i) as [opt|]; [|done].
    destruct (Option.parsed opt); [by intros [= _ <- <-]|].
    destruct (argv_at argv (argc - 1)); [|done].
    intros [= _ <- <-]. by apply I_error.
  - by intros [= _ <- <-].
Qed.

End preserved.

(** ** Optionals of parsed options *)

Lemma call_engaged fn x str b x' :
  call fn x str = Some (b, x') → engaged x'.
Proof.
  destruct fn as [|T|T], x as [c|t v|t l]; simpl; try done.
  - by intros [= _ <-].
  - destruct (decide (T = t)); [|done]. intros [= _ <-].
    by destruct t.
  - destruct (decide (T = t)); [|done]. by intros [= _ <-].
Qed.

Lemma parsed_engaged_apply i v p m b m' :
  parsed_engaged p m →
  invoke i v p m = Some (b, m') →
  parsed_engaged (mark_parsed i p) m'.
Proof.
  intros HJ. unfold invoke.
  destruct (options_ p !! i) as [opt|] eqn:Hopt; [|done].
  destruct (m !! Option.value opt) as [x|] eqn:Hx; [|done].
  destruct (call (Option.parse opt) x v) as [[c x']|] eqn:Hcall; [|done].
  intros [= _ <-] opt' y Hin Hparsed.
  destruct (decide (Option.value opt = Option.value opt')) as [Heq|Hne].
  - rewrite Heq, lookup_insert_eq. intros [= <-]. by eapply call_engaged.
  - rewrite lookup_insert_ne by done. intros Hy.
    apply list_elem_of_lookup in Hin as [j Hj]. simpl in Hj.
    destruct (decide (i = j)) as [<-|Hij].
    + rewrite list_lookup_alter_eq, Hopt in Hj. injection Hj as <-. done.
    + rewrite list_lookup_alter_ne in Hj by done.
      eapply HJ; [by eapply list_elem_of_lookup_2|done..].
Qed.

(** X20.  An option that is marked parsed has had a value stored for it:
    if that holds of the optionals before a call of [parse] (as it does
    when nothing is parsed yet), then after the call every parsed option
    that is bound to a [std::optional] finds it engaged, whether the
    call returned [true] or [false]. *)
Theorem parse_engages_optionals (argc : Z) (argv : list string)
    (p p' : CommandLineParser) (m m' : Memory) (b : bool) :
  parsed_engaged p m →
  parse argc argv p m = Returns b p' m' →
  parsed_engaged p' m'.
Proof.
  apply (parse_preserves parsed_engaged); [done|done|].
  apply parsed_engaged_apply.
Qed.

Lemma fresh_parsed_engaged p m :
  (∀ opt, opt ∈ options_ p → Option.parsed opt = false) →
  parsed_engaged p m.
Proof. intros Hfresh opt x Hin Hp. rewrite (Hfresh opt Hin) in Hp. done. Qed.

Lemma parsed_engaged_test_parser : parsed_engaged test_parser test_memory.
Proof.
  apply fresh_parsed_engaged. intros opt Hin.
  repeat (apply elem_of_cons in Hin as [->|Hin]; [reflexivity|]).
  by apply elem_of_nil in Hin.
Defined.

Lemma parse_engages_optionals_witness :
  ∃ p' m',
    parse 2 ["prog"; "-c=x"] test_parser test_memory = Returns false p' m'
    ∧ parsed_engaged p' m'.
Proof.
  eexists _, _. split; [reflexivity|].
  eapply (parse_engages_optionals 2 ["prog"; "-c=x"] test_parser _
            test_memory _ false).
  - exact parsed_engaged_test_parser.
  - reflexivity.
Defined.

(** ** No undefined behaviour *)

Lemma well_bound_apply i v p m b m' :
  well_bound p m →
  invoke i v p m = Some (b, m') →
  well_bound (mark_parsed i p) m'.
Proof.
  intros Hwb Hinv.
  assert (i < length (options_ p)) as Hi.
  { unfold invoke in Hinv.
    destruct (options_ p !! i) eqn:Hopt; [|done]. by eapply lookup_lt_Some. }
  destruct (invoke_well_bound i v p m Hwb Hi) as (b' & m'' & Hinv' & Hwb').
  rewrite Hinv in Hinv'. injection Hinv' as <- <-.
  by apply well_bound_mark_parsed.
Qed.

(** X21.  On a table whose options are bound to live variables of the
    right types, as [addFlag] and [add] make it, and an [argv] of
    [argc >= 1] strings, [parse] has no undefined behaviour: it returns,
    and the table is bound as well afterwards, so that it can be used
    again. *)
Theorem parse_defined (argc : Z) (argv : list string)
    (p : CommandLineParser) (m : Memory) :
  well_bound p m →
  (1 ≤ argc)%Z →
  Z.of_nat (length argv) = argc →
  ∃ b p' m', parse argc argv p m = Returns b p' m' ∧ well_bound p' m'.
Proof.
  intros Hwb Hargc Hlen.
  destruct (parse_returns argc argv p m Hwb Hargc Hlen) as (b & p' & m' & Hp).
  exists b, p', m'. split; [done|].
  revert Hwb Hp. apply (parse_preserves well_bound); [done|done|].
  apply well_bound_apply.
Qed.

Lemma parse_defined_witness :
  ∃ b p' m',
    parse 3 ["prog"; "-x"; "y"] test_parser test_memory = Returns b p' m'
    ∧ well_bound p' m'.
Proof.
  apply (parse_defined 3 ["prog"; "-x"; "y"] test_parser test_memory).
  - exact well_bound_test_parser.
  - lia.
  - reflexivity.
Defined.

(** ** Bundles of flags *)

Lemma list_find_still (P : Option.t → Prop) `{∀ o, Decision (P o)} os os' :
  (∀ o, P (Option.set_parsed o) ↔ P o) →
  Forall2 still os os' →
  fst <$> list_find P os' = fst <$> list_find P os.
Proof.
  intros HP Hos. induction Hos as [|o o' os os' Ho _ IH]; [done|].
  simpl. assert (P o' ↔ P o) as Hiff by (by destruct Ho as [->| ->]).
  destruct (decide (P o)) as [Hp|Hp], (decide (P o')) as [Hp'|Hp'];
    try done; try tauto.
  rewrite <-!option_fmap_compose. simpl.
  destruct (list_find P os) as [[j x]|], (list_find P os') as [[j' x']|];
    simpl in *; congruence.
Qed.

Lemma findOption_optChar_still c p p' :
  Forall2 still (options_ p) (options_ p') →
  (findOption_optChar c p').1 = (findOption_optChar c p).1.
Proof.
  intros Hos. unfold findOption_optChar.
  pose proof (list_find_still
                (λ opt, is_Some (sv.find c (Option.flags opt))) _ _
                ltac:(done) Hos) as Hfind.
  destruct (list_find _ (options_ p)) as [[i o]|],
           (list_find _ (options_ p')) as [[i' o']|]; simpl in *; congruence.
Qed.

(** The bundle loop on characters that are all flags. *)
Lemma parse_bundle_flags name :
  ∀ p m l,
    (∀ c, is_Some (sv.find c name) → ∃ i opt, flag_char p m c i opt) →
    ∃ p' m',
      parse_bundle name p m l = Continue p' m' l
      ∧ Forall2 still (options_ p) (options_ p')
      ∧ (∀ a, m' !! a = m !! a ∨ m' !! a = Some (VBool true))
      ∧ ∀ c i opt,
          is_Some (sv.find c name) →
          flag_char p m c i opt →
          Option.parsed <$> options_ p' !! i = Some true
          ∧ m' !! Option.value opt = Some (VBool true).
Proof.
  induction name as [|c0 name IH]; intros p m l Hall.
  { exists p, m. split; [done|]. split; [apply Forall2_still_refl|].
    split; [by left|]. by intros c i opt [? [=]]. }
  destruct (Hall c0) as (i0 & opt0 & Hfind0 & Hopt0 & Hty0 & Hfn0 & b0 & Hm0).
  { simpl. by rewrite Ascii.eqb_refl. }
  set (p1 := mark_parsed i0 p).
  set (m1 := <[Option.value opt0 := VBool true]> m).
  assert (Forall2 still (options_ p) (options_ p1)) as Hstill1
    by apply same_table_mark_parsed.
  assert (∀ a, m1 !! a = m !! a ∨ m1 !! a = Some (VBool true)) as Hm1.
  { intros a. unfold m1. destruct (decide (Option.value opt0 = a)) as [<-|].
    - right. by rewrite lookup_insert_eq.
    - left. by rewrite lookup_insert_ne. }
  assert (∀ c i opt, flag_char p m c i opt →
            ∃ opt', flag_char p1 m1 c i opt'
                    ∧ Option.value opt' = Option.value opt) as Hkeep.
  { intros c i opt (Hfind & Hopt & Hty & Hfn & b & Hm).
    destruct (Forall2_lookup_l _ _ _ _ _ Hstill1 Hopt) as (opt' & Hopt' & Hs).
    exists opt'. split; [|by apply still_value].
    split; [by rewrite (findOption_optChar_still c p p1)|].
    split; [done|].
    split; [by destruct Hs as [->| ->]|].
    split; [by destruct Hs as [->| ->]|].
    rewrite (still_value _ _ Hs).
    destruct (Hm1 (Option.value opt)) as [->| ->]; by eexists. }
  destruct (IH p1 m1 l) as (p' & m' & Hrun & Hstill & Hmem & Hset).
  { intros c Hc. destruct (Hall c) as (i & opt & Hflag).
    - simpl. destruct (Ascii.eqb c0 c); [done|]. by destruct Hc as [k ->].
    - destruct (Hkeep c i opt Hflag) as (opt' & Hflag' & _). by exists i, opt'. }
  exists p', m'. split.
  { simpl. rewrite (findOption_optChar_found _ _ _ Hfind0), Hopt0.
    destruct (decide (Option.type opt0 ≠ flag)); [done|].
    rewrite invoke_mark_parsed. unfold invoke. rewrite Hopt0, Hm0, Hfn0.
    simpl. done. }
  split.
  { apply Forall2_same_length_lookup. split.
    - apply Forall2_length in Hstill1, Hstill. congruence.
    - intros j o o' Hj Hj'.
      destruct (Forall2_lookup_l _ _ _ _ _ Hstill1 Hj) as (o1 & Hj1 & Hs1).
      destruct (Forall2_lookup_l _ _ _ _ _ Hstill Hj1) as (o2 & Hj2 & Hs2).
      rewrite Hj' in Hj2. injection Hj2 as <-. by eapply still_trans. }
  split.
  { intros a. destruct (Hmem a) as [Ha|Ha]; [|by right].
    rewrite Ha. apply Hm1. }
  intros c i opt Hc Hflag.
  destruct (Hkeep c i opt Hflag) as (opt' & Hflag' & Hval).
  destruct (Hmem (Option.value opt)) as [Hsame|Htrue].
  - destruct (decide (c = c0)) as [->|Hne].
    + destruct Hflag as (Hfind & Hopt & _).
      rewrite Hfind0 in Hfind. injection Hfind as <-.
      rewrite Hopt0 in Hopt. injection Hopt as <-.
      split.
      * destruct (Forall2_lookup_l _ _ _ _ _ Hstill
                    (eq_trans (options_mark_parsed_eq i0 p)
                       (f_equal _ Hopt0)))
          as (o' & -> & Hs). simpl. by destruct Hs as [->| ->].
      * rewrite Hsame. unfold m1. by rewrite lookup_insert_eq.
    + assert (is_Some (sv.find c name)) as Hc'.
      { simpl in Hc. apply Ascii.eqb_neq in Hne.
        rewrite Ascii.eqb_sym, Hne in Hc. by destruct (sv.find c name). }
      destruct (Hset c i opt' Hc' Hflag') as [Hp Hm'].
      split; [done|]. by rewrite <-Hval.
  - split; [|done].
    destruct Hflag' as (_ & Hopt' & _).
    destruct (decide (c = c0)) as [->|Hne].
    + destruct Hflag as (Hfind & _).
      rewrite Hfind0 in Hfind. injection Hfind as <-.
      destruct (Forall2_lookup_l _ _ _ _ _ Hstill
                  (eq_trans (options_mark_parsed_eq i0 p) (f_equal _ Hopt0)))
        as (o' & -> & Hs). simpl. by destruct Hs as [->| ->].
    + assert (is_Some (sv.find c name)) as Hc'.
      { simpl in Hc. apply Ascii.eqb_neq in Hne.
        rewrite Ascii.eqb_sym, Hne in Hc. by destruct (sv.find c name). }
      destruct (Hkeep c i opt Hflag) as (opt'' & Hflag'' & _).
      by destruct (Hset c i opt'' Hc' Hflag'') as [Hp _].
Qed.

(** X22.  A bundle [-xyz] whose characters are all short forms of flags
    applies every one of them and takes no value: each flag named in it
    is marked parsed and its variable is [true] afterwards, no field of
    an option other than [parsed] changes, and every other variable is
    what it was or a flag set by the bundle. *)
Theorem bundle_sets_flags (h : bool) (c1 c2 : ascii) (name : string)
    (p : CommandLineParser) (m : Memory) (l : Locals) :
  c1 ≠ "-"%char →
  sv.find "=" (String c1 (String c2 name)) = None →
  (∀ c, is_Some (sv.find c (String c1 (String c2 name))) →
        ∃ i opt, flag_char p m c i opt) →
  ∃ p' m',
    parse_arg h (String "-" (String c1 (String c2 name))) p m l
      = Continue p' m' (scanning l)
    ∧ Forall2 still (options_ p) (options_ p')
    ∧ (∀ a, m' !! a = m !! a ∨ m' !! a = Some (VBool true))
    ∧ ∀ c i opt,
        is_Some (sv.find c (String c1 (String c2 name))) →
        flag_char p m c i opt →
        Option.parsed <$> options_ p' !! i = Some true
        ∧ m' !! Option.value opt = Some (VBool true).
Proof.
  intros Hd Heq Hall. rewrite parse_arg_bundle by done.
  by apply parse_bundle_flags.
Qed.

Lemma bundle_sets_flags_witness :
  ∃ p' m',
    parse_arg false "-xh" two_flags_parser two_bools locals0
      = Continue p' m' (scanning locals0)
    ∧ Forall2 still (options_ two_flags_parser) (options_ p')
    ∧ (∀ a, m' !! a = two_bools !! a ∨ m' !! a = Some (VBool true))
    ∧ ∀ c i opt,
        is_Some (sv.find c "xh") →
        flag_char two_flags_parser two_bools c i opt →
        Option.parsed <$> options_ p' !! i = Some true
        ∧ m' !! Option.value opt = Some (VBool true).
Proof.
  apply (bundle_sets_flags false "x" "h" "" two_flags_parser two_bools locals0).
  - discriminate.
  - reflexivity.
  - intros c Hc.
    destruct (Ascii.eqb_spec "x" c) as [<-|Hx].
    { exists 1, (Option.Option flag 1 parseFlag "verbose,x" "" 0).
      split; [reflexivity|]. split; [reflexivity|]. split; [reflexivity|].
      split; [reflexivity|]. by exists false. }
    destruct (Ascii.eqb_spec "h" c) as [<-|Hh].
    { exists 0, (Option.Option flag 0 parseFlag "help,h" "" 0).
      split; [reflexivity|]. split; [reflexivity|]. split; [reflexivity|].
      split; [reflexivity|]. by exists false. }
    apply Ascii.eqb_neq in Hx, Hh. unfold sv.find in Hc.
    rewrite Hx, Hh in Hc. destruct Hc as [k Hk]. discriminate Hk.
Defined.

(** The bundle [-xh] from the outside. *)
Example bundle_scenario :
  observe (parse 2 ["prog"; "-xh"] two_flags_parser two_bools)
    = Some (true, "", [true; true],
            <[0 := VBool true]> (<[1 := VBool true]> two_bools)).
Proof. reflexivity. Qed.

(** ** The demo program *)

Lemma checkRequired_true p :
  (checkRequired p).1 = true →
  (checkRequired p).2 = p
  ∧ ∀ opt, opt ∈ options_ p →
      Option.required opt = true → Option.parsed opt = true.
Proof.
  unfold checkRequired.
  destruct (list_find _ _) as [[i opt]|] eqn:Hfind; simpl; [done|].
  intros _. split; [done|]. apply list_find_None in Hfind.
  intros opt Hin Hreq. eapply Forall_forall in Hfind; [|done].
  destruct (Option.parsed opt); [done|]. destruct Hfind. by split.
Qed.

Lemma checkRequired_false p :
  (checkRequired p).1 = false →
  error (checkRequired p).2 ≠ "" ∧ getHelp (checkRequired p).2 = getHelp p.
Proof.
  unfold checkRequired.
  destruct (list_find _ _) as [[i opt]|] eqn:Hfind; simpl; [|done].
  intros _. split; [|done].
  rewrite formatOptName_append. simpl. intros H.
  by apply append_empty in H as [H _].
Qed.

(** What [main] finds in its variables after [parse]. *)
Lemma main_variables argc argv b p' m' :
  parse argc argv test_parser test_memory = Returns b p' m' →
  (∃ printHelp, m' !! 0 = Some (VBool printHelp))
  ∧ (∃ compression,
       m' !! 1 = Some (VScalar (TOptional (TIntegral int_)) compression)).
Proof.
  intros Hparse.
  destruct (parse_effect _ _ _ _ _ _ _ Hparse) as (argv0 & _ & _ & Hw & _).
  split.
  - destruct (Hw 0) as [->|(_ & x & x' & Hx & -> & Hty)]; [by eexists|].
    change (test_memory !! 0) with (Some (VBool false)) in Hx.
    injection Hx as <-. destruct x'; try done. by eexists.
  - destruct (Hw 1) as [->|(_ & x & x' & Hx & -> & Hty)]; [by eexists|].
    change (test_memory !! 1)
      with (Some (VScalar (TOptional (TIntegral int_)) None)) in Hx.
    injection Hx as <-. destruct x' as [|t v|]; try done.
    simpl in Hty. subst t. by eexists.
Qed.

(** X23.  The demo program has no undefined behaviour: started with an
    [argv] of [argc >= 1] strings, [main] returns. *)
Theorem main_defined (argc : Z) (argv : list string) :
  (1 ≤ argc)%Z →
  Z.of_nat (length argv) = argc →
  is_Some (main argc argv).
Proof.
  intros Hargc Hlen. unfold main.
  destruct (parse_returns argc argv test_parser test_memory
              well_bound_test_parser Hargc Hlen) as (b & p' & m' & Hparse).
  rewrite Hparse.
  destruct (main_variables _ _ _ _ _ Hparse) as [[h ->] [c ->]].
  destruct b; simpl; [|done]. destruct h; [done|].
  destruct (checkRequired p') as [[|] p'']; by simpl.
Qed.

Lemma main_defined_witness : is_Some (main 2 ["prog"; "-h"]).
Proof. apply main_defined; [lia | reflexivity]. Defined.

(** X24.  What the demo program prints.  Either it returns 0 and writes
    nothing to [std::cerr]; then [std::cout] has the help text, or the
    line "compression level is N" (on that path the required option has
    been parsed, so the optional is never empty).  Or it returns -1 and
    writes nothing to [std::cout]; then [std::cerr] has an error text
    that is not empty, followed by the help text.  The help text is
    that of the parser as registered, under the program name of
    [argv[0]]. *)
Theorem main_output (argc : Z) (argv : list string) (argv0 : string)
    (e : Exit) :
  argv_at argv 0 = Some argv0 →
  main argc argv = Some e →
  let help := getHelp (parse_program argv0 test_parser) in
  (status e = 0%Z ∧ cerr e = ""
   ∧ (cout e = help +:+ nl
      ∨ ∃ n, cout e = "compression level is " +:+ show_int n +:+ nl))
  ∨ (status e = (-1)%Z ∧ cout e = ""
     ∧ ∃ msg, msg ≠ "" ∧ cerr e = msg +:+ nl +:+ help +:+ nl).
Proof.
  intros H0 Hmain help. subst help. revert Hmain. unfold main, fail_with.
  destruct (parse argc argv test_parser test_memory) as [b p' m'|] eqn:Hparse;
    [|done].
  destruct (main_variables _ _ _ _ _ Hparse) as [[h Hh] [c Hc]].
  destruct (parse_effect _ _ _ _ _ _ _ Hparse)
    as (argv1 & H1 & (Hprog & _ & Hos) & _ & Herr).
  rewrite H0 in H1. injection H1 as <-.
  assert (getHelp p' = getHelp (parse_program argv0 test_parser)) as Hhelp
    by (by apply getHelp_still).
  destruct b; simpl.
  2:{ intros [= <-]. right. simpl. split; [done|]. split; [done|].
      exists (error p'). by rewrite Hhelp. }
  rewrite Hh. destruct h.
  { intros [= <-]. left. simpl. split; [done|]. split; [done|]. left.
    by rewrite Hhelp. }
  destruct (checkRequired p') as [ok p''] eqn:Hcheck.
  destruct ok; simpl.
  2:{ intros [= <-]. right. simpl. split; [done|]. split; [done|].
      destruct (checkRequired_false p') as [He Hg]; [by rewrite Hcheck|].
      rewrite Hcheck in He, Hg. simpl in He, Hg.
      exists (error p''). split; [done|]. by rewrite Hg, Hhelp. }
  rewrite Hc. intros [= <-]. left. simpl. split; [done|]. split; [done|]. right.
  destruct (checkRequired_true p') as [_ Hreq]; [by rewrite Hcheck|].
  assert (parsed_engaged p' m') as Heng.
  { revert Hparse. apply (parse_preserves parsed_engaged); [done|done| |].
    - apply parsed_engaged_apply.
    - exact parsed_engaged_test_parser. }
  rewrite options_parse_program in Hos.
  eapply (Forall2_lookup_l _ _ _ 1) in Hos as (opt & Hopt & Hstill);
    [|reflexivity].
  assert (opt ∈ options_ p') as Hin by (by eapply list_elem_of_lookup_2).
  assert (Option.parsed opt = true) as Hparsed.
  { apply Hreq; [done|]. by destruct Hstill as [->| ->]. }
  assert (Option.value opt = 1) as Hval by (by destruct Hstill as [->| ->]).
  rewrite <-Hval in Hc. specialize (Heng opt _ Hin Hparsed Hc). destruct c as [n|]; [|done]. by exists n.
Qed.

Lemma main_output_witness :
  let help := getHelp (parse_program "bin/prog" test_parser) in
  ∃ e,
    main 3 ["bin/prog"; "-c=9"; "a.txt"] = Some e
    ∧ ((status e = 0%Z ∧ cerr e = ""
        ∧ (cout e = help +:+ nl
           ∨ ∃ n, cout e = "compression level is " +:+ show_int n +:+ nl))
       ∨ (status e = (-1)%Z ∧ cout e = ""
          ∧ ∃ msg, msg ≠ "" ∧ cerr e = msg +:+ nl +:+ help +:+ nl)).
Proof.
  eexists. split; [reflexivity|].
  eapply (main_output 3 ["bin/prog"; "-c=9"; "a.txt"] "bin/prog");
    reflexivity.
Defined.

(** Runs of the demo program. *)
Example main_runs :
  main 3 ["bin/prog"; "-c=9"; "a.txt"]
    = Some {| status := 0; cout := "compression level is 9" +:+ nl;
              cerr := "" |}
  ∧ (status <$> main 2 ["prog"; "-h"]) = Some 0%Z
  ∧ (status <$> main 2 ["prog"; "a.txt"]) = Some (-1)%Z
  ∧ (cerr <$> main 2 ["prog"; "--level"])
    = Some ("unknown option: --level" +:+ nl
            +:+ getHelp (parse_program "prog" test_parser) +:+ nl).
Proof. repeat split; reflexivity. Qed.

(** ** When [parsed] is set *)

Lemma becomes_parsed_same p p' j :
  options_ p' = options_ p → ¬ becomes_parsed p p' j.
Proof. intros Heq [H1 H2]. rewrite Heq in H2. congruence. Qed.

Lemma becomes_parsed_mark i p p' j :
  options_ p' = options_ (mark_parsed i p) → becomes_parsed p p' j → j = i.
Proof.
  intros Heq [H1 H2]. destruct (decide (j = i)) as [|Hne]; [done|].
  rewrite Heq, options_mark_parsed_ne in H2 by done. congruence.
Qed.

Lemma becomes_parsed_options p0 p p' j :
  options_ p0 = options_ p → becomes_parsed p0 p' j → becomes_parsed p p' j.
Proof. intros Heq [H1 H2]. split; [by rewrite <-Heq | done]. Qed.

Lemma parseOption_options i v p m b p' m' :
  parseOption i v p m = Some (b, p', m') → options_ p' = options_ p.
Proof.
  unfold parseOption. destruct (invoke i v p m) as [[[|] m1]|]; [| |done];
    by intros [= _ <- _].
Qed.

Lemma sv_find_split c s k :
  sv.find c s = Some k →
  s = sv.take k s +:+ String c (sv.drop (k + 1) s)
  ∧ sv.find c (sv.take k s) = None.
Proof.
  revert k. induction s as [|d s IH]; intros k; simpl; [done|].
  destruct (Ascii.eqb_spec d c) as [->|Hne].
  - by intros [= <-].
  - destruct (sv.find c s) as [k'|] eqn:Hfind; [|done].
    intros [= <-]. destruct (IH k' eq_refl) as [Hs Hnone]. simpl.
    split; [by rewrite append_cons, <-Hs|].
    apply Ascii.eqb_neq in Hne. by rewrite Hne, Hnone.
Qed.

(** The end of the loop body sets [parsed] for the option that was
    found, and only when that is a flag without a value or a value
    option with one. *)
Lemma parse_resolved_becomes_parsed h a hv v m l oi p0 p p' j :
  options_ p0 = options_ p →
  flow_parser (parse_resolved h a hv v m l (oi, p0)) = Some p' →
  becomes_parsed p p' j →
  oi = Some j
  ∧ ∃ opt, options_ p !! j = Some opt
           ∧ if decide (Option.type opt = flag) then hv = false
             else hv = true.
Proof.
  intros Hopts. unfold parse_resolved.
  destruct oi as [i|].
  2:{ destruct (skipUnknown_ p0); intros [= <-] Hb;
        by destruct (becomes_parsed_same p p0 j). }
  destruct (options_ p0 !! i) as [opt|] eqn:Hopt; [|done].
  assert (options_ (mark_parsed i p0) = options_ (mark_parsed i p)) as Hmark
    by (simpl; by rewrite Hopts).
  rewrite Hopts in Hopt.
  destruct (decide (Option.type opt = flag)) as [Hty|Hty].
  - destruct hv.
    { intros [= <-] Hb. by destruct (becomes_parsed_same p _ j Hopts). }
    destruct (invoke i "" (mark_parsed i p0) m); [|done].
    intros [= <-] Hb. apply (becomes_parsed_mark i) in Hb as ->; [|done].
    split; [done|]. exists opt. by rewrite decide_True.
  - destruct hv; simpl.
    2:{ intros [= <-] Hb. by destruct (becomes_parsed_same p p0 j). }
    destruct (parseOption i v (mark_parsed i p0) m) as [[[b p2] m2]|] eqn:Hpo;
      [|done].
    apply parseOption_options in Hpo.
    assert (flow_parser
              (if b
               then if bool_decide (Option.type opt = list_) && negb h
                    then Continue p2 m2 (with_lastOption (Some i) l)
                    else Continue p2 m2 l
               else Return false p2 m2) = Some p2) as Hflow.
    { destruct b; [|done]. by destruct (_ && _). }
    destruct b; rewrite Hflow; intros [= <-] Hb.
    all: apply (becomes_parsed_mark i) in Hb as ->; [|congruence].
    all: split; [done|]; exists opt; by rewrite decide_False.
Qed.

Lemma findOption_optChar_skipUnknown c p :
  skipUnknown_ (findOption_optChar c p).2 = skipUnknown_ p.
Proof.
  unfold findOption_optChar.
  destruct (list_find _ _) as [[j opt]|]; [done|]. simpl.
  by destruct (skipUnknown_ p) eqn:Hskip.
Qed.

Lemma bundle_passes_still p p' pre :
  Forall2 still (options_ p) (options_ p') →
  skipUnknown_ p' = skipUnknown_ p →
  bundle_passes p' pre →
  bundle_passes p pre.
Proof.
  intros Hos Hskip. induction pre as [|c pre IH]; simpl; [done|].
  intros [Hc Hpre]. split; [|by apply IH].
  rewrite (findOption_optChar_still c p p' Hos) in Hc.
  destruct (findOption_optChar c p).1 as [i|]; [|congruence].
  destruct Hc as (opt' & Hopt' & Hty).
  destruct (Forall2_lookup_r _ _ _ _ _ Hos Hopt') as (opt & Hopt & Hst).
  exists opt. split; [done|]. by destruct Hst as [->| ->].
Qed.

(** The bundle loop sets [parsed] only for flags that characters of the
    bundle stand for, and only for characters that it arrives at. *)
Lemma parse_bundle_becomes_parsed name :
  ∀ p m l p' j,
    flow_parser (parse_bundle name p m l) = Some p' →
    becomes_parsed p p' j →
    ∃ pre c post opt,
      name = pre +:+ String c post
      ∧ bundle_passes p pre
      ∧ (findOption_optChar c p).1 = Some j
      ∧ options_ p !! j = Some opt
      ∧ Option.type opt = flag.
Proof.
  induction name as [|c name IH]; intros p m l p' j; simpl.
  { intros [= <-] Hb. by destruct (becomes_parsed_same p p j). }
  pose proof (findOption_optChar_options c p) as Hopts.
  pose proof (findOption_optChar_skipUnknown c p) as Hskip.
  destruct (findOption_optChar c p) as [oi p0] eqn:Hfind.
  simpl in Hopts, Hskip.
  assert (Forall2 still (options_ p) (options_ p0)) as Hos0.
  { rewrite Hopts. apply Forall2_still_refl. }
  destruct oi as [i|].
  2:{ destruct (skipUnknown_ p0) eqn:Hskip0.
      - intros Hflow Hb.
        destruct (IH p0 m l p' j Hflow)
          as (pre & c' & post & opt & -> & Hpre & Hf & Ho & Hty).
        { by apply (becomes_parsed_options p). }
        exists (String c pre), c', post, opt.
        split; [done|]. split.
        { simpl. rewrite Hfind. simpl. split; [congruence|].
          apply (bundle_passes_still p p0); [done | congruence | done]. }
        by rewrite <-(findOption_optChar_still c' p p0 Hos0), <-Hopts.
      - intros [= <-] Hb. by destruct (becomes_parsed_same p p0 j). }
  destruct (options_ p0 !! i) as [opt|] eqn:Hopt; [|done].
  destruct (decide (Option.type opt ≠ flag)) as [Hty|Hty].
  { intros [= <-] Hb. by destruct (becomes_parsed_same p _ j Hopts). }
  apply dec_stable in Hty.
  destruct (invoke i "" (mark_parsed i p0) m) as [r|]; [|done].
  intros Hflow Hb. destruct (decide (j = i)) as [->|Hne].
  - exists "", c, name, opt. rewrite <-Hopts, Hfind. done.
  - assert (Forall2 still (options_ p) (options_ (mark_parsed i p0))) as Hos1.
    { rewrite <-Hopts. apply same_table_mark_parsed. }
    destruct (IH (mark_parsed i p0) r.2 l p' j Hflow)
      as (pre & c' & post & opt' & -> & Hpre & Hf & Ho & Hty').
    { destruct Hb as [H1 H2]. split; [|done].
      by rewrite options_mark_parsed_ne, Hopts. }
    exists (String c pre), c', post, opt'.
    split; [done|]. split.
    { simpl. rewrite Hfind. simpl. split.
      - exists opt. by rewrite <-Hopts.
      - by apply (bundle_passes_still p (mark_parsed i p0)). }
    split; [by rewrite <-(findOption_optChar_still c' p _ Hos1)|].
    by rewrite options_mark_parsed_ne, Hopts in Ho.
Qed.

Section token.

Local Arguments sv.find : simpl never.
Local Arguments sv.take : simpl never.
Local Arguments sv.drop : simpl never.

(** The loop body sets [parsed] only for an option that the argument
    is applied to. *)
Lemma parse_arg_becomes_parsed h tok p m l p' j :
  flow_parser (parse_arg h tok p m l) = Some p' →
  becomes_parsed p p' j →
  applies_to p l tok j.
Proof.
  unfold parse_arg.
  destruct (sv.empty tok) eqn:He.
  { intros [= <-] Hb. by destruct (becomes_parsed_same p p j). }
  destruct (sv.starts_with "-" tok) eqn:Hd; simpl.
  2:{ (* a bare argument *)
    destruct (lastOptionUnknown l) eqn:Hu.
    { intros [= <-] Hb. by destruct (becomes_parsed_same p p j). }
    destruct (lastOption l) as [i|] eqn:Hl.
    - destruct (parseOption i tok (mark_parsed i p) m) as [[[b p2] m2]|]
        eqn:Hpo; [|done].
      apply parseOption_options in Hpo.
      assert (flow_parser
                (if b
                 then match options_ p2 !! i with
                      | Some opt =>
                          if bool_decide (Option.type opt ≠ list_) || h
                          then Continue p2 m2 (with_lastOption None l)
                          else Continue p2 m2 l
                      | None => Undefined BadPointer
                      end
                 else Return false p2 m2) = Some p' → p' = p2) as Hflow.
      { destruct b; [|by intros [= <-]].
        destruct (options_ p2 !! i); [|done].
        destruct (_ || _); by intros [= <-]. }
      destruct b; intros ->%Hflow Hb.
      all: apply (becomes_parsed_mark i) in Hb as ->; [|done].
      all: left; exists tok; by apply to_pending.
    - destruct (findOption_position (position l + 1) p) as [i|] eqn:Hpos.
      2:{ intros [= <-] Hb. by destruct (becomes_parsed_same p _ j eq_refl). }
      destruct (parseOption i tok (mark_parsed i p) m) as [[[b p2] m2]|]
        eqn:Hpo; [|done].
      apply parseOption_options in Hpo.
      destruct b; intros [= <-] Hb.
      all: apply (becomes_parsed_mark i) in Hb as ->; [|done].
      all: left; exists tok; by apply to_positional. }
  (* an argument with a dash *)
  destruct tok as [|c0 arg]; [done|]. simpl in Hd.
  apply Ascii.eqb_eq in Hd as ->.
  change (sv.drop 1 (String "-" arg)) with arg.
  destruct arg as [|c1 rest].
  { intros [= <-] Hb. by destruct (becomes_parsed_same p p j). }
  simpl negb. simpl andb.
  destruct (Ascii.eqb_spec c1 "-") as [->|Hc1].
  - (* a long name *)
    change (sv.drop 1 (String "-" rest)) with rest.
    destruct rest as [|c2 rest]; simpl sv.empty; cbv iota.
    { intros [= <-] Hb. by destruct (becomes_parsed_same p p j). }
    set (arg := String c2 rest).
    destruct (sv.find "=" arg) as [k|] eqn:Heq.
    + case_bool_decide as Hk.
      { intros [= <-] Hb. by destruct (becomes_parsed_same p _ j eq_refl). }
      rewrite bool_decide_true by done.
      destruct (sv_find_split _ _ _ Heq) as [Harg Hnone].
      pose proof (findOption_name_options (sv.take k arg) p) as Hopts.
      destruct (findOption_name (sv.take k arg) p) as [oi p0] eqn:Hfind.
      intros Hflow Hb.
      destruct (parse_resolved_becomes_parsed _ _ _ _ _ _ _ _ _ _ _
                  Hopts Hflow Hb) as [-> (opt & Hopt & Hhv)].
      destruct (decide (Option.type opt = flag)); [done|].
      left. exists (sv.drop (k + 1) arg).
      assert (String "-" (String "-" arg)
              = ("--" +:+ sv.take k arg) +:+ "=" +:+ sv.drop (k + 1) arg)
        as ->.
      { rewrite Harg at 1. by rewrite !append_cons, append_nil_l. }
      apply to_named with opt; [|done..].
      apply names_long; [|done|by rewrite Hfind].
      intros Hempty. apply Hk. f_equal.
      destruct k as [|k]; [done|]. by destruct arg.
    + rewrite bool_decide_false by done.
      rewrite bool_decide_false by (by intros [? ?]).
      pose proof (findOption_name_options arg p) as Hopts.
      destruct (findOption_name arg p) as [oi p0] eqn:Hfind.
      intros Hflow Hb.
      destruct (parse_resolved_becomes_parsed _ _ _ _ _ _ _ _ _ _ _
                  Hopts Hflow Hb) as [-> (opt & Hopt & Hhv)].
      destruct (decide (Option.type opt = flag)); [|done].
      right. apply flag_named with opt; [|done..].
      by apply (names_long p arg); [|done|rewrite Hfind].
  - (* a short name or a bundle *)
    cbv iota. simpl sv.empty. cbv iota.
    set (arg := String c1 rest).
    destruct (sv.find "=" arg) as [k|] eqn:Heq.
    + case_bool_decide as Hk.
      { intros [= <-] Hb. by destruct (becomes_parsed_same p _ j eq_refl). }
      rewrite bool_decide_true by done.
      destruct (sv_find_split _ _ _ Heq) as [Harg Hnone].
      destruct k as [|k]; [done|].
      change (sv.take (S k) arg) with (String c1 (sv.take k rest)).
      destruct (sv.take k rest) as [|c2 name] eqn:Htake.
      2:{ intros [= <-] Hb. by destruct (becomes_parsed_same p _ j eq_refl). }
      pose proof (findOption_optChar_options c1 p) as Hopts.
      destruct (findOption_optChar c1 p) as [oi p0] eqn:Hfind.
      intros Hflow Hb.
      destruct (parse_resolved_becomes_parsed _ _ _ _ _ _ _ _ _ _ _
                  Hopts Hflow Hb) as [-> (opt & Hopt & Hhv)].
      destruct (decide (Option.type opt = flag)); [done|].
      left. exists (sv.drop (S k + 1) arg).
      assert (String "-" arg
              = String "-" (String c1 "") +:+ "=" +:+ sv.drop (S k + 1) arg)
        as ->.
      { rewrite Harg at 1.
        change (sv.take (S k) arg) with (String c1 (sv.take k rest)).
        by rewrite Htake. }
      apply to_named with opt; [|done..].
      apply names_short; [done| |by rewrite Hfind].
      intros ->. unfold arg in Heq. by unfold sv.find in Heq.
    + rewrite bool_decide_false by done.
      rewrite bool_decide_false by (by intros [? ?]).
      destruct rest as [|c2 name]; subst arg; cbv iota.
      * pose proof (findOption_optChar_options c1 p) as Hopts.
        destruct (findOption_optChar c1 p) as [oi p0] eqn:Hfind.
        simpl in Hopts. intros Hflow Hb.
        destruct (parse_resolved_becomes_parsed _ _ _ _ _ _ _ _ _ _ _
                    Hopts Hflow Hb) as [-> (opt & Hopt & Hhv)].
        destruct (decide (Option.type opt = flag)); [|done].
        right. apply flag_named with opt; [|done..].
        apply names_short; [done| |by rewrite Hfind].
        intros ->. by unfold sv.find in Heq.
      * intros Hflow Hb.
        destruct (parse_bundle_becomes_parsed _ _ _ _ _ _ Hflow Hb)
          as (pre & c & post & opt & Hname & Hpre & Hf & Ho & Hty).
        right. apply flag_bundled with pre c post opt; try done.
        -- simpl. lia.
        -- simpl. by apply Ascii.eqb_neq.
Qed.

End token.

(** The same for the loop: an option that has [parsed] set after some
    arguments had it set all along, or one of these arguments was
    applied to it. *)
Lemma parse_loop_becomes_parsed h argv p0 m0 j n :
  ∀ p',
    flow_parser
      (parse_loop h argv (seqZ 1 (Z.of_nat n)) p0 m0 locals0) = Some p' →
    becomes_parsed p0 p' j →
    ∃ k p1 m1 l1 tok,
      (1 ≤ k ≤ Z.of_nat n)%Z
      ∧ parse_loop h argv (seqZ 1 (k - 1)) p0 m0 locals0 = Continue p1 m1 l1
      ∧ argv_at argv k = Some tok
      ∧ applies_to p1 l1 tok j.
Proof.
  induction n as [|n IH]; intros p'.
  { simpl. intros [= <-] Hb. by destruct (becomes_parsed_same p0 p0 j). }
  replace (Z.of_nat (S n)) with (Z.of_nat n + 1)%Z by lia.
  rewrite seqZ_app by lia. rewrite parse_loop_app.
  pose proof (parse_loop_effect h argv (seqZ 1 (Z.of_nat n)) p0 m0 locals0)
    as Heff.
  destruct (parse_loop h argv (seqZ 1 (Z.of_nat n)) p0 m0 locals0)
    as [p1 m1 l1|b p1 m1|f] eqn:Hloop; [| |done].
  2:{ intros Hflow Hb.
      destruct (IH p' Hflow Hb) as (k & p2 & m2 & l2 & tok & Hk & ?).
      exists k, p2, m2, l2, tok. split; [lia | done]. }
  change (seqZ (1 + Z.of_nat n) 1) with [(1 + Z.of_nat n)%Z]. simpl.
  destruct (argv_at argv (1 + Z.of_nat n)) as [tok|] eqn:Htok; [|done].
  intros Hflow Hb.
  assert (flow_parser (parse_arg h tok p1 m1 l1) = Some p') as Hstep.
  { by destruct (parse_arg h tok p1 m1 l1). }
  clear Hflow. destruct Heff as [(_ & _ & Hos) _].
  destruct Hb as [H1 H2].
  destruct (options_ p0 !! j) as [o|] eqn:Ho; [|done].
  destruct (Forall2_lookup_l _ _ _ _ _ Hos Ho) as (o1 & Ho1 & Hstill).
  destruct (Option.parsed o1) eqn:Hp1.
  - destruct (IH p1) as (k & p2 & m2 & l2 & tok' & Hk & ?).
    { done. }
    { split; [by rewrite Ho | by rewrite Ho1; simpl; rewrite Hp1]. }
    exists k, p2, m2, l2, tok'. split; [lia | done].
  - exists (1 + Z.of_nat n)%Z, p1, m1, l1, tok.
    split; [lia|].
    split; [by replace (1 + Z.of_nat n - 1)%Z with (Z.of_nat n) by lia|].
    split; [done|].
    apply (parse_arg_becomes_parsed h tok p1 m1 l1 p' j Hstep).
    split; [by rewrite Ho1; simpl; rewrite Hp1 | done].
Qed.

(** C2 (as amended).  An option's [parsed] field becomes true only when
    an argument is applied to the option: the argument hands a value to
    it, as the pending option, as a positional option or inline, or it
    sets it as a flag.  It then becomes true before the conversion and
    whatever its result: when the value converts the loop goes on with
    [parsed] set, and when [parse] returns failure because the value
    does not convert, the option has [parsed] set as well (the error
    text ends in the value).  No other option's field changes in that
    step. *)
Theorem parsed_set_when_applied (argc : Z) (argv : list string)
    (p : CommandLineParser) (m : Memory) :
  (∀ b p' m' j,
     parse argc argv p m = Returns b p' m' →
     becomes_parsed p p' j →
     ∃ k p1 m1 l1 tok,
       reaches argv p m k p1 m1 l1
       ∧ (k < argc)%Z
       ∧ argv_at argv k = Some tok
       ∧ applies_to p1 l1 tok j)
  ∧ (∀ k p1 m1 l1 tok i v b m2,
       reaches argv p m k p1 m1 l1 →
       (k < argc)%Z →
       argv_at argv k = Some tok →
       hands_over p1 l1 tok i v →
       invoke i v p1 m1 = Some (b, m2) →
       ∃ p2,
         (if b then ∃ l2, reaches argv p m (k + 1) p2 m2 l2
          else parse argc argv p m = Returns false p2 m2
               ∧ error p2 = error p1 +:+ "invalid option value: " +:+ v)
         ∧ Option.parsed <$> options_ p2 !! i = Some true
         ∧ ∀ j, j ≠ i → options_ p2 !! j = options_ p1 !! j).
Proof.
  split.
  - intros b p' m' j. unfold parse.
    destruct (argv_at argv 0) as [argv0|] eqn:H0; [|done].
    rewrite has_positional_parse_program.
    set (p0 := parse_program argv0 p). set (h := has_positional p).
    intros Hparse Hb.
    assert (seqZ 1 (argc - 1) = seqZ 1 (Z.of_nat (Z.to_nat (argc - 1))))
      as Hseq.
    { destruct (Z.le_gt_cases 0 (argc - 1)).
      - by rewrite Z2Nat.id.
      - rewrite seqZ_nil by lia. by replace (Z.to_nat (argc - 1)) with 0 by lia. }
    rewrite Hseq in Hparse.
    assert (∃ p2,
              flow_parser
                (parse_loop h argv (seqZ 1 (Z.of_nat (Z.to_nat (argc - 1))))
                   p0 m locals0) = Some p2
              ∧ options_ p' = options_ p2) as (p2 & Hflow & Hopts).
    { revert Hparse. unfold parse_end.
      destruct (parse_loop h argv _ p0 m locals0) as [p2 m2 l2|b2 p2 m2|f];
        [|intros [= _ <- _]; by exists p2|done].
      exists p2. split; [done|]. revert Hparse.
      destruct (lastOption l2) as [i|]; [|by intros [= _ <- _]].
      destruct (options_ p2 !! i) as [opt|]; [|done].
      destruct (Option.parsed opt); [by intros [= _ <- _]|].
      destruct (argv_at argv (argc - 1)); [|done].
      by intros [= _ <- _]. }
    destruct (parse_loop_becomes_parsed h argv p0 m j
                (Z.to_nat (argc - 1)) p2 Hflow)
      as (k & p1 & m1 & l1 & tok & Hk & Hloop & Htok & Happ).
    { destruct Hb as [H1 H2]. split.
      - unfold p0. by rewrite options_parse_program.
      - by rewrite <-Hopts. }
    exists k, p1, m1, l1, tok.
    split; [|split; [lia | done]].
    exists argv0. split; [done|]. split; [lia | done].
  - intros k p1 m1 l1 tok i v b m2 Hreach Hk Htok Hover Hinv.
    assert (Option.parsed <$> options_ (mark_parsed i p1) !! i = Some true)
      as Hparsed.
    { rewrite options_mark_parsed_eq.
      unfold invoke in Hinv. by destruct (options_ p1 !! i). }
    destruct b.
    + exists (mark_parsed i p1).
      destruct (parse_arg_conversion_success (has_positional p) _ _ _ _ _ _ _
                  Hover Hinv) as [l2 Harg].
      split; [exists l2; by eapply reaches_step|].
      split; [done|]. intros j Hj. by apply options_mark_parsed_ne.
    + exists (formatArgError "invalid option value" v (mark_parsed i p1)).
      split; [split; [|done]|].
      { eapply parse_returns_at; [done..|].
        by apply parse_arg_conversion_failure. }
      split; [done|]. intros j Hj. by apply options_mark_parsed_ne.
Qed.

Lemma parsed_set_when_applied_witness :
  (∃ k p1 m1 l1 tok,
     reaches ["prog"; "--level=abc"] level_parser level_memory k p1 m1 l1
     ∧ (k < 2)%Z
     ∧ argv_at ["prog"; "--level=abc"] k = Some tok
     ∧ applies_to p1 l1 tok 0)
  ∧ ∃ p2,
      (parse 2 ["prog"; "--level=abc"] level_parser level_memory
         = Returns false p2 level_memory
       ∧ error p2 =
           error (parse_program "prog" level_parser)
             +:+ "invalid option value: " +:+ "abc")
      ∧ Option.parsed <$> options_ p2 !! 0 = Some true
      ∧ ∀ j, j ≠ 0 →
          options_ p2 !! j = options_ (parse_program "prog" level_parser) !! j.
Proof.
  split.
  - eapply (proj1 (parsed_set_when_applied 2 ["prog"; "--level=abc"]
                     level_parser level_memory) false _ _ 0).
    + reflexivity.
    + split; reflexivity.
  - apply (proj2 (parsed_set_when_applied 2 ["prog"; "--level=abc"]
                    level_parser level_memory)
             1%Z (parse_program "prog" level_parser)
             level_memory locals0 "--level=abc" 0 "abc" false level_memory).
    + exists "prog". split; [reflexivity|]. split; [lia | reflexivity].
    + lia.
    + reflexivity.
    + apply (to_named (parse_program "prog" level_parser) locals0 "--level" 0
               (Option.Option param 0 (parseValue (TIntegral int_))
                  "level,l" "" 0)).
      * by apply (names_long (parse_program "prog" level_parser) "level").
      * reflexivity.
      * discriminate.
    + reflexivity.
Defined.

(** C2 (as stated) fails: "abc" does not convert to an [int]; [parse]
    returns failure, the variable holds what it held, and the option has
    [parsed] set all the same. *)
Lemma parsed_without_value :
  observe (parse 2 ["prog"; "--level=abc"] level_parser level_memory)
    = Some (false, "invalid option value: abc", [true], level_memory)
  ∧ Option.parsed <$> options_ level_parser = [false].
Proof. split; reflexivity. Qed.

(** An option that is only named stays as it was: [--level] without a
    value leaves [parsed] unset. *)
Example named_without_value :
  observe (parse 2 ["prog"; "--level"] level_parser level_memory)
    = Some (false, "option requires value: --level", [false], level_memory).
Proof. reflexivity. Qed.

(** ** Unknown options among bare arguments *)

Local Open Scope list_scope.

(** *** Bare arguments for a catch-all list *)

Lemma catch_all_list_options p p' i T a :
  Forall2 still (options_ p) (options_ p') →
  catch_all_list p i T a →
  catch_all_list p' i T a.
Proof.
  intros Hos [(opt & Hopt & Hpos & Hfn & Hval) Hrest]. split.
  - destruct (Forall2_lookup_l _ _ _ _ _ Hos Hopt) as (opt' & Hopt' & Hst).
    exists opt'. by destruct Hst as [->| ->].
  - intros j opt' Hopt' Hj.
    destruct (Forall2_lookup_r _ _ _ _ _ Hos Hopt') as (opt0 & Hopt0 & Hst).
    specialize (Hrest j opt0 Hopt0 Hj). by destruct Hst as [->| ->].
Qed.

Lemma findOption_position_catch_all p i T a slot :
  catch_all_list p i T a →
  (1 ≤ slot)%Z →
  findOption_position slot p = Some i.
Proof.
  intros [(opt & Hopt & Hpos & _) Hrest] Hslot.
  assert (∀ j, catch_all_at (options_ p) j → j = i) as Honly.
  { intros j (opt' & Hopt' & Hpos').
    destruct (decide (j = i)) as [|Hne]; [done|].
    specialize (Hrest j opt' Hopt' Hne). lia. }
  unfold findOption_position.
  destruct (findOption_position_loop_spec slot (options_ p) 0 None)
    as [(j & _ & (opt' & Hopt' & Hpos') & _) | [_ [(j & -> & Hj & _) | [_ Hno]]]].
  - destruct (decide (j = i)) as [->|Hne].
    + rewrite Hopt in Hopt'. injection Hopt' as <-. lia.
    + specialize (Hrest j opt' Hopt' Hne). lia.
  - by rewrite (Honly j Hj).
  - destruct (Hno i). by exists opt.
Qed.

(** A bare argument that no option waits for is appended to the
    catch-all list. *)
Lemma parse_arg_catch_all h tok i T a xs v p m l :
  catch_all_list p i T a →
  m !! a = Some (VVector T xs) →
  lastOption l = None →
  lastOptionUnknown l = false →
  (0 ≤ position l)%Z →
  bare tok →
  converts T tok v →
  parse_arg h tok p m l =
  Continue (mark_parsed i p) (<[a := VVector T (xs ++ [v])]> m)
    (with_position (position l + 1) l).
Proof.
  intros Hlist Hm Hl Hu Hpos [He Hd] Hv.
  unfold parse_arg. rewrite He, Hd, Hu, Hl. simpl.
  rewrite (findOption_position_catch_all p i T a) by (done || lia).
  destruct Hlist as [(opt & Hopt & _ & Hfn & <-) _].
  unfold parseOption. rewrite invoke_mark_parsed.
  unfold invoke. rewrite Hopt, Hm, Hfn. simpl.
  destruct (decide (T = T)); [|done].
  unfold converts in Hv. by rewrite Hv.
Qed.

Lemma with_position_twice a b l :
  with_position b (with_position a l) = with_position b l.
Proof. done. Qed.

(** A run of such arguments. *)
Lemma parse_loop_catch_all h argv i T a :
  ∀ toks vs k p m l xs,
    catch_all_list p i T a →
    m !! a = Some (VVector T xs) →
    lastOption l = None →
    lastOptionUnknown l = false →
    (0 ≤ position l)%Z →
    Forall bare toks →
    Forall2 (converts T) toks vs →
    (∀ j tok, toks !! j = Some tok →
              argv_at argv (k + Z.of_nat j) = Some tok) →
    parse_loop h argv (seqZ k (Z.of_nat (length toks))) p m l =
    Continue (if decide (toks = []) then p else mark_parsed i p)
      (<[a := VVector T (xs ++ vs)]> m)
      (with_position (position l + Z.of_nat (length toks)) l).
Proof.
  induction toks as [|tok toks IH]; intros vs k p m l xs
    Hlist Hm Hl Hu Hpos Hbare Hvs Hargv.
  { apply Forall2_nil_inv_l in Hvs as ->. simpl.
    rewrite app_nil_r, insert_id by done.
    destruct l. unfold with_position. simpl. do 2 f_equal. lia. }
  apply Forall2_cons_inv_l in Hvs as (v & vs' & Hv & Hvs & ->).
  apply Forall_cons in Hbare as [Hb Hbare].
  rewrite seqZ_cons by (simpl; lia). cbn [parse_loop].
  pose proof (Hargv 0 tok eq_refl) as H0. rewrite Z.add_0_r in H0.
  rewrite H0.
  rewrite (parse_arg_catch_all h tok i T a xs v) by done.
  replace (Z.pred (Z.of_nat (length (tok :: toks))))
    with (Z.of_nat (length toks)) by (simpl; lia).
  rewrite (IH vs' (Z.succ k) _ _ _ (xs ++ [v])%list); try done.
  - destruct (decide (tok :: toks = [])) as [|_]; [done|].
    rewrite insert_insert_eq, <-app_assoc.
    simpl. rewrite with_position_twice. f_equal.
    + destruct (decide (toks = [])); [done | apply mark_parsed_idemp].
    + f_equal. lia.
  - eapply catch_all_list_options; [|done]. apply same_table_mark_parsed.
  - by rewrite lookup_insert_eq.
  - simpl. lia.
  - intros j tok' Hj. specialize (Hargv (S j) tok' Hj).
    by replace (Z.succ k + Z.of_nat j)%Z with (k + Z.of_nat (S j))%Z by lia.
Qed.

Lemma argv_at_nat argv j : argv_at argv (Z.of_nat j) = argv !! j.
Proof.
  unfold argv_at. destruct (Z.ltb_spec (Z.of_nat j) 0); [lia|].
  by rewrite Nat2Z.id.
Qed.

(** [parse] on bare arguments alone. *)
Lemma parse_catch_all prog toks i T a (xs vs : list (scalar T)) p m :
  catch_all_list p i T a →
  m !! a = Some (VVector T xs) →
  Forall bare toks →
  Forall2 (converts T) toks vs →
  parse (1 + Z.of_nat (length toks)) (prog :: toks) p m =
  Returns true
    (if decide (toks = []) then parse_program prog p
     else mark_parsed i (parse_program prog p))
    (<[a := VVector T (xs ++ vs)]> m).
Proof.
  intros Hlist Hm Hbare Hvs. unfold parse.
  change (argv_at (prog :: toks) 0) with (Some prog). cbv beta iota zeta.
  replace (1 + Z.of_nat (length toks) - 1)%Z with (Z.of_nat (length toks))
    by lia.
  rewrite (parse_loop_catch_all _ _ i T a toks vs 1 _ m locals0 xs);
    try done.
  - eapply catch_all_list_options; [|done].
    rewrite options_parse_program. apply Forall2_still_refl.
  - intros j tok Hj.
    replace (1 + Z.of_nat j)%Z with (Z.of_nat (S j)) by lia.
    by rewrite argv_at_nat.
Qed.

(** C7.  With unknown-option skipping enabled and a registry whose one
    positional option is a catch-all list, on an input of bare arguments
    with an unknown long option and a bare argument behind it somewhere
    among them, [parse] succeeds; the bare arguments before and after
    the two are appended to the list, in order, and nothing else is:
    the unknown option and the bare argument behind it are discarded.
    The parser and the memory are left as by the input without the
    two. *)
Theorem skipUnknown_discards (p : CommandLineParser) (m : Memory)
    (prog name v : string) (pre post : list string)
    (i : nat) (T : ScalarType) (a : nat)
    (xs vs_pre vs_post : list (scalar T)) :
  skipUnknown_ p = true →
  name ≠ "" →
  sv.find "=" name = None →
  (∀ opt, opt ∈ options_ p → Option.name opt ≠ name) →
  bare v →
  catch_all_list p i T a →
  m !! a = Some (VVector T xs) →
  Forall bare pre →
  Forall bare post →
  Forall2 (converts T) pre vs_pre →
  Forall2 (converts T) post vs_post →
  let p' :=
    if decide (pre ++ post = []) then parse_program prog p
    else mark_parsed i (parse_program prog p) in
  let m' := <[a := VVector T (xs ++ vs_pre ++ vs_post)]> m in
  parse (3 + Z.of_nat (length pre) + Z.of_nat (length post))
    (prog :: pre ++ ("--" +:+ name) :: v :: post) p m
  = Returns true p' m'
  ∧ parse (1 + Z.of_nat (length pre) + Z.of_nat (length post))
      (prog :: pre ++ post) p m
    = Returns true p' m'.
Proof.
  intros Hskip Hne Heq Hnone [He Hd] Hlist Hm Hbpre Hbpost Hvpre Hvpost p' m'.
  split.
  2:{ replace (1 + Z.of_nat (length pre) + Z.of_nat (length post))%Z
        with (1 + Z.of_nat (length (pre ++ post)))%Z
        by (rewrite length_app; lia).
      apply parse_catch_all; try done.
      - by apply Forall_app.
      - by apply Forall2_app. }
  unfold parse.
  change (argv_at (prog :: pre ++ ("--" +:+ name) :: v :: post) 0)
    with (Some prog). cbv beta iota zeta.
  set (argv := prog :: pre ++ ("--" +:+ name) :: v :: post).
  set (p0 := parse_program prog p). set (h := has_positional p0).
  assert (skipUnknown_ p0 = true) as Hskip0.
  { unfold p0, parse_program. by destruct (sv.find_last_of _ _). }
  assert (options_ p0 = options_ p) as Hopts0
    by apply options_parse_program.
  assert (catch_all_list p0 i T a) as Hlist0.
  { eapply catch_all_list_options; [|done].
    rewrite Hopts0. apply Forall2_still_refl. }
  assert (∀ j, argv_at argv (1 + Z.of_nat j)
               = (pre ++ ("--" +:+ name) :: v :: post) !! j) as Hargv.
  { intros j. replace (1 + Z.of_nat j)%Z with (Z.of_nat (S j)) by lia.
    by rewrite argv_at_nat. }
  replace (3 + Z.of_nat (length pre) + Z.of_nat (length post) - 1)%Z
    with (Z.of_nat (length pre) + (2 + Z.of_nat (length post)))%Z by lia.
  rewrite seqZ_app by lia. rewrite parse_loop_app.
  rewrite (parse_loop_catch_all _ _ i T a pre vs_pre 1 _ m locals0 xs);
    try done.
  2:{ intros j tok Hj. rewrite Hargv. by apply lookup_app_l_Some. }
  set (p1 := if decide (pre = []) then p0 else mark_parsed i p0).
  set (m1 := <[a := VVector T (xs ++ vs_pre)]> m).
  set (l1 := with_position (position locals0 + Z.of_nat (length pre)) locals0).
  assert (Forall2 still (options_ p0) (options_ p1)) as Hos1.
  { unfold p1. destruct (decide (pre = []));
      [apply Forall2_still_refl | apply same_table_mark_parsed]. }
  rewrite (seqZ_app _ 2) by lia. rewrite parse_loop_app.
  assert (parse_loop h argv (seqZ (1 + Z.of_nat (length pre)) 2) p1 m1 l1
          = Continue p1 m1 l1) as ->.
  { rewrite (seqZ_cons _ 2) by lia. cbn [parse_loop].
    rewrite Hargv, list_lookup_middle by done. cbv beta iota.
    rewrite parse_arg_long by done.
    rewrite findOption_name_unknown.
    2:{ unfold p1. by destruct (decide (pre = [])). }
    2:{ intros opt Hin. apply list_elem_of_lookup in Hin as [j Hj].
        destruct (Forall2_lookup_r _ _ _ _ _ Hos1 Hj) as (opt0 & Hj0 & Hst).
        rewrite Hopts0 in Hj0.
        assert (Option.name opt = Option.name opt0) as ->
          by (by destruct Hst as [->| ->]).
        apply Hnone. by eapply list_elem_of_lookup_2. }
    unfold parse_resolved.
    assert (skipUnknown_ p1 = true) as ->.
    { unfold p1. by destruct (decide (pre = [])). }
    change (Z.pred 2) with 1%Z. rewrite (seqZ_cons _ 1) by lia.
    cbn [parse_loop].
    replace (Z.succ (1 + Z.of_nat (length pre)))
      with (1 + Z.of_nat (S (length pre)))%Z by lia.
    rewrite Hargv.
    change (pre ++ ("--" +:+ name) :: v :: post)
      with (pre ++ [("--" +:+ name)] ++ v :: post).
    rewrite app_assoc.
    replace (S (length pre)) with (length (pre ++ ["--" +:+ name]))
      by (rewrite length_app; simpl; lia).
    rewrite list_lookup_middle by done. cbv beta iota.
    unfold parse_arg. rewrite He, Hd. simpl. done. }
  rewrite (parse_loop_catch_all _ _ i T a post vs_post _ p1 m1 l1
             (xs ++ vs_pre)%list); try done.
  - unfold parse_end. simpl.
    unfold m', m1. rewrite insert_insert_eq, <-app_assoc.
    do 2 f_equal. unfold p', p1.
    destruct pre as [|tok pre]; simpl.
    + by destruct (decide (post = [])).
    + destruct (decide (post = [])); [done | apply mark_parsed_idemp].
  - by eapply catch_all_list_options.
  - unfold m1. by rewrite lookup_insert_eq.
  - simpl. lia.
  - intros j tok Hj.
    replace (1 + Z.of_nat (length pre) + 2 + Z.of_nat j)%Z
      with (1 + Z.of_nat (length pre + (2 + j)))%Z by lia.
    rewrite Hargv, lookup_app_r by lia.
    by replace (length pre + (2 + j) - length pre) with (S (S j)) by lia.
Qed.

Lemma skipUnknown_discards_witness :
  let p' := mark_parsed 2 (parse_program "prog" (skipUnknown true test_parser)) in
  let m' := <[2 := VVector TText ["a.txt"]]> test_memory in
  parse 4 ["prog"; "--bogus"; "val"; "a.txt"] (skipUnknown true test_parser)
    test_memory
  = Returns true p' m'
  ∧ parse 2 ["prog"; "a.txt"] (skipUnknown true test_parser) test_memory
    = Returns true p' m'.
Proof.
  apply (skipUnknown_discards (skipUnknown true test_parser) test_memory
           "prog" "bogus" "val" [] ["a.txt"] 2 TText 2 [] [] ["a.txt"]).
  - reflexivity.
  - discriminate.
  - reflexivity.
  - intros opt Hopt.
    repeat (apply elem_of_cons in Hopt as [->|Hopt]; [discriminate|]).
    by apply elem_of_nil in Hopt.
  - split; reflexivity.
  - split.
    + eexists. repeat split; reflexivity.
    + intros [|[|[|j]]] opt; simpl; intros [= <-] Hj; done.
  - reflexivity.
  - constructor.
  - repeat constructor.
  - constructor.
  - repeat constructor.
Defined.

(** The scenario of C7 on the demo program: [--bogus] and [val] are
    dropped, and [a.txt] alone reaches [files]. *)
Example skipUnknown_scenario :
  observe (parse 4 ["prog"; "--bogus"; "val"; "a.txt"]
             (skipUnknown true test_parser) test_memory)
    = Some (true, "", [false; false; true],
            <[2 := VVector TText ["a.txt"]]> test_memory).
Proof. reflexivity. Qed.

(** The two may stand anywhere among the bare arguments. *)
Example skipUnknown_in_the_middle :
  observe (parse 6 ["prog"; "a.txt"; "--bogus"; "val"; "b.txt"; "c.txt"]
             (skipUnknown true test_parser) test_memory)
    = Some (true, "", [false; false; true],
            <[2 := VVector TText ["a.txt"; "b.txt"; "c.txt"]]> test_memory).
Proof. reflexivity. Qed.
